(** * LineResize: a shallow embedding of [line_sticker_resize.py]

    The development follows the source file function by function:
    [parse_hex_color], [color_distance_sq], [detect_bg_color],
    [make_bg_transparent], [resize_and_pad], [process_image] and [main].

    Conventions.
    - Python [int] is [Z].  Python [str] is a list of characters; the
      characters are the code points below 256 ([ascii]).
    - A raised exception is the [Raise] branch of [result].
    - A Pillow image is a record of mode, size and a row-major pixel store
      that is read and written by index, as [Image.load()] gives it.
      Image sizes are below [2^31] and channels are bytes.
    - Python [float] is IEEE 754 binary64, as [SpecFloat] defines it.  The
      C library's [pow], which the standard does not fix, is a parameter.
    - Pillow's [convert] and [resize] are parameters of the functions that
      call them; [Image.new] and the masked [paste] are defined.
    - The disk is a finite map from paths to files.  A path is its
      directory and its final component; [suffix] and [with_suffix] are
      those of [pathlib] (Python 3.4 to 3.13).  What [main] finds at the
      input path is an argument of [main]. *)

From Stdlib Require Import ZArith List Lia String Ascii Bool.
From Stdlib Require Import Floats.SpecFloat.
From stdpp Require Import base tactics option list numbers sets gmap strings.

Local Open Scope Z_scope.

#[local] Set Warnings "-clear-no-such-hyp,-level-tolerance".


(** ** Exceptions *)

Inductive exn : Type :=
| ValueError
| ZeroDivisionError
| IndexError
| OverflowError.

Inductive result (A : Type) : Type :=
| Ok (a : A)
| Raise (e : exn).

Arguments Ok {A} a.
Arguments Raise {A} e.

Definition bind {A B} (m : result A) (k : A -> result B) : result B :=
  match m with
  | Ok a => k a
  | Raise e => Raise e
  end.

Notation "'do' x <- m ; k" := (bind m (fun x => k))
  (at level 10, x name, m at level 100, k at level 200,
   format "'[v' 'do'  x  <-  m ; '/' k ']'").

#[global] Instance exn_eq_dec : EqDecision exn.
Proof. solve_decision. Defined.

(** ** Strings *)

Module Str.

(** [str.isspace] on the code points below 256. *)
Definition is_space (c : ascii) : bool :=
  let n := Z.of_nat (nat_of_ascii c) in
  ((9 <=? n) && (n <=? 13)) || ((28 <=? n) && (n <=? 32))
  || (n =? 133) || (n =? 160).

Fixpoint lstrip (s : list ascii) : list ascii :=
  match s with
  | c :: t => if is_space c then lstrip t else s
  | [] => []
  end.

Definition rstrip (s : list ascii) : list ascii := rev (lstrip (rev s)).

(** [s.strip()] *)
Definition strip (s : list ascii) : list ascii := rstrip (lstrip s).

(** [s.startswith(c)] for a one-character prefix. *)
Definition startswith (c : ascii) (s : list ascii) : bool :=
  match s with
  | d :: _ => Ascii.eqb c d
  | [] => false
  end.

(** [s[i:j]] for [0 <= i <= j]. *)
Definition slice (i j : nat) (s : list ascii) : list ascii :=
  take (j - i) (drop i s).

(** [''.join(ch*2 for ch in s)] *)
Definition double_chars (s : list ascii) : list ascii :=
  flat_map (fun ch => [ch; ch]) s.

(** The value of a character as a digit of base 16, as [int] reads it. *)
Definition hex_digit (c : ascii) : option Z :=
  let n := Z.of_nat (nat_of_ascii c) in
  if (48 <=? n) && (n <=? 57) then Some (n - 48)
  else if (97 <=? n) && (n <=? 102) then Some (n - 87)
  else if (65 <=? n) && (n <=? 70) then Some (n - 55)
  else None.

Definition is_hex (c : ascii) : bool :=
  match hex_digit c with Some _ => true | None => false end.

(** The digits of an integer literal: one digit, then digits each
    optionally preceded by a single underscore. [acc] is the value read
    so far; [after_us] tells that the previous character was [_]. *)
Fixpoint digits16 (acc : Z) (after_us : bool) (s : list ascii) : option Z :=
  match s with
  | [] => if after_us then None else Some acc
  | c :: t =>
      match hex_digit c with
      | Some d => digits16 (acc * 16 + d) false t
      | None =>
          if Ascii.eqb c "_"%char && negb after_us
          then digits16 acc true t
          else None
      end
  end.

Definition literal16 (s : list ascii) : option Z :=
  match s with
  | c :: _ => if is_hex c then digits16 0 false s else None
  | [] => None
  end.

Definition skip_prefix16 (s : list ascii) : list ascii :=
  match s with
  | z :: x :: t =>
      if Ascii.eqb z "0"%char
         && (Ascii.eqb x "x"%char || Ascii.eqb x "X"%char)
      then match t with
           | u :: t' => if Ascii.eqb u "_"%char then t' else t
           | [] => t
           end
      else s
  | _ => s
  end.

(** The whitespace that [int] skips around a literal: the ASCII
    whitespace of C, and the characters from 127 on that [str.isspace]
    accepts, which [int] first turns into spaces.  The separators 28 to
    31 are not among them. *)
Definition is_int_space (c : ascii) : bool :=
  let n := Z.of_nat (nat_of_ascii c) in
  ((9 <=? n) && (n <=? 13)) || (n =? 32) || (n =? 133) || (n =? 160).

Fixpoint lskip (s : list ascii) : list ascii :=
  match s with
  | c :: t => if is_int_space c then lskip t else s
  | [] => []
  end.

(** [int(s, 16)]: surrounding whitespace, a sign, the prefix [0x], and
    the digits.  A string that is no literal raises [ValueError]. *)
Definition int16 (s : list ascii) : result Z :=
  let s := rev (lskip (rev (lskip s))) in
  let '(neg, s) :=
    match s with
    | c :: t =>
        if Ascii.eqb c "+"%char then (false, t)
        else if Ascii.eqb c "-"%char then (true, t)
        else (false, s)
    | [] => (false, s)
    end in
  match literal16 (skip_prefix16 s) with
  | Some v => Ok (if neg : bool then - v else v)
  | None => Raise ValueError
  end.

End Str.

(** ** Color utilities *)

Definition RGB : Type := Z * Z * Z.

(** [parse_hex_color], on the characters of its argument. *)
Definition parse_hex_chars (s : list ascii) : result RGB :=
  let s := Str.strip s in
  let s := if Str.startswith "#"%char s then drop 1 s else s in
  let s := if (length s =? 3)%nat then Str.double_chars s else s in
  if negb (length s =? 6)%nat then Raise ValueError
  else
    do r <- Str.int16 (Str.slice 0 2 s);
    do g <- Str.int16 (Str.slice 2 4 s);
    do b <- Str.int16 (Str.slice 4 6 s);
    Ok (r, g, b).

Definition parse_hex_color (s : string) : result RGB :=
  parse_hex_chars (list_ascii_of_string s).

Definition color_distance_sq (a b : RGB) : Z :=
  let '(a0, a1, a2) := a in
  let '(b0, b1, b2) := b in
  (a0 - b0) ^ 2 + (a1 - b1) ^ 2 + (a2 - b2) ^ 2.

Arguments color_distance_sq : simpl never.

(** ** Images *)

Inductive mode : Type := ModeRGBA | ModeRGB | ModeL | ModeP.

#[global] Instance mode_eq_dec : EqDecision mode.
Proof. solve_decision. Defined.

(** A pixel of an RGBA image: [(r, g, b, a)]. *)
Definition Pixel : Type := Z * Z * Z * Z.

Definition rgb_of (p : Pixel) : RGB := let '(r, g, b, _) := p in (r, g, b).
Definition alpha_of (p : Pixel) : Z := let '(_, _, _, a) := p in a.

Record Image : Type := mkImage {
  im_mode : mode;
  im_size : Z * Z;          (* (width, height) *)
  im_data : list Pixel      (* row-major: pixel (x, y) is at y * width + x *)
}.

Definition width (im : Image) : Z := fst (im_size im).
Definition height (im : Image) : Z := snd (im_size im).

Definition byte (v : Z) : Prop := 0 <= v <= 255.

Definition byte_pixel (p : Pixel) : Prop :=
  let '(r, g, b, a) := p in byte r /\ byte g /\ byte b /\ byte a.

(** The pixel store has one entry per pixel, and the channels are bytes. *)
Definition wf_image (im : Image) : Prop :=
  0 <= width im /\ 0 <= height im /\
  length (im_data im) = Z.to_nat (width im * height im) /\
  Forall byte_pixel (im_data im).

(** Position of pixel [(x, y)] in the store of an image [w] wide. *)
Definition offset (w x y : Z) : nat := Z.to_nat (y * w + x).

(** [im.getpixel((x, y))]: a negative coordinate counts from the far edge,
    and a coordinate outside the image raises [IndexError]. *)
Definition getpixel (im : Image) (xy : Z * Z) : result Pixel :=
  let '(x, y) := xy in
  let '(w, h) := im_size im in
  let x := if x <? 0 then w + x else x in
  let y := if y <? 0 then h + y else y in
  if (0 <=? x) && (x <? w) && (0 <=? y) && (y <? h) then
    match im_data im !! offset w x y with
    | Some p => Ok p
    | None => Raise IndexError
    end
  else Raise IndexError.

(** ** Counter *)

Module Counter.

(** A [collections.Counter] over colors: the keys in insertion order,
    each with its count. *)
Definition t : Type := list (RGB * Z).

#[global] Instance rgb_eq_dec : EqDecision RGB.
Proof. solve_decision. Defined.

Fixpoint incr (c : RGB) (cnt : t) : t :=
  match cnt with
  | [] => [(c, 1)]
  | (k, n) :: rest =>
      if decide (k = c) then (k, n + 1) :: rest
      else (k, n) :: incr c rest
  end.

(** [Counter(colors)] *)
Definition of_list (colors : list RGB) : t :=
  fold_left (fun cnt c => incr c cnt) colors [].

(** Insertion into a list sorted by count, largest first; an entry goes
    after the entries of the same count, which keeps the sort stable. *)
Fixpoint insert_desc (e : RGB * Z) (sorted : t) : t :=
  match sorted with
  | [] => [e]
  | e' :: rest =>
      if snd e' <? snd e then e :: e' :: rest
      else e' :: insert_desc e rest
  end.

(** [cnt.most_common()]: [sorted(items, key=count, reverse=True)]. *)
Definition most_common (cnt : t) : t :=
  fold_left (fun sorted e => insert_desc e sorted) cnt [].

(** [cnt.keys()] *)
Definition keys (cnt : t) : list RGB := map fst cnt.

(** The first entry has the largest count. *)
Definition head_max (l : t) : Prop :=
  match l with
  | [] => True
  | first :: rest => Forall (fun e => snd e <= snd first) rest
  end.

End Counter.

(** [for ... in xs: ... append(f(x))] where [f] may raise. *)
Fixpoint mapM {A B} (f : A -> result B) (xs : list A) : result (list B) :=
  match xs with
  | [] => Ok []
  | x :: rest =>
      do y <- f x;
      do ys <- mapM f rest;
      Ok (y :: ys)
  end.

Definition sumZ (xs : list Z) : Z := fold_left Z.add xs 0.

Definition chan0 (c : RGB) : Z := let '(r, _, _) := c in r.
Definition chan1 (c : RGB) : Z := let '(_, g, _) := c in g.
Definition chan2 (c : RGB) : Z := let '(_, _, b) := c in b.

Section Pillow.

(** [im.convert('RGBA')], Pillow's conversion of an image of any mode. *)
Variable convert_rgba : Image -> Image.

(** ** Background detector *)

Definition corners (w h : Z) : list (Z * Z) :=
  [(0, 0); (w - 1, 0); (0, h - 1); (w - 1, h - 1)].

(** The tail of [detect_bg_color], from the sampled colors on. *)
Definition pick_color (colors : list RGB) : RGB :=
  let cnt := Counter.most_common (Counter.of_list colors) in
  match cnt with
  | [] => (255, 255, 255)
  | (_, max_freq) :: _ =>
      let candidates :=
        map fst (filter (fun cf => snd cf = max_freq) cnt) in
      match candidates with
      | [c] => c
      | _ =>
          let n := Z.of_nat (length candidates) in
          (sumZ (map chan0 candidates) / n,
           sumZ (map chan1 candidates) / n,
           sumZ (map chan2 candidates) / n)
      end
  end.

Definition detect_bg_color (im : Image) : result RGB :=
  let px := convert_rgba im in
  let '(w, h) := im_size px in
  do colors <- mapM (fun xy => do p <- getpixel px xy; Ok (rgb_of p))
                    (corners w h);
  Ok (pick_color colors).

End Pillow.

(** ** Loops *)

(** [range(n)] *)
Definition range (n : Z) : list Z := seqZ 0 n.

(** [for i in xs: body] over a state [S], where the body may raise. *)
Fixpoint for_each {S} (body : Z -> S -> result S) (xs : list Z) (s : S)
  : result S :=
  match xs with
  | [] => Ok s
  | i :: rest => do s' <- body i s; for_each body rest s'
  end.

(** ** Binary64 arithmetic *)

Module F64.

Definition prec : Z := 53.
Definition emax : Z := 1024.

Definition float : Type := spec_float.

(** [float(n)] *)
Definition of_int (n : Z) : float := binary_normalize prec emax n 0 false.

Definition mul : float -> float -> float := SFmul prec emax.
Definition div : float -> float -> float := SFdiv prec emax.
Definition ltb : float -> float -> bool := SFltb.

(** [a / b] on two ints. *)
Definition true_div (a b : Z) : result float :=
  if b =? 0 then Raise ZeroDivisionError
  else Ok (div (of_int a) (of_int b)).

(** [min(a, b)]: the first argument unless the second is smaller. *)
Definition min (a b : float) : float := if ltb b a then b else a.

(** The integer nearest to [m / 2^k], ties to the even one. *)
Definition round_shift (m : positive) (k : Z) : Z :=
  let d := 2 ^ k in
  let q := Z.pos m / d in
  let r := Z.pos m mod d in
  match 2 * r ?= d with
  | Lt => q
  | Gt => q + 1
  | Eq => if Z.even q then q else q + 1
  end.

(** [round(x)]: the nearest int, ties to even; an infinity raises
    [OverflowError] and a NaN [ValueError]. *)
Definition round (x : float) : result Z :=
  match x with
  | S754_zero _ => Ok 0
  | S754_finite s m e =>
      let mag := if 0 <=? e then Z.pos m * 2 ^ e else round_shift m (- e) in
      Ok (if s then - mag else mag)
  | S754_infinity _ => Raise OverflowError
  | S754_nan => Raise ValueError
  end.

(** [int(x)]: truncation toward zero. *)
Definition truncate (x : float) : result Z :=
  match x with
  | S754_zero _ => Ok 0
  | S754_finite s m e =>
      let mag := if 0 <=? e then Z.pos m * 2 ^ e else Z.pos m / 2 ^ (- e) in
      Ok (if s then - mag else mag)
  | S754_infinity _ => Raise OverflowError
  | S754_nan => Raise ValueError
  end.

(** A shifted mantissa that has lost no bit. *)
Definition exact (mrs : shr_record) : Prop :=
  shr_r mrs = false /\ shr_s mrs = false.

(** A float between 0 and the integer [k]. *)
Definition le_int (k : Z) (x : float) : Prop :=
  match x with
  | S754_zero _ => True
  | S754_finite false m e => e <= 0 /\ Z.pos m <= k * 2 ^ (- e)
  | _ => False
  end.

(** A float that is zero, or finite and below [2^k] in magnitude. *)
Definition mag_le (k : Z) (x : float) : Prop :=
  match x with
  | S754_zero _ => True
  | S754_finite _ m e => Z.pos (digits2_pos m) + e <= k
  | _ => False
  end.

End F64.

(** ** Background keyer *)

Section Keyer.

Variable convert_rgba : Image -> Image.

(** [scaled_alpha a dist_sq tol_sq] is [int(a * (dist_sq / tol_sq) ** 0.5)]
    for [tol_sq <> 0]: a binary64 quotient, the C library's [pow], a
    binary64 product and a truncation. *)
Variable scaled_alpha : Z -> Z -> Z -> Z.

(** The body of the two loops at [(x, y)], on the pixel store [px]. *)
Definition key_pixel (bg : RGB) (tol_sq w x y : Z) (px : list Pixel)
  : result (list Pixel) :=
  match px !! offset w x y with
  | None => Raise IndexError
  | Some (r, g, b, a) =>
      if a =? 0 then Ok px
      else
        let dist_sq := color_distance_sq (r, g, b) bg in
        if dist_sq <=? tol_sq then
          if tol_sq =? 0 then Raise ZeroDivisionError
          else
            let new_alpha := scaled_alpha a dist_sq tol_sq in
            Ok (<[offset w x y := (r, g, b, new_alpha)]> px)
        else Ok px
  end.

Definition make_bg_transparent (im : Image) (bg : RGB) (tolerance : Z)
  : result Image :=
  let im := convert_rgba im in
  let '(w, h) := im_size im in
  let tol_sq := tolerance * tolerance * 3 in
  do px <- for_each
             (fun y px =>
                for_each (fun x px => key_pixel bg tol_sq w x y px)
                         (range w) px)
             (range h) (im_data im);
  Ok (mkImage (im_mode im) (im_size im) px).

End Keyer.

(** The alpha expression in binary64 arithmetic, with the C library's
    [pow(x, 0.5)] as [pow_half]: [int(a * (dist_sq / tol_sq) ** 0.5)]. *)
Definition alpha_expr (pow_half : F64.float -> F64.float) (a dist_sq tol_sq : Z)
  : result Z :=
  do ratio <- F64.true_div dist_sq tol_sq;
  F64.truncate (F64.mul (F64.of_int a) (pow_half ratio)).

(** What the body of the loops does to the pixel it visits. *)
Definition keyed_pixel (scaled_alpha : Z -> Z -> Z -> Z)
    (bg : RGB) (tol_sq : Z) (p : Pixel) : result Pixel :=
  let '(r, g, b, a) := p in
  if a =? 0 then Ok p
  else
    let dist_sq := color_distance_sq (r, g, b) bg in
    if dist_sq <=? tol_sq then
      if tol_sq =? 0 then Raise ZeroDivisionError
      else Ok (r, g, b, scaled_alpha a dist_sq tol_sq)
    else Ok p.

(** ** Resize and pad *)

(** An image of one color. *)
Definition blank_image (m : mode) (size : Z * Z) (color : Pixel) : Image :=
  let '(w, h) := size in
  mkImage m size (replicate (Z.to_nat (w * h)) color).

(** [Image.new(mode, (w, h), color)]: a negative width or height raises
    [ValueError]. *)
Definition new_image (m : mode) (size : Z * Z) (color : Pixel)
  : result Image :=
  let '(w, h) := size in
  if (w <? 0) || (h <? 0) then Raise ValueError
  else Ok (blank_image m size color).

(** Pillow's 8-bit blend: [DIV255] and [BLEND8]. *)
Definition div255 (a : Z) : Z :=
  let tmp := a + 128 in Z.shiftr (Z.shiftr tmp 8 + tmp) 8.

Definition blend8 (mask in1 in2 : Z) : Z :=
  div255 (in1 * (255 - mask) + in2 * mask).

(** One pixel of a paste through an RGBA mask: every band of the
    destination, alpha included, is blended with the source by the mask's
    alpha. *)
Definition blend_pixel (mask dst src : Pixel) : Pixel :=
  let m := alpha_of mask in
  let '(r1, g1, b1, a1) := dst in
  let '(r2, g2, b2, a2) := src in
  (blend8 m r1 r2, blend8 m g1 g2, blend8 m b1 b2, blend8 m a1 a2).

(** [dst.paste(src, (x0, y0), mask)] with [mask] of the size of [src]:
    the pixels of [dst] under the box of [src] are blended, the others
    kept. *)
Definition paste (dst src : Image) (xy : Z * Z) (mask : Image) : Image :=
  let '(x0, y0) := xy in
  let '(dw, dh) := im_size dst in
  let '(sw, sh) := im_size src in
  let at_index (i : nat) (d : Pixel) : Pixel :=
    let sx := Z.of_nat i mod dw - x0 in
    let sy := Z.of_nat i / dw - y0 in
    if (0 <=? sx) && (sx <? sw) && (0 <=? sy) && (sy <? sh) then
      match im_data src !! offset sw sx sy, im_data mask !! offset sw sx sy with
      | Some p, Some m => blend_pixel m d p
      | _, _ => d
      end
    else d in
  mkImage (im_mode dst) (im_size dst) (imap at_index (im_data dst)).

Section Resize.

Variable convert_rgba : Image -> Image.

(** [im.resize((w, h), Image.LANCZOS)] *)
Variable resize : Image -> Z * Z -> Image.

(** The size of the content and where it goes: lines 89-91 and 94-95. *)
Definition layout (target_w target_h w h : Z) : result (Z * Z * (Z * Z)) :=
  do sw <- F64.true_div target_w w;
  do sh <- F64.true_div target_h h;
  let scale := F64.min sw sh in
  do rw <- F64.round (F64.mul (F64.of_int w) scale);
  do rh <- F64.round (F64.mul (F64.of_int h) scale);
  let new_w := Z.max 1 rw in
  let new_h := Z.max 1 rh in
  let x := (target_w - new_w) / 2 in
  let y := (target_h - new_h) / 2 in
  Ok ((new_w, new_h), (x, y)).

Definition resize_and_pad (im : Image) (target_w target_h : Z)
  : result Image :=
  let im := convert_rgba im in
  let '(w, h) := im_size im in
  if (w =? 0) || (h =? 0) then Raise ValueError
  else
    do lay <- layout target_w target_h w h;
    let '(new_size, xy) := lay in
    let resized := resize im new_size in
    do canvas <- new_image ModeRGBA (target_w, target_h) (0, 0, 0, 0);
    Ok (paste canvas resized xy resized).

End Resize.

Definition TARGET_W : Z := 370.
Definition TARGET_H : Z := 320.

(** ** Vocabulary of the statements about [parse_hex_color] *)

Module ColorString.

(** The 256 characters. *)
Definition all_ascii : list ascii := map ascii_of_nat (seq 0 256).

(** The channel written by the two hex digits [c1 c2]. *)
Definition hex_pair (c1 c2 : ascii) : option Z :=
  match Str.hex_digit c1, Str.hex_digit c2 with
  | Some d1, Some d2 => Some (16 * d1 + d2)
  | _, _ => None
  end.

(** The triple a body of 3 or 6 hex digits stands for. *)
Definition expected (body : list ascii) : option RGB :=
  match body with
  | [c1; c2; c3] =>
      match hex_pair c1 c1, hex_pair c2 c2, hex_pair c3 c3 with
      | Some r, Some g, Some b => Some (r, g, b)
      | _, _, _ => None
      end
  | [c1; c2; c3; c4; c5; c6] =>
      match hex_pair c1 c2, hex_pair c3 c4, hex_pair c5 c6 with
      | Some r, Some g, Some b => Some (r, g, b)
      | _, _, _ => None
      end
  | _ => None
  end.

(** The part of a string after one optional leading [#]. *)
Definition body_of (s : list ascii) : list ascii :=
  match s with
  | c :: t => if Ascii.eqb c "#"%char then t else s
  | [] => []
  end.

(** A valid color string: an optional [#], then 3 or 6 hex digits. *)
Definition valid (s : list ascii) : bool :=
  let body := body_of s in
  ((length body =? 3)%nat || (length body =? 6)%nat)
  && forallb Str.is_hex body.

Definition whitespace (s : list ascii) : bool := forallb Str.is_space s.

(** Upper and lower case exchanged, on the letters A-Z and a-z. *)
Definition swap_char (c : ascii) : ascii :=
  let n := nat_of_ascii c in
  if ((65 <=? n) && (n <=? 90))%nat then ascii_of_nat (n + 32)
  else if ((97 <=? n) && (n <=? 122))%nat then ascii_of_nat (n - 32)
  else c.

Definition swapcase (s : list ascii) : list ascii := map swap_char s.

Definition swapcase_string (s : string) : string :=
  string_of_list_ascii (swapcase (list_ascii_of_string s)).

(** The optional leading [#]. *)
Definition hash (h : bool) : list ascii := if h then ["#"%char] else [].

End ColorString.

(** ** Vocabulary of the statements about [detect_bg_color] *)

Module Sampled.

Import Counter.

(** How often [c] occurs among the sampled colors. *)
Definition occ (c : RGB) (colors : list RGB) : Z :=
  Z.of_nat (length (filter (fun d => d = c) colors)).

(** The colors of the highest frequency, each once. *)
Definition modes (colors : list RGB) : list RGB :=
  filter (fun c => Forall (fun d => occ d colors <= occ c colors) colors)
         (remove_dups colors).

(** Channel-wise average, by floor division. *)
Definition channel_average (cs : list RGB) : RGB :=
  let n := Z.of_nat (length cs) in
  (sumZ (map chan0 cs) / n, sumZ (map chan1 cs) / n, sumZ (map chan2 cs) / n).

End Sampled.

(** A pixel blended by its own alpha onto a fully transparent pixel. *)
Definition self_masked (p : Pixel) : Pixel :=
  let '(r, g, b, a) := p in
  (div255 (r * a), div255 (g * a), div255 (b * a), div255 (a * a)).

(** ** Concrete instances *)

Module Sample.

(** The RGBA copy of an image whose store already holds RGBA pixels. *)
Definition convert_rgba (im : Image) : Image :=
  mkImage ModeRGBA (im_size im) (im_data im).

(** The keyed alpha in exact arithmetic, [floor (a * sqrt (d / t))]. *)
Definition scaled_alpha (a d t : Z) : Z := Z.sqrt (a * a * d / t).

(** A resize that copies an image of the requested size and otherwise
    fills the requested size with the first pixel. *)
Definition resize (im : Image) (size : Z * Z) : Image :=
  if decide (size = im_size im) then im
  else blank_image (im_mode im) size (default (0, 0, 0, 0) (head (im_data im))).

Definition white : RGB := (255, 255, 255).

(** One opaque white pixel. *)
Definition white_dot : Image :=
  mkImage ModeRGBA (1, 1) [(255, 255, 255, 255)].

(** One opaque red pixel. *)
Definition red_dot : Image :=
  mkImage ModeRGBA (1, 1) [(255, 0, 0, 255)].

(** Two rows: white and near-white, then red and a transparent white. *)
Definition patch : Image :=
  mkImage ModeRGBA (2, 2)
    [(255, 255, 255, 255); (250, 250, 250, 200);
     (255, 0, 0, 255); (255, 255, 255, 0)].

(** A canvas-sized image of one half-transparent color. *)
Definition translucent : Image :=
  mkImage ModeRGBA (TARGET_W, TARGET_H)
    (replicate (Z.to_nat (TARGET_W * TARGET_H)) (10, 20, 30, 128)).

(** Corners colored A, B, B, A. *)
Definition two_pairs : Image :=
  mkImage ModeRGBA (2, 2)
    [(10, 20, 30, 255); (50, 61, 70, 255);
     (50, 61, 70, 255); (10, 20, 30, 255)].

End Sample.

(** ** Writing a color as hex digits *)

Module HexFormat.

(** The lowercase hex digit of a value from 0 to 15. *)
Definition digit (d : Z) : ascii :=
  if d <? 10 then ascii_of_nat (Z.to_nat (48 + d))
  else ascii_of_nat (Z.to_nat (87 + d)).

(** [format(v, '02x')] for a byte [v]. *)
Definition byte_hex (v : Z) : list ascii := [digit (v / 16); digit (v mod 16)].

(** ['#%02x%02x%02x' % (r, g, b)] *)
Definition format (c : RGB) : string :=
  let '(r, g, b) := c in
  string_of_list_ascii
    ("#"%char :: byte_hex r ++ byte_hex g ++ byte_hex b).

End HexFormat.

(** A color whose channels are bytes. *)
Definition byte_rgb (c : RGB) : Prop :=
  let '(r, g, b) := c in byte r /\ byte g /\ byte b.

(** ** Paths *)

Module PathLib.

(** A path: the directory it lies in, and its final component. *)
Record path : Type := mkPath { parent : string; name : list ascii }.

#[global] Instance path_eq_dec : EqDecision path.
Proof. solve_decision. Defined.

#[global] Instance path_countable : Countable path.
Proof.
  apply (inj_countable' (fun p => (parent p, string_of_list_ascii (name p)))
           (fun q => mkPath (fst q) (list_ascii_of_string (snd q)))).
  intros [d n]. cbn. by rewrite list_ascii_of_string_of_list_ascii.
Defined.

(** [s.rfind(c)], scanning from position [i] with [last] the position of
    the last [c] seen so far. *)
Fixpoint rfind_from (c : ascii) (s : list ascii) (i last : Z) : Z :=
  match s with
  | [] => last
  | d :: t => rfind_from c t (i + 1) (if Ascii.eqb d c then i else last)
  end.

(** [s.rfind(c)]: the position of the last [c], or -1. *)
Definition rfind (c : ascii) (s : list ascii) : Z := rfind_from c s 0 (-1).

(** [PurePath.suffix], on the final component (Python 3.4 to 3.13). *)
Definition suffix (name : list ascii) : list ascii :=
  let i := rfind "."%char name in
  if (0 <? i) && (i <? Z.of_nat (length name) - 1)
  then drop (Z.to_nat i) name
  else [].

(** [str.lower] on the code points below 256. *)
Definition lower_char (c : ascii) : ascii :=
  let n := nat_of_ascii c in
  if ((65 <=? n) && (n <=? 90))%nat then ascii_of_nat (n + 32)
  else if ((192 <=? n) && (n <=? 222) && negb (n =? 215))%nat
       then ascii_of_nat (n + 32)
  else c.

Definition lower (s : list ascii) : list ascii := map lower_char s.

(** [c in s] for a character. *)
Definition contains (c : ascii) (s : list ascii) : bool :=
  existsb (Ascii.eqb c) s.

(** [PurePath.with_suffix], on the final component of a POSIX path. *)
Definition with_suffix_name (name sfx : list ascii) : result (list ascii) :=
  if contains "/"%char sfx then Raise ValueError
  else if (negb (length sfx =? 0)%nat && negb (Str.startswith "."%char sfx))
          || (if decide (sfx = ["."%char]) then true else false)
  then Raise ValueError
  else if (length name =? 0)%nat then Raise ValueError
  else
    let old_suffix := suffix name in
    if (length old_suffix =? 0)%nat then Ok (name ++ sfx)
    else Ok (take (length name - length old_suffix) name ++ sfx).

Definition with_suffix (p : path) (sfx : list ascii) : result path :=
  do n <- with_suffix_name (name p) sfx;
  Ok (mkPath (parent p) n).

Definition png : list ascii := list_ascii_of_string ".png".

End PathLib.

Definition VALID_EXTS : list (list ascii) :=
  map list_ascii_of_string [".png"; ".jpg"; ".jpeg"; ".webp"; ".bmp"; ".gif"]%string.

(** ** Files *)

(** A file on disk: one that Pillow decodes to an image, or any other. *)
Inductive file : Type :=
| ImageFile (im : Image)
| OtherFile.

Abbreviation FS := (gmap PathLib.path file).

(** The errors of the orchestrator: those of the functions above, and the
    [OSError]s of [Image.open]. *)
Inductive error : Type :=
| CoreError (e : exn)
| FileNotFoundError
| UnidentifiedImageError.

Inductive outcome (A : Type) : Type :=
| Done (a : A)
| Failed (e : error).

Arguments Done {A} a.
Arguments Failed {A} e.

Definition lift {A} (r : result A) : outcome A :=
  match r with
  | Ok a => Done a
  | Raise e => Failed (CoreError e)
  end.

Definition and_then {A B} (m : outcome A) (k : A -> outcome B) : outcome B :=
  match m with
  | Done a => k a
  | Failed e => Failed e
  end.

Notation "'try' x <- m ; k" := (and_then m (fun x => k))
  (at level 10, x name, m at level 100, k at level 200,
   format "'[v' 'try'  x  <-  m ; '/' k ']'").

(** [Image.open(path)] *)
Definition open_image (fs : FS) (p : PathLib.path) : outcome Image :=
  match fs !! p with
  | Some (ImageFile im) => Done im
  | Some OtherFile => Failed UnidentifiedImageError
  | None => Failed FileNotFoundError
  end.

Section Pipeline.

Variable convert_rgba : Image -> Image.
Variable resize : Image -> Z * Z -> Image.
Variable scaled_alpha : Z -> Z -> Z -> Z.

(** [process_image]: the disk after the PNG is saved.  A PNG holds the
    RGBA canvas without loss, so the saved file decodes to the canvas;
    the output directory exists and is writable. *)
Definition process_image (fs : FS) (src_path dst_path : PathLib.path)
    (make_transparent : bool) (bg_color : option RGB) (tolerance : Z)
  : outcome FS :=
  try im <- open_image fs src_path;
  try im <- (if make_transparent then
               try bg <- match bg_color with
                         | Some c => Done c
                         | None => lift (detect_bg_color convert_rgba im)
                         end;
               lift (make_bg_transparent convert_rgba scaled_alpha im bg
                                         tolerance)
             else Done im);
  try out_im <- lift (resize_and_pad convert_rgba resize im TARGET_W TARGET_H);
  try dst <- lift (PathLib.with_suffix dst_path PathLib.png);
  Done (<[dst := ImageFile out_im]> fs).

(** One round of the loop of [main]: the file is converted and counted,
    or skipped when anything is raised. *)
Definition convert_one (out_dir : string) (make_transparent : bool)
    (bg_tuple : option RGB) (tolerance : Z)
    (state : FS * Z) (f : PathLib.path) : FS * Z :=
  let '(fs, count) := state in
  let dst := PathLib.mkPath out_dir (PathLib.name f) in
  match process_image fs f dst make_transparent bg_tuple tolerance with
  | Done fs' => (fs', count + 1)
  | Failed _ => (fs, count)
  end.

(** What the input path is: a file, a directory with the paths that
    [rglob("*")] finds in it (each with [is_file()]), or nothing. *)
Inductive input : Type :=
| InputFile (p : PathLib.path)
| InputDir (found : list (PathLib.path * bool))
| InputMissing.

(** The test of the directory walk: [p.suffix.lower() in VALID_EXTS and
    p.is_file()]. *)
Definition wanted (entry : PathLib.path * bool) : bool :=
  (if decide (PathLib.lower (PathLib.suffix (PathLib.name (fst entry)))
              ∈ VALID_EXTS) then true else false)
  && snd entry.

(** The list [files] of [main], or nothing when the input path does not
    exist. *)
Definition candidates (inp : input) : option (list PathLib.path) :=
  match inp with
  | InputFile p => Some [p]
  | InputDir found => Some (map fst (List.filter wanted found))
  | InputMissing => None
  end.

(** [bg_tuple]: the parsed [--bg-color], or [None] when the option is
    absent or empty. *)
Definition parse_bg (bg_color : option string) : result (option RGB) :=
  match bg_color with
  | Some s =>
      if (String.length s =? 0)%nat then Ok None
      else do c <- parse_hex_color s; Ok (Some c)
  | None => Ok None
  end.

(** How [main] ends. *)
Inductive ending : Type :=
| BadColor (e : exn)          (* [parse_hex_color] raised *)
| ExitMissing                 (* "Input path does not exist." *)
| ExitNoImages                (* "No images found in the input path." *)
| Finished (fs : FS) (count : Z).

Definition main (inp : input) (output : string) (make_transparent : bool)
    (bg_color : option string) (tolerance : Z) (fs : FS) : ending :=
  match parse_bg bg_color with
  | Raise e => BadColor e
  | Ok bg_tuple =>
      match candidates inp with
      | None => ExitMissing
      | Some [] => ExitNoImages
      | Some files =>
          let '(fs', count) :=
            fold_left (convert_one output make_transparent bg_tuple tolerance)
                      files (fs, 0) in
          Finished fs' count
      end
  end.

End Pipeline.

(** A canvas saved in [out_dir] under a name with the suffix [.png]. *)
Definition canvas_entry (out_dir : string) (fs : FS) (p : PathLib.path)
  : Prop :=
  PathLib.parent p = out_dir
  /\ PathLib.suffix (PathLib.name p) = PathLib.png
  /\ exists out,
       fs !! p = Some (ImageFile out)
       /\ im_mode out = ModeRGBA
       /\ im_size out = (TARGET_W, TARGET_H)
       /\ length (im_data out) = Z.to_nat (TARGET_W * TARGET_H).

(** A disk with one picture, [in/cat.jpg], of one opaque white pixel. *)
Module SampleFiles.

Definition cat_jpg : PathLib.path :=
  PathLib.mkPath "in" (list_ascii_of_string "cat.jpg").

Definition cat_png : PathLib.path :=
  PathLib.mkPath "out" (list_ascii_of_string "cat.png").

Definition disk : FS := {[ cat_jpg := ImageFile Sample.white_dot ]}.

End SampleFiles.

(** ** A [pow] for the keyer *)

(** One [pow(x, 0.5)] that the C standard admits, the correctly rounded
    square root, and the alpha expression computed with it. *)
Module Binary64.

Definition pow_half : F64.float -> F64.float := SFsqrt F64.prec F64.emax.

Definition scaled_alpha (a dist_sq tol_sq : Z) : Z :=
  match alpha_expr pow_half a dist_sq tol_sq with
  | Ok v => v
  | Raise _ => 0
  end.

End Binary64.

(** ** More pictures *)

Module SampleImages.

(** An opaque red picture, 100 wide and 200 tall. *)
Definition tall : Image :=
  mkImage ModeRGBA (100, 200)
    (replicate (Z.to_nat (100 * 200)) (255, 0, 0, 255)).

(** A picture of the size of the canvas whose pixels all are the soft
    edge (250, 250, 250, 100): near-white, partly transparent. *)
Definition soft_edge : Image :=
  mkImage ModeRGBA (TARGET_W, TARGET_H)
    (replicate (Z.to_nat (TARGET_W * TARGET_H)) (250, 250, 250, 100)).

End SampleImages.

(** * Theorems *)

(** ** [parse_hex_color] *)

Module HexFacts.
Import Str ColorString.

Lemma all_ascii_complete (c : ascii) : In c all_ascii.
Proof.
  unfold all_ascii. rewrite <- (ascii_nat_embedding c).
  apply in_map, in_seq. pose proof (nat_ascii_bounded c). lia.
Qed.

(** A check that succeeds on the 256 characters holds of every one. *)
Lemma ascii_forall (P : ascii -> bool) :
  forallb P all_ascii = true -> forall c, P c = true.
Proof.
  intros H c. rewrite forallb_forall in H. apply H, all_ascii_complete.
Qed.

Lemma ascii_forall2 (P : ascii -> ascii -> bool) :
  forallb (fun c => forallb (P c) all_ascii) all_ascii = true ->
  forall c d, P c d = true.
Proof.
  intros H c d.
  apply (ascii_forall (P c)), (ascii_forall _ H).
Qed.

Ltac all_chars := apply ascii_forall; vm_compute; reflexivity.
Ltac all_char_pairs := apply ascii_forall2; vm_compute; reflexivity.

Lemma hex_not_space c : is_hex c = true -> is_space c = false.
Proof.
  assert (G : forall c, implb (is_hex c) (negb (is_space c)) = true)
    by all_chars.
  intros H. specialize (G c). rewrite H in G. simpl in G.
  destruct (is_space c); [discriminate | done].
Qed.

Lemma hex_not_hash c : is_hex c = true -> Ascii.eqb c "#"%char = false.
Proof.
  assert (G : forall c,
    implb (is_hex c) (negb (Ascii.eqb c "#"%char)) = true) by all_chars.
  intros H. specialize (G c). rewrite H in G. simpl in G.
  destruct (Ascii.eqb c "#"); [discriminate | done].
Qed.

(** [int] on two hex digits reads the byte they write. *)
Lemma int16_pair c1 c2 :
  is_hex c1 = true -> is_hex c2 = true ->
  exists v, hex_pair c1 c2 = Some v /\ int16 [c1; c2] = Ok v.
Proof.
  pose (chk := fun c d =>
    implb (is_hex c && is_hex d)
      match hex_pair c d, int16 [c; d] with
      | Some v, Ok v' => v =? v'
      | _, _ => false
      end).
  assert (G : forall c d, chk c d = true) by all_char_pairs.
  intros H1 H2. specialize (G c1 c2).
  unfold chk in G. rewrite H1, H2 in G. simpl in G.
  destruct (hex_pair c1 c2) as [v|]; [|discriminate].
  destruct (int16 [c1; c2]) as [v'|]; [|discriminate].
  apply Z.eqb_eq in G. subst. eauto.
Qed.

(** *** Stripping *)

Lemma lstrip_whitespace u s : whitespace u = true -> lstrip (u ++ s) = lstrip s.
Proof.
  induction u as [|c u IH]; simpl; [done|].
  intros [Hc Hu]%andb_true_iff. rewrite Hc. auto.
Qed.

Lemma lstrip_all_space u : whitespace u = true -> lstrip u = [].
Proof.
  intros H. rewrite <- (app_nil_r u), lstrip_whitespace; done.
Qed.

Lemma whitespace_rev u : whitespace (rev u) = whitespace u.
Proof.
  unfold whitespace. induction u as [|c u IH]; simpl; [done|].
  rewrite forallb_app, IH. simpl. destruct (is_space c), (forallb is_space u); done.
Qed.

Lemma rstrip_whitespace s v : whitespace v = true -> rstrip (s ++ v) = rstrip s.
Proof.
  intros H. unfold rstrip.
  rewrite rev_app_distr, lstrip_whitespace; [done|].
  by rewrite whitespace_rev.
Qed.

Lemma strip_whitespace u s v :
  whitespace u = true -> whitespace v = true ->
  strip (u ++ s ++ v) = strip s.
Proof.
  intros Hu Hv. unfold strip. rewrite lstrip_whitespace by done.
  induction s as [|c s IH]; simpl.
  - by rewrite (lstrip_all_space v).
  - destruct (is_space c); [done|].
    by rewrite (app_comm_cons s v c), rstrip_whitespace.
Qed.

(** A string that neither starts nor ends with a space is left as it is. *)
Lemma lstrip_id c s : is_space c = false -> lstrip (c :: s) = c :: s.
Proof. intros H. simpl. by rewrite H. Qed.

Lemma strip_id c s d :
  is_space c = false -> is_space d = false ->
  strip (c :: s ++ [d]) = c :: s ++ [d].
Proof.
  intros Hc Hd. unfold strip. rewrite lstrip_id by done.
  unfold rstrip. rewrite (app_comm_cons s [d] c), rev_app_distr. simpl.
  rewrite Hd. simpl. by rewrite rev_app_distr, rev_involutive.
Qed.

(** *** Valid color strings *)

Lemma parse_body3 (h : bool) c1 c2 c3 :
  forallb is_hex [c1; c2; c3] = true ->
  exists v, expected [c1; c2; c3] = Some v /\
            parse_hex_chars (hash h ++ [c1; c2; c3]) = Ok v.
Proof.
  simpl. rewrite !andb_true_iff. intros (H1 & H2 & H3 & _).
  destruct (int16_pair c1 c1 H1 H1) as (r & Er & Ir).
  destruct (int16_pair c2 c2 H2 H2) as (g & Eg & Ig).
  destruct (int16_pair c3 c3 H3 H3) as (b & Eb & Ib).
  exists (r, g, b). rewrite Er, Eg, Eb. split; [done|].
  unfold parse_hex_chars. destruct h; cbn [hash app].
  - pose proof (strip_id "#" [c1; c2] c3) as Hs. cbn [app] in Hs.
    rewrite Hs by auto using hex_not_space. clear Hs.
    cbn. cbn in Ir, Ig, Ib. by rewrite Ir, Ig, Ib.
  - pose proof (strip_id c1 [c2] c3) as Hs. cbn [app] in Hs.
    rewrite Hs by auto using hex_not_space. clear Hs.
    cbn [startswith]. rewrite Ascii.eqb_sym, (hex_not_hash c1 H1).
    cbn. cbn in Ir, Ig, Ib. by rewrite Ir, Ig, Ib.
Qed.

Lemma parse_body6 (h : bool) c1 c2 c3 c4 c5 c6 :
  forallb is_hex [c1; c2; c3; c4; c5; c6] = true ->
  exists v, expected [c1; c2; c3; c4; c5; c6] = Some v /\
            parse_hex_chars (hash h ++ [c1; c2; c3; c4; c5; c6]) = Ok v.
Proof.
  simpl. rewrite !andb_true_iff. intros (H1 & H2 & H3 & H4 & H5 & H6 & _).
  destruct (int16_pair c1 c2 H1 H2) as (r & Er & Ir).
  destruct (int16_pair c3 c4 H3 H4) as (g & Eg & Ig).
  destruct (int16_pair c5 c6 H5 H6) as (b & Eb & Ib).
  exists (r, g, b). rewrite Er, Eg, Eb. split; [done|].
  unfold parse_hex_chars. destruct h; cbn [hash app].
  - pose proof (strip_id "#" [c1; c2; c3; c4; c5] c6) as Hs. cbn [app] in Hs.
    rewrite Hs by auto using hex_not_space. clear Hs.
    cbn. cbn in Ir, Ig, Ib. by rewrite Ir, Ig, Ib.
  - pose proof (strip_id c1 [c2; c3; c4; c5] c6) as Hs. cbn [app] in Hs.
    rewrite Hs by auto using hex_not_space. clear Hs.
    cbn [startswith]. rewrite Ascii.eqb_sym, (hex_not_hash c1 H1).
    cbn. cbn in Ir, Ig, Ib. by rewrite Ir, Ig, Ib.
Qed.

(** A valid color string is its body behind an optional [#]. *)
Lemma valid_shape s :
  valid s = true ->
  exists h, s = hash h ++ body_of s /\
    ((length (body_of s) = 3)%nat \/ (length (body_of s) = 6)%nat) /\
    forallb is_hex (body_of s) = true.
Proof.
  unfold valid. intros [Hlen Hhex]%andb_true_iff.
  assert (Hl : (length (body_of s) = 3)%nat \/ (length (body_of s) = 6)%nat).
  { apply orb_true_iff in Hlen as [H|H]; apply Nat.eqb_eq in H; auto. }
  destruct s as [|c t]; [simpl in Hl; lia|].
  revert Hl Hhex. unfold body_of.
  destruct (Ascii.eqb c "#") eqn:E; intros Hl Hhex.
  - apply Ascii.eqb_eq in E. subst c. by exists true.
  - by exists false.
Qed.

Lemma parse_valid s :
  valid s = true ->
  exists v, expected (body_of s) = Some v /\ parse_hex_chars s = Ok v.
Proof.
  intros (h & Hs & Hl & Hhex)%valid_shape.
  remember (body_of s) as body eqn:Hb. clear Hb. subst s. revert Hl Hhex.
  destruct body as [|c1 [|c2 [|c3 [|c4 [|c5 [|c6 [|c7 t]]]]]]];
    simpl length; intros [Hl|Hl] Hhex; try lia.
  - by apply parse_body3.
  - by apply parse_body6.
Qed.

(** *** Letter case *)

Lemma hex_digit_swap c : hex_digit (swap_char c) = hex_digit c.
Proof.
  assert (G : forall c,
    match hex_digit (swap_char c), hex_digit c with
    | Some a, Some b => a =? b
    | None, None => true
    | _, _ => false
    end = true) by all_chars.
  specialize (G c).
  destruct (hex_digit (swap_char c)), (hex_digit c); try discriminate;
    [apply Z.eqb_eq in G; by subst | done].
Qed.

Lemma is_hex_swap c : is_hex (swap_char c) = is_hex c.
Proof. unfold is_hex. by rewrite hex_digit_swap. Qed.

Lemma hash_swap c :
  Ascii.eqb (swap_char c) "#"%char = Ascii.eqb c "#"%char.
Proof.
  assert (G : forall c,
    Bool.eqb (Ascii.eqb (swap_char c) "#"%char) (Ascii.eqb c "#"%char) = true)
    by all_chars.
  by apply Bool.eqb_prop.
Qed.

Lemma hex_pair_swap c d : hex_pair (swap_char c) (swap_char d) = hex_pair c d.
Proof. unfold hex_pair. by rewrite !hex_digit_swap. Qed.

Lemma body_of_swapcase s : body_of (swapcase s) = swapcase (body_of s).
Proof.
  destruct s as [|c t]; [done|]. simpl. rewrite hash_swap.
  by destruct (Ascii.eqb c "#").
Qed.

Lemma forallb_hex_swapcase s : forallb is_hex (swapcase s) = forallb is_hex s.
Proof.
  induction s as [|c t IH]; [done|]. simpl. by rewrite is_hex_swap, IH.
Qed.

Lemma valid_swapcase s : valid (swapcase s) = valid s.
Proof.
  unfold valid. rewrite body_of_swapcase, forallb_hex_swapcase.
  unfold swapcase. by rewrite length_map.
Qed.

Lemma expected_swapcase body : expected (swapcase body) = expected body.
Proof.
  destruct body as [|c1 [|c2 [|c3 [|c4 [|c5 [|c6 [|c7 t]]]]]]]; try done;
    simpl; by rewrite !hex_pair_swap.
Qed.

Lemma chars_append (a b : string) :
  list_ascii_of_string (a ++ b) =
  (list_ascii_of_string a ++ list_ascii_of_string b)%list.
Proof. induction a as [|c a IH]; simpl; [done | by rewrite IH]. Qed.


Lemma parse_bad_length s :
  let body := body_of (strip s) in
  length body <> 3%nat -> length body <> 6%nat ->
  parse_hex_chars s = Raise ValueError.
Proof.
  intros body H3 H6. unfold parse_hex_chars.
  assert (E : (if startswith "#" (strip s) then drop 1 (strip s) else strip s)
              = body).
  { subst body. destruct (strip s) as [|c t]; [done|]. simpl.
    rewrite Ascii.eqb_sym. by destruct (Ascii.eqb c "#"). }
  rewrite E. cbv zeta.
  destruct (Nat.eqb_spec (length body) 3) as [?|_]; [done|].
  destruct (Nat.eqb_spec (length body) 6) as [?|_]; done.
Qed.

End HexFacts.

(** C7 (evaluation at the failing input): a string of six characters that
    are not all hex digits is accepted; each pair "-d" is read by [int] as a
    signed literal, and the result has negative channels. *)
Theorem parse_hex_color_accepts_signs :
  parse_hex_color "-1-2-3" = Ok (-1, -2, -3)
  /\ parse_hex_color "+1+2+3" = Ok (1, 2, 3)
  /\ parse_hex_color "# a b c" = Ok (10, 11, 12).
Proof. repeat split; reflexivity. Qed.

(** C10: surrounding whitespace is stripped before anything else, and the
    case of the hex digits does not matter: a valid color string [s] parses
    to a triple, and [u ++ s ++ v] for whitespace [u], [v] and the
    case-swapped [s] parse to the same triple. *)
Theorem parse_hex_color_strip_and_case (s u v : string) :
  ColorString.valid (list_ascii_of_string s) = true ->
  ColorString.whitespace (list_ascii_of_string u) = true ->
  ColorString.whitespace (list_ascii_of_string v) = true ->
  exists rgb,
    parse_hex_color s = Ok rgb
    /\ parse_hex_color (u ++ s ++ v) = Ok rgb
    /\ parse_hex_color (ColorString.swapcase_string s) = Ok rgb.
Proof.
  intros Hs Hu Hv. unfold parse_hex_color.
  destruct (HexFacts.parse_valid _ Hs) as (rgb & Hexp & Hparse).
  exists rgb. split; [done|]. split.
  - rewrite !HexFacts.chars_append. unfold parse_hex_chars.
    rewrite HexFacts.strip_whitespace by done. exact Hparse.
  - unfold ColorString.swapcase_string.
    rewrite list_ascii_of_string_of_list_ascii.
    assert (Hs' : ColorString.valid
                    (ColorString.swapcase (list_ascii_of_string s)) = true)
      by (by rewrite HexFacts.valid_swapcase).
    destruct (HexFacts.parse_valid _ Hs') as (rgb' & Hexp' & Hparse').
    rewrite HexFacts.body_of_swapcase, HexFacts.expected_swapcase in Hexp'.
    congruence.
Qed.

Lemma parse_hex_color_strip_and_case_witness :
  exists rgb,
    parse_hex_color "#f0A" = Ok rgb
    /\ parse_hex_color (" " ++ "#f0A" ++ "  ") = Ok rgb
    /\ parse_hex_color (ColorString.swapcase_string "#f0A") = Ok rgb.
Proof.
  apply (parse_hex_color_strip_and_case "#f0A" " " "  "); reflexivity.
Defined.

(** ** [detect_bg_color] *)

Module CounterFacts.
Import Counter Sampled.

Lemma incr_keys c cnt :
  keys (incr c cnt) = if decide (c ∈ keys cnt) then keys cnt else keys cnt ++ [c].
Proof.
  induction cnt as [|[k n] rest IH]; simpl; [done|].
  destruct (decide (k = c)) as [->|Hne]; simpl.
  - rewrite decide_True by apply list_elem_of_here. done.
  - rewrite IH. destruct (decide (c ∈ keys rest)) as [Hin|Hin].
    + rewrite decide_True by (by apply list_elem_of_further). done.
    + rewrite decide_False; [done|].
      intros [?|?]%elem_of_cons; congruence.
Qed.

Lemma incr_NoDup c cnt : NoDup (keys cnt) -> NoDup (keys (incr c cnt)).
Proof.
  intros H. rewrite incr_keys. destruct (decide (c ∈ keys cnt)); [done|].
  apply NoDup_app. repeat split; [done | | apply NoDup_singleton].
  intros x Hx ->%list_elem_of_singleton. done.
Qed.

Lemma elem_of_keys k n cnt : (k, n) ∈ cnt -> k ∈ keys cnt.
Proof. intros H. apply list_elem_of_fmap. by exists (k, n). Qed.

(** The entries after counting one more [c]. *)
Lemma elem_of_incr c cnt k n :
  NoDup (keys cnt) ->
  (k, n) ∈ incr c cnt <->
    (k <> c /\ (k, n) ∈ cnt)
    \/ (k = c /\ ((c, n - 1) ∈ cnt \/ (c ∉ keys cnt /\ n = 1))).
Proof.
  induction cnt as [|[k' n'] rest IH]; simpl; intros Hnd.
  - rewrite list_elem_of_singleton.
    pose proof (not_elem_of_nil (k, n)). pose proof (not_elem_of_nil (c, n - 1)).
    pose proof (not_elem_of_nil c). naive_solver.
  - apply NoDup_cons in Hnd as [Hk' Hnd]. specialize (IH Hnd).
    assert (Hfresh : forall m, (k', m) ∉ rest)
      by (intros m Hm; apply Hk'; by eapply elem_of_keys).
    destruct (decide (k' = c)) as [->|Hne].
    + rewrite !elem_of_cons. split.
      * intros [[= -> ->]|H].
        -- right. split; [done|]. left. left. f_equal. lia.
        -- left. split; [|by right]. intros ->. by apply (Hfresh n).
      * intros [[Hkc [[= ? ?]|H]]|[-> [[[= ?]|H]|[H _]]]].
        -- done.
        -- by right.
        -- left. f_equal. lia.
        -- by apply Hfresh in H.
        -- exfalso. apply H. by left.
    + rewrite !elem_of_cons, IH. clear IH. naive_solver.
Qed.

Lemma of_list_snoc l c : of_list (l ++ [c]) = incr c (of_list l).
Proof. unfold of_list. by rewrite fold_left_app. Qed.

Lemma occ_nonneg k l : 0 <= occ k l.
Proof. unfold occ. lia. Qed.

Lemma occ_cons k c l :
  occ k (c :: l) = (if decide (c = k) then 1 else 0) + occ k l.
Proof.
  unfold occ. rewrite filter_cons. destruct (decide (c = k)); simpl; lia.
Qed.

Lemma occ_snoc k l c :
  occ k (l ++ [c]) = occ k l + (if decide (c = k) then 1 else 0).
Proof.
  unfold occ. rewrite filter_app, length_app, filter_cons.
  destruct (decide (c = k)); simpl; lia.
Qed.

Lemma occ_elem_of k l : k ∈ l <-> 1 <= occ k l.
Proof.
  induction l as [|c l IH].
  - unfold occ. simpl. split; [by intros ?%elem_of_nil | lia].
  - rewrite occ_cons, elem_of_cons. pose proof (occ_nonneg k l).
    destruct (decide (c = k)); naive_solver lia.
Qed.

Lemma occ_not_elem_of k l : k ∉ l -> occ k l = 0.
Proof. rewrite occ_elem_of. pose proof (occ_nonneg k l). lia. Qed.

Lemma occ_Permutation k l l' : l ≡ₚ l' -> occ k l = occ k l'.
Proof. intros H. unfold occ. by rewrite H. Qed.

(** [Counter(colors)] holds each sampled color once, with its number of
    occurrences. *)
Lemma of_list_spec l :
  NoDup (keys (of_list l)) /\
  forall k n, (k, n) ∈ of_list l <-> k ∈ l /\ n = occ k l.
Proof.
  induction l as [|c l [Hnd IH]] using rev_ind.
  - split; [apply NoDup_nil_2|]. intros k n. cbn.
    split; [by intros ?%elem_of_nil | by intros [?%elem_of_nil _]].
  - rewrite of_list_snoc. split; [by apply incr_NoDup|].
    intros k n. rewrite elem_of_incr by done. rewrite !IH.
    rewrite occ_snoc, elem_of_app, list_elem_of_singleton.
    assert (Hkeys : c ∈ keys (of_list l) <-> c ∈ l).
    { split.
      - intros ([k' n'] & -> & Hin)%list_elem_of_fmap.
        apply IH in Hin as [Hin _]. exact Hin.
      - intros Hin. apply (elem_of_keys c (occ c l)), IH. done. }
    rewrite Hkeys.
    destruct (decide (c = k)) as [->|Hne].
    + destruct (decide (k ∈ l)) as [Hin|Hin].
      * naive_solver lia.
      * pose proof (occ_not_elem_of k l Hin). naive_solver lia.
    + naive_solver lia.
Qed.

(** *** Sorting by count *)

Lemma insert_desc_Permutation e l : insert_desc e l ≡ₚ e :: l.
Proof.
  induction l as [|e' l IH]; simpl; [done|].
  destruct (snd e' <? snd e); [done|].
  rewrite IH. apply Permutation_swap.
Qed.

Lemma most_common_Permutation_acc l acc :
  fold_left (fun sorted e => insert_desc e sorted) l acc ≡ₚ l ++ acc.
Proof.
  revert acc. induction l as [|e l IH]; intros acc; simpl; [done|].
  rewrite IH, insert_desc_Permutation. by rewrite Permutation_middle.
Qed.

Lemma most_common_Permutation cnt : most_common cnt ≡ₚ cnt.
Proof.
  unfold most_common. rewrite most_common_Permutation_acc.
  by rewrite app_nil_r.
Qed.

Lemma insert_desc_head_max e l : head_max l -> head_max (insert_desc e l).
Proof.
  destruct l as [|e' l]; simpl; [by constructor|].
  intros H. destruct (Z.ltb_spec (snd e') (snd e)); simpl.
  - constructor; [lia|]. eapply Forall_impl; [exact H|]. simpl. lia.
  - rewrite insert_desc_Permutation. constructor; [lia | done].
Qed.

Lemma most_common_head_max_acc l acc :
  head_max acc ->
  head_max (fold_left (fun sorted e => insert_desc e sorted) l acc).
Proof.
  revert acc. induction l as [|e l IH]; intros acc H; simpl; [done|].
  by apply IH, insert_desc_head_max.
Qed.

Lemma most_common_head_max cnt : head_max (most_common cnt).
Proof. by apply most_common_head_max_acc. Qed.

End CounterFacts.

Module DetectFacts.
Import Counter Sampled CounterFacts.

Lemma elem_of_modes c colors :
  c ∈ modes colors <->
  c ∈ colors /\ forall d, d ∈ colors -> occ d colors <= occ c colors.
Proof.
  unfold modes. rewrite list_elem_of_filter, elem_of_remove_dups, Forall_forall.
  tauto.
Qed.

Lemma NoDup_modes colors : NoDup (modes colors).
Proof. apply NoDup_filter, NoDup_remove_dups. Qed.

Lemma fold_left_add l acc : fold_left Z.add l acc = acc + foldr Z.add 0 l.
Proof.
  revert acc. induction l as [|x l IH]; intros acc; simpl; [lia|].
  rewrite IH. lia.
Qed.

Lemma sumZ_foldr l : sumZ l = foldr Z.add 0 l.
Proof. unfold sumZ. by rewrite fold_left_add. Qed.

Lemma sumZ_Permutation l l' : l ≡ₚ l' -> sumZ l = sumZ l'.
Proof.
  rewrite !sumZ_foldr.
  induction 1; simpl; lia.
Qed.

Lemma channel_average_Permutation cs cs' :
  cs ≡ₚ cs' -> channel_average cs = channel_average cs'.
Proof.
  intros H. unfold channel_average.
  rewrite (Permutation_length H).
  by rewrite (sumZ_Permutation _ _ (Permutation_map chan0 H)),
             (sumZ_Permutation _ _ (Permutation_map chan1 H)),
             (sumZ_Permutation _ _ (Permutation_map chan2 H)).
Qed.

(** The candidates of [pick_color] are the colors of the highest
    frequency, and the result is the only one, or their average. *)
Lemma pick_color_modes colors :
  colors <> [] ->
  exists cands, cands ≡ₚ modes colors /\
    pick_color colors =
      match cands with [c] => c | _ => channel_average cands end.
Proof.
  intros Hne. unfold pick_color.
  destruct (of_list_spec colors) as [Hnd Hcnt].
  pose proof (most_common_Permutation (of_list colors)) as Hperm.
  pose proof (most_common_head_max (of_list colors)) as Hmax.
  destruct (most_common (of_list colors)) as [|[k0 mx] rest] eqn:E.
  { destruct colors as [|c colors]; [done|].
    assert (Hin : (c, occ c (c :: colors)) ∈ of_list (c :: colors))
      by (apply Hcnt; split; [left | done]).
    rewrite <- Hperm in Hin. by apply elem_of_nil in Hin. }
  set (cnt := (k0, mx) :: rest) in *.
  exists (map fst (filter (fun cf => snd cf = mx) cnt)). split; [|done].
  assert (Hin : forall k n, (k, n) ∈ cnt <-> k ∈ colors /\ n = occ k colors).
  { intros k n. by rewrite Hperm. }
  assert (Hk0 : k0 ∈ colors /\ mx = occ k0 colors)
    by (apply Hin; left).
  assert (Hle : forall d, d ∈ colors -> occ d colors <= mx).
  { intros d Hd. assert (Hd' : (d, occ d colors) ∈ cnt) by (by apply Hin).
    apply elem_of_cons in Hd' as [[= _ <-]|Hd']; [lia|].
    simpl in Hmax. rewrite Forall_forall in Hmax.
    by apply Hmax in Hd'. }
  apply NoDup_Permutation.
  - eapply sublist_NoDup; [|apply fmap_sublist, sublist_filter].
    unfold keys in Hnd. by rewrite Hperm.
  - apply NoDup_modes.
  - intros c. rewrite elem_of_modes, list_elem_of_fmap. split.
    + intros ([k n] & -> & [Hn Hc]%list_elem_of_filter). simpl in *. subst n.
      apply Hin in Hc as [Hc Hmx]. split; [done|].
      intros d Hd. rewrite <- Hmx. by apply Hle.
    + intros [Hc Hall]. exists (c, mx). split; [done|].
      apply list_elem_of_filter. split; [done|]. apply Hin. split; [done|].
      destruct Hk0 as [Hk0 Hmx]. specialize (Hall k0 Hk0).
      specialize (Hle c Hc). lia.
Qed.

(** A color sampled strictly more often than every other is returned. *)
Lemma pick_color_majority colors c :
  c ∈ colors ->
  (forall d, d ∈ colors -> d <> c -> occ d colors < occ c colors) ->
  pick_color colors = c.
Proof.
  intros Hc Hstrict.
  destruct (pick_color_modes colors) as (cands & Hperm & ->).
  { intros ->. by apply elem_of_nil in Hc. }
  assert (Hm : modes colors ≡ₚ [c]).
  { apply NoDup_Permutation; [apply NoDup_modes | apply NoDup_singleton |].
    intros d. rewrite elem_of_modes, list_elem_of_singleton. split.
    - intros [Hd Hall]. destruct (decide (d = c)) as [|Hdc]; [done|].
      specialize (Hstrict d Hd Hdc). specialize (Hall c Hc). lia.
    - intros ->. split; [done|]. intros d Hd.
      destruct (decide (d = c)) as [->|Hdc]; [lia|].
      specialize (Hstrict d Hd Hdc). lia. }
  rewrite Hm in Hperm. apply Permutation_singleton_r in Hperm. by subst.
Qed.



End DetectFacts.

(** ** Pixel access *)

Lemma offset_in_range (im : Image) (x y : Z) :
  wf_image im -> 0 <= x < width im -> 0 <= y < height im ->
  (offset (width im) x y < length (im_data im))%nat.
Proof.
  intros (Hw & Hh & Hlen & _) Hx Hy. rewrite Hlen. unfold offset.
  apply Z2Nat.inj_lt; nia.
Qed.

Lemma getpixel_in_range (im : Image) (x y : Z) :
  wf_image im -> 0 <= x < width im -> 0 <= y < height im ->
  exists p, im_data im !! offset (width im) x y = Some p
            /\ getpixel im (x, y) = Ok p.
Proof.
  intros Hwf Hx Hy.
  destruct (lookup_lt_is_Some_2 _ _ (offset_in_range im x y Hwf Hx Hy))
    as [p Hp].
  exists p. split; [done|]. unfold getpixel, width, height in *.
  destruct (im_size im) as [w h]. simpl in *.
  rewrite (proj2 (Z.ltb_ge x 0)), (proj2 (Z.ltb_ge y 0)) by lia.
  rewrite (proj2 (Z.leb_le 0 x)), (proj2 (Z.leb_le 0 y)) by lia.
  rewrite (proj2 (Z.ltb_lt x w)), (proj2 (Z.ltb_lt y h)) by lia.
  simpl. by rewrite Hp.
Qed.


Lemma two_pairs_wf : wf_image (Sample.convert_rgba Sample.two_pairs).
Proof.
  unfold wf_image. cbn. repeat split; try lia;
    repeat constructor; unfold byte; lia.
Qed.


Example detect_two_pairs :
  detect_bg_color Sample.convert_rgba Sample.two_pairs = Ok (30, 40, 50).
Proof. reflexivity. Qed.

(** ** [make_bg_transparent] *)

Module LoopFacts.

Lemma mapM_app {A B} (f : A -> result B) (l1 l2 : list A) :
  mapM f (l1 ++ l2) =
  do x <- mapM f l1; do y <- mapM f l2; Ok (x ++ y).
Proof.
  induction l1 as [|a l1 IH]; simpl.
  - by destruct (mapM f l2).
  - destruct (f a); simpl; [|done]. rewrite IH.
    destruct (mapM f l1); simpl; [|done]. by destruct (mapM f l2).
Qed.

Lemma mapM_length {A B} (f : A -> result B) l l' :
  mapM f l = Ok l' -> length l' = length l.
Proof.
  revert l'. induction l as [|a l IH]; simpl; intros l'.
  - by intros [= <-].
  - destruct (f a); simpl; [|done].
    destruct (mapM f l) as [l''|]; simpl; [|done].
    intros [= <-]. simpl. by rewrite (IH l'').
Qed.

Lemma mapM_lookup {A B} (f : A -> result B) l l' i a :
  mapM f l = Ok l' -> l !! i = Some a ->
  exists b, l' !! i = Some b /\ f a = Ok b.
Proof.
  revert l' i. induction l as [|x l IH]; simpl; intros l' i; [done|].
  destruct (f x) as [y|] eqn:Ey; simpl; [|done].
  destruct (mapM f l) as [l''|]; simpl; [|done].
  intros [= <-]. destruct i as [|i]; simpl.
  - intros [= ->]. eauto.
  - by apply IH.
Qed.

Lemma mapM_total {A B} (f : A -> result B) l :
  Forall (fun a => exists b, f a = Ok b) l -> exists l', mapM f l = Ok l'.
Proof.
  induction 1 as [|a l [b Hb] _ [l' IH]]; simpl; [by eexists|].
  rewrite Hb, IH. simpl. by eexists.
Qed.

Lemma mapM_raise {A B} (f : A -> result B) l e :
  mapM f l = Raise e -> exists a, a ∈ l /\ f a = Raise e.
Proof.
  induction l as [|x l IH]; simpl; [done|].
  destruct (f x) as [y|e'] eqn:Ey; simpl.
  - destruct (mapM f l); simpl; [done|]. intros [= ->].
    destruct IH as (a & Ha & Hfa); [done|]. exists a. split; [by right|done].
  - intros [= ->]. exists x. split; [by left|done].
Qed.

End LoopFacts.

Section KeyerFacts.

Variable scaled_alpha : Z -> Z -> Z -> Z.
Variables (bg : RGB) (tol_sq w : Z).

Local Abbreviation key1 := (keyed_pixel scaled_alpha bg tol_sq).

(** The loop body replaces the pixel it visits by its keyed value. *)
Lemma key_pixel_keyed x y (px : list Pixel) p :
  px !! offset w x y = Some p ->
  key_pixel scaled_alpha bg tol_sq w x y px =
  do p' <- key1 p; Ok (<[offset w x y := p']> px).
Proof.
  intros Hp. unfold key_pixel, keyed_pixel.
  change (Z * Z * Z * Z)%type with Pixel. rewrite Hp.
  destruct p as [[[r g] b] a].
  destruct (a =? 0); cbn [bind]; [by rewrite list_insert_id by exact Hp|].
  destruct (color_distance_sq (r, g, b) bg <=? tol_sq); cbn [bind];
    [|by rewrite list_insert_id by exact Hp].
  by destruct (tol_sq =? 0).
Qed.

(** One row: the pixels [todo] at [(x0, y)], [(x0 + 1, y)], ... *)
Lemma key_row y (todo : list Pixel) : forall x0 pre post,
  0 <= x0 -> 0 <= y * w ->
  offset w x0 y = length pre ->
  for_each (fun x px => key_pixel scaled_alpha bg tol_sq w x y px)
           (seqZ x0 (Z.of_nat (length todo))) (pre ++ todo ++ post)
  = do mid <- mapM key1 todo; Ok (pre ++ mid ++ post).
Proof.
  induction todo as [|p todo IH]; intros x0 pre post Hx Hy Hoff; [done|].
  rewrite seqZ_cons by (simpl; lia). cbn [for_each mapM length].
  rewrite (key_pixel_keyed x0 y _ p)
    by (rewrite Hoff; by apply list_lookup_middle).
  destruct (key1 p) as [p'|]; simpl; [|done].
  replace (Z.pred (Z.of_nat (S (length todo)))) with (Z.of_nat (length todo))
    by lia.
  rewrite Hoff.
  replace (<[length pre:=p']> (pre ++ p :: todo ++ post))
    with ((pre ++ [p']) ++ todo ++ post).
  2:{ rewrite <- (Nat.add_0_r (length pre)), insert_app_r. simpl.
      by rewrite <- app_assoc. }
  rewrite IH.
  - destruct (mapM key1 todo); simpl; [|done]. by rewrite <- app_assoc.
  - lia.
  - done.
  - rewrite length_app. simpl. unfold offset in *. lia.
Qed.

(** [n] rows of [w] pixels each, from row [y0] on. *)
Lemma key_rows (n : nat) : forall (todo : list Pixel) y0 pre post,
  0 <= w -> 0 <= y0 ->
  length todo = (n * Z.to_nat w)%nat ->
  offset w 0 y0 = length pre ->
  for_each
    (fun y px =>
       for_each (fun x px => key_pixel scaled_alpha bg tol_sq w x y px)
                (range w) px)
    (seqZ y0 (Z.of_nat n)) (pre ++ todo ++ post)
  = do mid <- mapM key1 todo; Ok (pre ++ mid ++ post).
Proof.
  induction n as [|n IH]; intros todo y0 pre post Hw Hy Hlen Hoff.
  - destruct todo; [done | simpl in Hlen; lia].
  - rewrite seqZ_cons by lia. cbn [for_each].
    set (row := take (Z.to_nat w) todo).
    set (rest := drop (Z.to_nat w) todo).
    assert (Hrow : length row = Z.to_nat w)
      by (subst row; rewrite length_take; lia).
    assert (Htodo : todo = row ++ rest)
      by (subst row rest; by rewrite take_drop).
    pose proof (key_row y0 row 0 pre (rest ++ post)) as Hr.
    rewrite Hrow, Z2Nat.id in Hr by done.
    rewrite Htodo, <- (app_assoc row rest post). unfold range.
    rewrite Hr; [|lia|nia|done]. clear Hr.
    rewrite LoopFacts.mapM_app.
    destruct (mapM key1 row) as [row'|] eqn:Erow; cbn [bind]; [|done].
    replace (Z.pred (Z.of_nat (S n))) with (Z.of_nat n) by lia.
    rewrite (app_assoc pre row'), IH.
    + destruct (mapM key1 rest); cbn [bind]; [|done].
      by rewrite <- !app_assoc.
    + done.
    + lia.
    + subst rest. rewrite length_drop. lia.
    + rewrite length_app, (LoopFacts.mapM_length _ _ _ Erow), Hrow, <- Hoff.
      unfold offset. nia.
Qed.

End KeyerFacts.

(** The two loops key every pixel of the store, in place. *)
Lemma make_bg_transparent_keyed
  (convert_rgba : Image -> Image) (scaled_alpha : Z -> Z -> Z -> Z)
  (im : Image) (bg : RGB) (tolerance : Z) :
  let px := convert_rgba im in
  wf_image px ->
  make_bg_transparent convert_rgba scaled_alpha im bg tolerance =
  do data <- mapM (keyed_pixel scaled_alpha bg (tolerance * tolerance * 3))
                  (im_data px);
  Ok (mkImage (im_mode px) (im_size px) data).
Proof.
  intros px (Hw & Hh & Hlen & _). unfold make_bg_transparent. fold px.
  unfold width, height in *. destruct (im_size px) as [w h] eqn:Hsz.
  simpl in *.
  pose proof (key_rows scaled_alpha bg (tolerance * tolerance * 3) w
                (Z.to_nat h) (im_data px) 0 [] []) as Hrows.
  rewrite Z2Nat.id in Hrows by done. simpl in Hrows.
  rewrite app_nil_r in Hrows. unfold range in *.
  rewrite Hrows; [|done|done| |done].
  - destruct (mapM _ (im_data px)); simpl; [|done].
    by rewrite app_nil_r.
  - rewrite Hlen. rewrite Z2Nat.inj_mul by done. lia.
Qed.

(** *** One pixel *)

Lemma color_distance_sq_nonneg (a b : RGB) : 0 <= color_distance_sq a b.
Proof.
  destruct a as [[a0 a1] a2], b as [[b0 b1] b2]. unfold color_distance_sq.
  rewrite !Z.pow_2_r.
  pose proof (Z.square_nonneg (a0 - b0)).
  pose proof (Z.square_nonneg (a1 - b1)).
  pose proof (Z.square_nonneg (a2 - b2)). lia.
Qed.

Lemma color_distance_sq_same (a : RGB) : color_distance_sq a a = 0.
Proof.
  destruct a as [[a0 a1] a2]. unfold color_distance_sq.
  rewrite !Z.sub_diag. reflexivity.
Qed.

Section KeyedPixel.

Variable scaled_alpha : Z -> Z -> Z -> Z.
Variables (bg : RGB) (tol_sq : Z).

Local Abbreviation key1 := (keyed_pixel scaled_alpha bg tol_sq).

Lemma keyed_total p : tol_sq <> 0 -> exists p', key1 p = Ok p'.
Proof.
  intros Ht. destruct p as [[[r g] b] a]. unfold keyed_pixel.
  destruct (a =? 0); [by eexists|].
  destruct (_ <=? tol_sq); [|by eexists].
  rewrite (proj2 (Z.eqb_neq tol_sq 0)) by done. by eexists.
Qed.

Lemma keyed_rgb p p' : key1 p = Ok p' -> rgb_of p' = rgb_of p.
Proof.
  destruct p as [[[r g] b] a]. unfold keyed_pixel.
  destruct (a =? 0); [by intros [= <-]|].
  destruct (_ <=? tol_sq); [|by intros [= <-]].
  destruct (tol_sq =? 0); [done|]. by intros [= <-].
Qed.

Lemma keyed_transparent p : alpha_of p = 0 -> key1 p = Ok p.
Proof.
  destruct p as [[[r g] b] a]. simpl. intros ->. reflexivity.
Qed.

Lemma keyed_far p :
  tol_sq < color_distance_sq (rgb_of p) bg -> key1 p = Ok p.
Proof.
  destruct p as [[[r g] b] a]. simpl. intros Hfar.
  unfold keyed_pixel. destruct (a =? 0); [done|].
  by rewrite (proj2 (Z.leb_gt _ _) Hfar).
Qed.

Lemma keyed_alpha_le p p' :
  (forall a d, 0 < a <= 255 -> 0 <= d <= tol_sq ->
               scaled_alpha a d tol_sq <= a) ->
  0 < tol_sq -> byte_pixel p ->
  key1 p = Ok p' -> alpha_of p' <= alpha_of p.
Proof.
  intros Hle Ht. destruct p as [[[r g] b] a]. intros (_ & _ & _ & Ha).
  unfold byte in Ha. unfold keyed_pixel.
  destruct (Z.eqb_spec a 0); [intros [= <-]; simpl; lia|].
  destruct (Z.leb_spec (color_distance_sq (r, g, b) bg) tol_sq);
    [|intros [= <-]; simpl; lia].
  destruct (tol_sq =? 0); [done|]. intros [= <-]. simpl.
  apply Hle; [lia|].
  split; [apply color_distance_sq_nonneg | done].
Qed.

Lemma keyed_exact p p' :
  (forall a, 0 < a <= 255 -> scaled_alpha a 0 tol_sq = 0) ->
  0 < tol_sq -> byte_pixel p -> rgb_of p = bg ->
  key1 p = Ok p' -> alpha_of p' = 0.
Proof.
  intros Hzero Ht. destruct p as [[[r g] b] a]. intros (_ & _ & _ & Ha).
  unfold byte in Ha. simpl. intros <-. unfold keyed_pixel.
  rewrite color_distance_sq_same.
  destruct (Z.eqb_spec a 0) as [->|]; [by intros [= <-]|].
  rewrite (proj2 (Z.leb_le 0 tol_sq)) by lia.
  rewrite (proj2 (Z.eqb_neq tol_sq 0)) by lia.
  intros [= <-]. simpl. apply Hzero; lia.
Qed.

End KeyedPixel.

Lemma tol_sq_pos (tolerance : Z) : 0 < tolerance -> 0 < tolerance * tolerance * 3.
Proof. nia. Qed.

(** With a tolerance above 0 keying returns an image of the same mode and
    size, each pixel the keyed value of the pixel that was there. *)
Lemma make_bg_transparent_pixels
  (convert_rgba : Image -> Image) (scaled_alpha : Z -> Z -> Z -> Z)
  (im : Image) (bg : RGB) (tolerance : Z) :
  let px := convert_rgba im in
  wf_image px -> 0 < tolerance ->
  exists out,
    make_bg_transparent convert_rgba scaled_alpha im bg tolerance = Ok out
    /\ im_mode out = im_mode px
    /\ im_size out = im_size px
    /\ length (im_data out) = length (im_data px)
    /\ forall i p, im_data px !! i = Some p ->
         exists p', im_data out !! i = Some p'
           /\ keyed_pixel scaled_alpha bg (tolerance * tolerance * 3) p = Ok p'.
Proof.
  intros px Hwf Htol. pose proof (tol_sq_pos tolerance Htol) as Ht.
  rewrite make_bg_transparent_keyed by done. fold px.
  destruct (LoopFacts.mapM_total
              (keyed_pixel scaled_alpha bg (tolerance * tolerance * 3))
              (im_data px)) as [data Hdata].
  { apply Forall_forall. intros p _. apply keyed_total. lia. }
  rewrite Hdata. cbn [bind]. eexists. split; [done|]. cbn.
  repeat split.
  - by eapply LoopFacts.mapM_length.
  - intros i p Hp. by eapply LoopFacts.mapM_lookup.
Qed.

Module SampleFacts.

Lemma patch_wf : wf_image (Sample.convert_rgba Sample.patch).
Proof.
  unfold wf_image. cbn. repeat split; try lia;
    repeat constructor; unfold byte; lia.
Qed.

Lemma scaled_alpha_le a d t :
  0 < a <= 255 -> 0 <= d <= t -> 0 < t -> Sample.scaled_alpha a d t <= a.
Proof.
  intros Ha Hd Ht. unfold Sample.scaled_alpha.
  transitivity (Z.sqrt (a * a)); [|rewrite Z.sqrt_square; lia].
  apply Z.sqrt_le_mono, Z.div_le_upper_bound; [done|]. nia.
Qed.

Lemma scaled_alpha_zero a t :
  0 < a <= 255 -> 0 < t -> Sample.scaled_alpha a 0 t = 0.
Proof.
  intros _ _. unfold Sample.scaled_alpha. by rewrite Z.mul_0_r.
Qed.

End SampleFacts.

(** C2 (evaluation at the failing input): with tolerance 0 a visible pixel
    of exactly the background color makes the keyer raise
    [ZeroDivisionError], whatever the float arithmetic; an image without
    such a pixel is returned as it is. *)
Theorem make_bg_transparent_zero_tolerance :
  (forall scaled_alpha,
     make_bg_transparent Sample.convert_rgba scaled_alpha
       Sample.white_dot Sample.white 0 = Raise ZeroDivisionError)
  /\ (forall scaled_alpha,
        make_bg_transparent Sample.convert_rgba scaled_alpha
          Sample.red_dot Sample.white 0 = Ok Sample.red_dot).
Proof. split; intros scaled_alpha; reflexivity. Qed.

(** C3: with a tolerance above 0 keying never raises the alpha of a pixel,
    and a pixel of alpha 0 is left as it is.  The float expression
    [int(a * ratio)] is assumed not to exceed [a] for the ratio of a
    distance inside the tolerance ([alpha_expr_bounds] proves this of the
    binary64 arithmetic). *)
Theorem make_bg_transparent_alpha_decreases
  (convert_rgba : Image -> Image) (scaled_alpha : Z -> Z -> Z -> Z)
  (im : Image) (bg : RGB) (tolerance : Z) :
  let px := convert_rgba im in
  (forall a d, 0 < a <= 255 -> 0 <= d <= tolerance * tolerance * 3 ->
               scaled_alpha a d (tolerance * tolerance * 3) <= a) ->
  wf_image px -> 0 < tolerance ->
  exists out,
    make_bg_transparent convert_rgba scaled_alpha im bg tolerance = Ok out
    /\ forall i p, im_data px !! i = Some p ->
         exists p', im_data out !! i = Some p'
           /\ alpha_of p' <= alpha_of p
           /\ (alpha_of p = 0 -> p' = p).
Proof.
  intros px Hle Hwf Htol.
  destruct (make_bg_transparent_pixels convert_rgba scaled_alpha im bg
              tolerance Hwf Htol) as (out & Hout & _ & _ & _ & Hpix).
  exists out. split; [done|]. intros i p Hp.
  destruct (Hpix i p Hp) as (p' & Hp' & Hkey). exists p'.
  split; [done|]. split.
  - eapply keyed_alpha_le; [exact Hle | by apply tol_sq_pos | | exact Hkey].
    destruct Hwf as (_ & _ & _ & Hbytes). rewrite Forall_forall in Hbytes.
    apply Hbytes. by eapply list_elem_of_lookup_2.
  - intros Ha. rewrite keyed_transparent in Hkey by done. congruence.
Qed.

Lemma make_bg_transparent_alpha_decreases_witness :
  exists out,
    make_bg_transparent Sample.convert_rgba Sample.scaled_alpha
      Sample.patch Sample.white 10 = Ok out
    /\ forall i p, im_data (Sample.convert_rgba Sample.patch) !! i = Some p ->
         exists p', im_data out !! i = Some p'
           /\ alpha_of p' <= alpha_of p
           /\ (alpha_of p = 0 -> p' = p).
Proof.
  apply (make_bg_transparent_alpha_decreases
           Sample.convert_rgba Sample.scaled_alpha Sample.patch Sample.white 10).
  - intros a d Ha Hd. apply SampleFacts.scaled_alpha_le; lia.
  - exact SampleFacts.patch_wf.
  - lia.
Defined.

(** C4: with a tolerance above 0 a pixel of exactly the background color
    ends with alpha 0, and a pixel whose squared distance from the
    background exceeds [tolerance * tolerance * 3] is left as it is.  The
    float expression is assumed to give 0 for a distance of 0
    ([alpha_expr_bounds] proves this of the binary64 arithmetic). *)
Theorem make_bg_transparent_exact_and_far
  (convert_rgba : Image -> Image) (scaled_alpha : Z -> Z -> Z -> Z)
  (im : Image) (bg : RGB) (tolerance : Z) :
  let px := convert_rgba im in
  (forall a, 0 < a <= 255 ->
             scaled_alpha a 0 (tolerance * tolerance * 3) = 0) ->
  wf_image px -> 0 < tolerance ->
  exists out,
    make_bg_transparent convert_rgba scaled_alpha im bg tolerance = Ok out
    /\ forall i p, im_data px !! i = Some p ->
         exists p', im_data out !! i = Some p'
           /\ (rgb_of p = bg -> alpha_of p' = 0)
           /\ (tolerance * tolerance * 3 < color_distance_sq (rgb_of p) bg ->
               p' = p).
Proof.
  intros px Hzero Hwf Htol.
  destruct (make_bg_transparent_pixels convert_rgba scaled_alpha im bg
              tolerance Hwf Htol) as (out & Hout & _ & _ & _ & Hpix).
  exists out. split; [done|]. intros i p Hp.
  destruct (Hpix i p Hp) as (p' & Hp' & Hkey). exists p'.
  split; [done|]. split.
  - intros Hbg.
    eapply keyed_exact; [exact Hzero | by apply tol_sq_pos | | exact Hbg
                        | exact Hkey].
    destruct Hwf as (_ & _ & _ & Hbytes). rewrite Forall_forall in Hbytes.
    apply Hbytes. by eapply list_elem_of_lookup_2.
  - intros Hfar. rewrite keyed_far in Hkey by done. congruence.
Qed.

Lemma make_bg_transparent_exact_and_far_witness :
  exists out,
    make_bg_transparent Sample.convert_rgba Sample.scaled_alpha
      Sample.patch Sample.white 10 = Ok out
    /\ forall i p, im_data (Sample.convert_rgba Sample.patch) !! i = Some p ->
         exists p', im_data out !! i = Some p'
           /\ (rgb_of p = Sample.white -> alpha_of p' = 0)
           /\ (10 * 10 * 3 < color_distance_sq (rgb_of p) Sample.white ->
               p' = p).
Proof.
  apply (make_bg_transparent_exact_and_far
           Sample.convert_rgba Sample.scaled_alpha Sample.patch Sample.white 10).
  - intros a Ha. apply SampleFacts.scaled_alpha_zero; lia.
  - exact SampleFacts.patch_wf.
  - lia.
Defined.

(** C9: with a tolerance above 0 keying changes at most the alpha channel:
    the result has the width and height of the RGBA copy, and every pixel
    keeps its red, green and blue values. *)
Theorem make_bg_transparent_frame
  (convert_rgba : Image -> Image) (scaled_alpha : Z -> Z -> Z -> Z)
  (im : Image) (bg : RGB) (tolerance : Z) :
  let px := convert_rgba im in
  wf_image px -> 0 < tolerance ->
  exists out,
    make_bg_transparent convert_rgba scaled_alpha im bg tolerance = Ok out
    /\ width out = width px
    /\ height out = height px
    /\ length (im_data out) = length (im_data px)
    /\ forall i p, im_data px !! i = Some p ->
         exists p', im_data out !! i = Some p' /\ rgb_of p' = rgb_of p.
Proof.
  intros px Hwf Htol.
  destruct (make_bg_transparent_pixels convert_rgba scaled_alpha im bg
              tolerance Hwf Htol) as (out & Hout & _ & Hsize & Hlen & Hpix).
  exists out. unfold width, height. rewrite Hsize.
  repeat (split; [done|]). intros i p Hp.
  destruct (Hpix i p Hp) as (p' & Hp' & Hkey). exists p'.
  split; [done|]. by eapply keyed_rgb.
Qed.

Lemma make_bg_transparent_frame_witness :
  exists out,
    make_bg_transparent Sample.convert_rgba Sample.scaled_alpha
      Sample.patch Sample.white 10 = Ok out
    /\ width out = width (Sample.convert_rgba Sample.patch)
    /\ height out = height (Sample.convert_rgba Sample.patch)
    /\ length (im_data out) = length (im_data (Sample.convert_rgba Sample.patch))
    /\ forall i p, im_data (Sample.convert_rgba Sample.patch) !! i = Some p ->
         exists p', im_data out !! i = Some p' /\ rgb_of p' = rgb_of p.
Proof.
  apply (make_bg_transparent_frame
           Sample.convert_rgba Sample.scaled_alpha Sample.patch Sample.white 10).
  - exact SampleFacts.patch_wf.
  - lia.
Defined.

(** ** Binary64 arithmetic stays finite on image sizes *)

Module F64Facts.
Import F64.

Lemma digits2_size p : digits2_pos p = Pos.size p.
Proof. induction p; simpl; congruence. Qed.

Lemma Zdigits2_log2 m : 0 < m -> Zdigits2 m = Z.log2 m + 1.
Proof.
  destruct m as [|p|p]; try lia. intros _. simpl.
  rewrite digits2_size. destruct p; simpl; lia.
Qed.

Lemma Zdigits2_nonneg m : 0 <= Zdigits2 m.
Proof. destruct m; simpl; lia. Qed.

Lemma Zdigits2_pos m : 0 < m -> 1 <= Zdigits2 m.
Proof. destruct m; simpl; lia. Qed.

Lemma Zdigits2_le a b : 0 <= a <= b -> Zdigits2 a <= Zdigits2 b.
Proof.
  intros [Ha Hab]. destruct (Z.eq_dec a 0) as [->|Hne].
  - apply Zdigits2_nonneg.
  - rewrite !Zdigits2_log2 by lia.
    pose proof (Z.log2_le_mono a b Hab). lia.
Qed.

Lemma Zdigits2_succ a : 0 <= a -> Zdigits2 (a + 1) <= Zdigits2 a + 1.
Proof.
  intros Ha. destruct (Z.eq_dec a 0) as [->|Hne]; [simpl; lia|].
  rewrite !Zdigits2_log2 by lia.
  pose proof (Z.log2_succ_le a). unfold Z.succ in *. lia.
Qed.

Lemma Zdigits2_mul a b :
  0 < a -> 0 < b -> Zdigits2 (a * b) <= Zdigits2 a + Zdigits2 b.
Proof.
  intros Ha Hb. rewrite !Zdigits2_log2 by nia.
  pose proof (Z.log2_mul_above a b). lia.
Qed.

Lemma Zdigits2_shiftl a n :
  0 < a -> 0 <= n -> Zdigits2 (Z.shiftl a n) = Zdigits2 a + n.
Proof.
  intros Ha Hn.
  assert (0 < Z.shiftl a n)
    by (rewrite Z.shiftl_mul_pow2 by done;
        pose proof (Z.pow_pos_nonneg 2 n); nia).
  rewrite !Zdigits2_log2 by done. rewrite Z.log2_shiftl by done. lia.
Qed.

(** *** Shifting right *)

Lemma shr_1_digits mrs :
  0 <= shr_m mrs ->
  0 <= shr_m (shr_1 mrs)
  /\ Zdigits2 (shr_m (shr_1 mrs)) = Z.max 0 (Zdigits2 (shr_m mrs) - 1).
Proof.
  destruct mrs as [m r s]. simpl. intros Hm.
  destruct m as [|[p|p|]|p]; simpl; lia.
Qed.

Lemma iter_shr_digits p : forall mrs,
  0 <= shr_m mrs ->
  0 <= shr_m (SpecFloat.iter_pos shr_1 p mrs)
  /\ Zdigits2 (shr_m (SpecFloat.iter_pos shr_1 p mrs))
     = Z.max 0 (Zdigits2 (shr_m mrs) - Z.pos p).
Proof.
  induction p as [p IH|p IH|]; intros mrs Hm; simpl.
  - destruct (shr_1_digits mrs Hm) as [H1 D1].
    destruct (IH _ H1) as [H2 D2]. destruct (IH _ H2) as [H3 D3].
    split; [done|]. rewrite D3, D2, D1. lia.
  - destruct (IH _ Hm) as [H2 D2]. destruct (IH _ H2) as [H3 D3].
    split; [done|]. rewrite D3, D2. lia.
  - apply shr_1_digits, Hm.
Qed.

Lemma shr_fexp_spec m e l mrs e' :
  0 <= m ->
  shr_fexp prec emax m e l = (mrs, e') ->
  e' = Z.max e (fexp prec emax (Zdigits2 m + e))
  /\ 0 <= shr_m mrs
  /\ Zdigits2 (shr_m mrs) = Z.max 0 (Zdigits2 m - (e' - e)).
Proof.
  intros Hm. unfold shr_fexp, shr.
  assert (Hrec : shr_m (shr_record_of_loc m l) = m)
    by (by destruct l as [|[]]).
  destruct (fexp prec emax (Zdigits2 m + e) - e) as [|p|p] eqn:E.
  - intros [= <- <-]. rewrite Hrec. pose proof (Zdigits2_nonneg m). lia.
  - intros [= <- <-].
    destruct (iter_shr_digits p (shr_record_of_loc m l)) as [H D];
      [by rewrite Hrec|].
    rewrite Hrec in D. split; [lia|]. split; [done|]. rewrite D. lia.
  - intros [= <- <-]. rewrite Hrec. pose proof (Zdigits2_nonneg m). lia.
Qed.

Lemma mag_le_mono k k' x : k <= k' -> mag_le k x -> mag_le k' x.
Proof. destruct x; simpl; lia. Qed.

Lemma round_nearest_even_bounds m l :
  0 <= m ->
  0 <= round_nearest_even m l /\ round_nearest_even m l <= m + 1.
Proof.
  intros Hm. unfold round_nearest_even.
  destruct l as [|[]]; try destruct (Z.even m); lia.
Qed.

(** Rounding a value below [2^k] gives zero or a finite float below
    [2^(k+1)]: no overflow. *)
Lemma binary_round_aux_mag s mx ex lx k :
  0 <= mx -> Zdigits2 mx + ex <= k -> -1074 <= k <= 970 ->
  mag_le (k + 1) (binary_round_aux prec emax s mx ex lx).
Proof.
  intros Hmx Hk Hrange. unfold binary_round_aux.
  destruct (shr_fexp prec emax mx ex lx) as [mrs1 e1] eqn:E1.
  destruct (shr_fexp_spec _ _ _ _ _ Hmx E1) as (He1 & Hm1 & Hd1).
  set (m2 := round_nearest_even (shr_m mrs1) (loc_of_shr_record mrs1)) in *.
  destruct (round_nearest_even_bounds (shr_m mrs1)
              (loc_of_shr_record mrs1) Hm1) as [Hm2 Hm2'].
  fold m2 in Hm2, Hm2'.
  destruct (shr_fexp prec emax m2 e1 loc_Exact) as [mrs3 e3] eqn:E3.
  destruct (shr_fexp_spec _ _ _ _ _ Hm2 E3) as (He3 & Hm3 & Hd3).
  assert (Hd2 : Zdigits2 m2 <= Zdigits2 (shr_m mrs1) + 1).
  { etransitivity; [apply (Zdigits2_le m2 (shr_m mrs1 + 1)); lia|].
    by apply Zdigits2_succ. }
  pose proof (Zdigits2_nonneg mx) as Hdx.
  unfold fexp, emin, prec, emax in *.
  destruct (shr_m mrs3) as [|m|m] eqn:Em3; simpl; [done| |lia].
  simpl in Hd3.
  assert (Hmag : Z.pos (digits2_pos m) + e3 <= k + 1) by lia.
  destruct (Z.leb_spec e3 (1024 - 53)); simpl; lia.
Qed.


Lemma binary_round_aux_exact s m e :
  fexp prec emax (Z.pos (digits2_pos m) + e) <= e -> e <= 971 ->
  binary_round_aux prec emax s (Z.pos m) e loc_Exact = S754_finite s m e.
Proof.
  intros Hcanon He. unfold binary_round_aux, shr_fexp. cbn [Zdigits2].
  assert (Hshr : forall mrs,
    shr mrs e (fexp prec emax (Z.pos (digits2_pos m) + e) - e) = (mrs, e)).
  { intros mrs. unfold shr.
    destruct (fexp prec emax (Z.pos (digits2_pos m) + e) - e) eqn:E;
      [done | lia | done]. }
  rewrite Hshr. cbn. rewrite Hshr. cbn.
  unfold emax, prec. by rewrite (proj2 (Z.leb_le e (1024 - 53))) by lia.
Qed.

Lemma digits2_iter_xO p d :
  digits2_pos (Pos.iter xO p d) = (digits2_pos p + d)%positive.
Proof.
  induction d as [|d IH] using Pos.peano_ind.
  - simpl. lia.
  - rewrite Pos.iter_succ. simpl. rewrite IH. lia.
Qed.

(** An image size as a float: finite, not zero, below [2^31]. *)
Lemma of_int_size n :
  1 <= n < 2 ^ 31 ->
  exists m e, of_int n = S754_finite false m e
              /\ -52 <= e /\ Z.pos (digits2_pos m) + e <= 31.
Proof.
  intros Hn. destruct n as [|p|p]; try lia.
  assert (Hd : 1 <= Z.pos (digits2_pos p) <= 31).
  { change (Z.pos (digits2_pos p)) with (Zdigits2 (Z.pos p)).
    rewrite Zdigits2_log2 by lia.
    pose proof (Z.log2_nonneg (Z.pos p)).
    pose proof (proj1 (Z.log2_lt_pow2 (Z.pos p) 31 ltac:(lia)) ltac:(lia)).
    lia. }
  unfold of_int, binary_normalize, binary_round, shl_align.
  unfold fexp, emin, prec, emax.
  destruct (Z.max (Z.pos (digits2_pos p) + 0 - 53) (3 - 1024 - 53) - 0)
    as [|d|d] eqn:E; try lia.
  exists (Pos.iter xO p d), (Z.max (Z.pos (digits2_pos p) + 0 - 53) (3 - 1024 - 53)).
  split; [|rewrite digits2_iter_xO; lia].
  apply binary_round_aux_exact; [|lia].
  rewrite digits2_iter_xO. unfold fexp, emin, prec, emax. lia.
Qed.

Lemma div_mag s1 m1 e1 s2 m2 e2 M lo :
  Z.pos (digits2_pos m1) + e1 <= M -> lo <= e2 ->
  -1074 <= M - lo <= 970 ->
  mag_le (M - lo + 1)
         (div (S754_finite s1 m1 e1) (S754_finite s2 m2 e2)).
Proof.
  intros HM Hlo Hrange. unfold div, SFdiv, SFdiv_core_binary.
  set (e' := Z.min _ _).
  assert (He' : e' <= e1 - e2) by (subst e'; lia).
  set (m' := match e1 - e2 - e' with
             | 0 => Z.pos m1
             | Z.pos _ => Z.shiftl (Z.pos m1) (e1 - e2 - e')
             | Z.neg _ => 0
             end).
  assert (Hm' : 0 <= m'
                /\ Zdigits2 m' <= Z.pos (digits2_pos m1) + (e1 - e2 - e')).
  { subst m'. destruct (e1 - e2 - e') as [|q|q] eqn:E; try lia.
    - simpl. lia.
    - rewrite Zdigits2_shiftl by lia. simpl.
      split; [|lia]. apply Z.shiftl_nonneg. lia. }
  destruct Hm' as [Hm0 Hmd].
  destruct (Z.div_eucl m' (Z.pos m2)) as [q r] eqn:Eq.
  assert (Hq : q = m' / Z.pos m2) by (unfold Z.div; by rewrite Eq).
  assert (Hq0 : 0 <= q <= m').
  { rewrite Hq. split; [apply Z.div_pos; lia|].
    apply Z.div_le_upper_bound; [lia|]. nia. }
  apply binary_round_aux_mag; [lia| |done].
  pose proof (Zdigits2_le q m' Hq0). lia.
Qed.

Lemma mul_mag a b x y :
  mag_le a x -> mag_le b y -> -1074 <= a + b <= 970 ->
  mag_le (a + b + 1) (mul x y).
Proof.
  intros Hx Hy Hrange.
  destruct x as [sx|sx| |sx mx ex], y as [sy|sy| |sy my ey];
    simpl in *; try done.
  apply binary_round_aux_mag; [lia| |done].
  pose proof (Zdigits2_mul (Z.pos mx) (Z.pos my) ltac:(lia) ltac:(lia)).
  simpl in *. lia.
Qed.

Lemma min_mag k a b : mag_le k a -> mag_le k b -> mag_le k (min a b).
Proof. intros Ha Hb. unfold min. by destruct (ltb b a). Qed.

Lemma round_mag k x : mag_le k x -> exists z, round x = Ok z.
Proof. destruct x; simpl; try done; intros _; by eexists. Qed.

Lemma true_div_size a b :
  1 <= a < 2 ^ 31 -> 1 <= b < 2 ^ 31 ->
  exists q, true_div a b = Ok q /\ mag_le 84 q.
Proof.
  intros Ha Hb. unfold true_div.
  rewrite (proj2 (Z.eqb_neq b 0)) by lia.
  destruct (of_int_size a Ha) as (m1 & e1 & -> & _ & H1).
  destruct (of_int_size b Hb) as (m2 & e2 & -> & H2 & _).
  eexists. split; [done|].
  apply (div_mag false m1 e1 false m2 e2 31 (-52)); lia.
Qed.

End F64Facts.

(** The sizes computed by [resize_and_pad] exist for every image size:
    no step of the float arithmetic raises. *)
Lemma layout_size (target_w target_h w h : Z) :
  1 <= target_w < 2 ^ 31 -> 1 <= target_h < 2 ^ 31 ->
  1 <= w < 2 ^ 31 -> 1 <= h < 2 ^ 31 ->
  exists sw sh rw rh,
    F64.true_div target_w w = Ok sw
    /\ F64.true_div target_h h = Ok sh
    /\ F64.round (F64.mul (F64.of_int w) (F64.min sw sh)) = Ok rw
    /\ F64.round (F64.mul (F64.of_int h) (F64.min sw sh)) = Ok rh
    /\ layout target_w target_h w h =
       Ok ((Z.max 1 rw, Z.max 1 rh),
           ((target_w - Z.max 1 rw) / 2, (target_h - Z.max 1 rh) / 2)).
Proof.
  intros Htw Hth Hw Hh.
  destruct (F64Facts.true_div_size target_w w Htw Hw) as (sw & Esw & Msw).
  destruct (F64Facts.true_div_size target_h h Hth Hh) as (sh & Esh & Msh).
  pose proof (F64Facts.min_mag 84 sw sh Msw Msh) as Mscale.
  assert (Hint : forall n, 1 <= n < 2 ^ 31 -> F64.mag_le 31 (F64.of_int n)).
  { intros n Hn. destruct (F64Facts.of_int_size n Hn) as (m & e & -> & _ & H).
    exact H. }
  destruct (F64Facts.round_mag _ _
              (F64Facts.mul_mag 31 84 _ _ (Hint w Hw) Mscale ltac:(lia)))
    as [rw Erw].
  destruct (F64Facts.round_mag _ _
              (F64Facts.mul_mag 31 84 _ _ (Hint h Hh) Mscale ltac:(lia)))
    as [rh Erh].
  exists sw, sh, rw, rh. repeat (split; [done|]).
  unfold layout. rewrite Esw, Esh. cbn [bind]. rewrite Erw, Erh. reflexivity.
Qed.

(** ** The alpha expression in binary64 arithmetic *)

Module AlphaFacts.
Import F64 F64Facts.

Lemma pos_iter_xO p d : Z.pos (Pos.iter xO p d) = Z.pos p * 2 ^ Z.pos d.
Proof.
  induction d as [|d IH] using Pos.peano_ind.
  - simpl. lia.
  - rewrite Pos.iter_succ, Pos2Z.inj_xO, IH, Pos2Z.inj_succ.
    rewrite Z.pow_succ_r by lia. lia.
Qed.

(** An int below [2^53] is converted exactly. *)
Lemma of_int_exact n :
  1 <= n < 2 ^ 53 ->
  exists m e, of_int n = S754_finite false m e
              /\ e <= 0 /\ Z.pos m = n * 2 ^ (- e)
              /\ Z.pos (digits2_pos m) + e = Zdigits2 n.
Proof.
  intros Hn. destruct n as [|p|p]; try lia.
  assert (Hd : 1 <= Z.pos (digits2_pos p) <= 53).
  { change (Z.pos (digits2_pos p)) with (Zdigits2 (Z.pos p)).
    rewrite Zdigits2_log2 by lia.
    pose proof (Z.log2_nonneg (Z.pos p)).
    pose proof (proj1 (Z.log2_lt_pow2 (Z.pos p) 53 ltac:(lia)) ltac:(lia)).
    lia. }
  unfold of_int, binary_normalize, binary_round, shl_align.
  unfold fexp, emin, prec, emax.
  destruct (Z.max (Z.pos (digits2_pos p) + 0 - 53) (3 - 1024 - 53) - 0)
    as [|d|d] eqn:E; try lia.
  - exists p, 0. split; [|simpl; lia].
    apply binary_round_aux_exact; [|lia].
    unfold fexp, emin, prec, emax. lia.
  - exists (Pos.iter xO p d),
      (Z.max (Z.pos (digits2_pos p) + 0 - 53) (3 - 1024 - 53)).
    split; [|split; [lia|split]].
    + apply binary_round_aux_exact; [|lia].
      rewrite digits2_iter_xO. unfold fexp, emin, prec, emax. lia.
    + rewrite pos_iter_xO. f_equal. f_equal. lia.
    + rewrite digits2_iter_xO. simpl. lia.
Qed.

(** *** What a right shift keeps *)

Lemma shr_1_value mrs :
  0 <= shr_m mrs -> shr_m (shr_1 mrs) = shr_m mrs / 2.
Proof.
  destruct mrs as [m r s]. cbn [shr_m]. intros Hm.
  destruct m as [|[p|p|]|p]; cbn [shr_1 shr_m]; try lia.
  - reflexivity.
  - rewrite (Pos2Z.inj_xI p). apply Z.div_unique with 1; lia.
  - rewrite (Pos2Z.inj_xO p). apply Z.div_unique with 0; lia.
  - reflexivity.
Qed.

Lemma pow2_xO p : 2 ^ Z.pos p~0 = 2 ^ Z.pos p * 2 ^ Z.pos p.
Proof.
  rewrite (Pos2Z.inj_xO p).
  replace (2 * Z.pos p) with (Z.pos p + Z.pos p) by lia.
  apply Z.pow_add_r; lia.
Qed.

Lemma pow2_xI p : 2 ^ Z.pos p~1 = 2 * (2 ^ Z.pos p * 2 ^ Z.pos p).
Proof.
  rewrite (Pos2Z.inj_xI p).
  replace (2 * Z.pos p + 1) with (1 + (Z.pos p + Z.pos p)) by lia.
  rewrite !Z.pow_add_r by lia. reflexivity.
Qed.

Lemma iter_shr_value p : forall mrs,
  0 <= shr_m mrs ->
  shr_m (SpecFloat.iter_pos shr_1 p mrs) = shr_m mrs / 2 ^ Z.pos p.
Proof.
  induction p as [p IH|p IH|]; intros mrs Hm; simpl SpecFloat.iter_pos.
  - destruct (shr_1_digits mrs Hm) as [H1 _].
    destruct (iter_shr_digits p _ H1) as [H2 _].
    rewrite IH, IH, shr_1_value by done.
    pose proof (Z.pow_pos_nonneg 2 (Z.pos p) ltac:(lia) ltac:(lia)).
    rewrite !Z.div_div by nia. by rewrite pow2_xI.
  - destruct (iter_shr_digits p _ Hm) as [H2 _].
    rewrite IH, IH by done.
    pose proof (Z.pow_pos_nonneg 2 (Z.pos p) ltac:(lia) ltac:(lia)).
    rewrite !Z.div_div by nia. by rewrite pow2_xO.
  - rewrite shr_1_value by done. reflexivity.
Qed.

Lemma shr_1_exact mrs :
  exact mrs -> 0 <= shr_m mrs -> shr_m mrs mod 2 = 0 -> exact (shr_1 mrs).
Proof.
  destruct mrs as [m r s]. unfold exact. simpl. intros [-> ->] Hm Hev.
  destruct m as [|[p|p|]|p]; simpl; try done; try lia.
  rewrite Pos2Z.inj_xI in Hev.
  rewrite Z.add_comm, Z.mul_comm, Z.mod_add in Hev by lia. done.
Qed.

Lemma iter_shr_exact p : forall mrs,
  exact mrs -> 0 <= shr_m mrs -> shr_m mrs mod 2 ^ Z.pos p = 0 ->
  exact (SpecFloat.iter_pos shr_1 p mrs).
Proof.
  assert (Hsplit : forall m a b, 0 < a -> 0 < b -> 0 <= m ->
            m mod (a * b) = 0 -> m mod a = 0 /\ (m / a) mod b = 0).
  { intros m a b Ha Hb Hm Hmod.
    apply Z.mod_divide in Hmod; [|lia]. destruct Hmod as [c ->].
    split.
    - apply Z.mod_divide; [lia|]. exists (c * b). lia.
    - replace (c * (a * b)) with (c * b * a) by lia.
      rewrite Z.div_mul by lia. apply Z.mod_divide; [lia|]. by exists c. }
  induction p as [p IH|p IH|]; intros mrs Hex Hm Hmod; simpl SpecFloat.iter_pos.
  - rewrite pow2_xI in Hmod.
    pose proof (Z.pow_pos_nonneg 2 (Z.pos p) ltac:(lia) ltac:(lia)) as Hpow.
    assert (Hpow2 : 0 < 2 ^ Z.pos p * 2 ^ Z.pos p) by nia.
    destruct (Hsplit (shr_m mrs) 2 (2 ^ Z.pos p * 2 ^ Z.pos p)
                ltac:(lia) Hpow2 Hm Hmod) as [H2 Hrest].
    destruct (shr_1_digits mrs Hm) as [H1 _].
    pose proof (shr_1_exact mrs Hex Hm H2) as Hex1.
    rewrite <- shr_1_value in Hrest by done.
    destruct (Hsplit _ _ _ Hpow Hpow H1 Hrest) as [Ha Hb].
    destruct (iter_shr_digits p _ H1) as [H3 _].
    rewrite <- (iter_shr_value p) in Hb by done.
    apply IH; [apply IH; done | done | done].
  - rewrite pow2_xO in Hmod.
    pose proof (Z.pow_pos_nonneg 2 (Z.pos p) ltac:(lia) ltac:(lia)) as Hpow.
    destruct (Hsplit _ _ _ Hpow Hpow Hm Hmod) as [Ha Hb].
    destruct (iter_shr_digits p _ Hm) as [H3 _].
    rewrite <- (iter_shr_value p) in Hb by done.
    apply IH; [apply IH; done | done | done].
  - apply shr_1_exact; done.
Qed.


Lemma loc_of_record_of_loc m l :
  loc_of_shr_record (shr_record_of_loc m l) = l.
Proof. by destruct l as [|[]]. Qed.

Lemma exact_loc mrs : exact mrs -> loc_of_shr_record mrs = loc_Exact.
Proof. destruct mrs as [m r s]. unfold exact. simpl. by intros [-> ->]. Qed.

Lemma shr_fexp_value m e l mrs e' :
  0 <= m ->
  shr_fexp prec emax m e l = (mrs, e') ->
  0 <= e' - e
  /\ shr_m mrs = m / 2 ^ (e' - e)
  /\ (l = loc_Exact -> m mod 2 ^ (e' - e) = 0 ->
      loc_of_shr_record mrs = loc_Exact).
Proof.
  intros Hm. unfold shr_fexp, shr.
  assert (Hrec : shr_m (shr_record_of_loc m l) = m)
    by (by destruct l as [|[]]).
  destruct (fexp prec emax (Zdigits2 m + e) - e) as [|p|p] eqn:E.
  - intros [= <- <-]. rewrite Z.sub_diag, Hrec, Z.div_1_r.
    split; [lia|]. split; [done|]. intros -> _. reflexivity.
  - intros [= <- <-]. replace (e + Z.pos p - e) with (Z.pos p) by lia.
    split; [lia|]. split.
    + rewrite iter_shr_value by (by rewrite Hrec). by rewrite Hrec.
    + intros -> Hmod. apply exact_loc, iter_shr_exact; [done | done | done].
  - intros [= <- <-]. rewrite Z.sub_diag, Hrec, Z.div_1_r.
    split; [lia|]. split; [done|]. intros -> _. reflexivity.
Qed.

Lemma Zdigits2_lt_pow2 m k : 0 <= k -> 0 <= m < 2 ^ k -> Zdigits2 m <= k.
Proof.
  intros Hk [Hm Hlt]. destruct (Z.eq_dec m 0) as [->|Hne]; [simpl; lia|].
  rewrite Zdigits2_log2 by lia.
  pose proof (proj1 (Z.log2_lt_pow2 m k ltac:(lia)) Hlt). lia.
Qed.

(** Rounding a value of at most the integer [K] gives at most [K]. *)
Lemma binary_round_aux_le_int mx ex lx K :
  0 <= mx -> ex <= 0 -> 1 <= K < 2 ^ 53 ->
  mx <= K * 2 ^ (- ex) ->
  (lx <> loc_Exact -> mx + 1 <= K * 2 ^ (- ex)) ->
  le_int K (binary_round_aux prec emax false mx ex lx).
Proof.
  intros Hmx Hex HK Hle Hlt. unfold binary_round_aux.
  assert (Hdig : forall m e, e <= 0 -> 0 <= m <= K * 2 ^ (- e) ->
                 Zdigits2 m + e <= 53).
  { intros m e He [Hm0 Hm].
    pose proof (Z.pow_pos_nonneg 2 (- e) ltac:(lia) ltac:(lia)) as Hp.
    assert (m < 2 ^ (53 - e)).
    { replace (53 - e) with (53 + - e) by lia.
      rewrite Z.pow_add_r by lia. nia. }
    pose proof (Zdigits2_lt_pow2 m (53 - e) ltac:(lia) ltac:(lia)). lia. }
  destruct (shr_fexp prec emax mx ex lx) as [mrs1 e1] eqn:E1.
  destruct (shr_fexp_spec _ _ _ _ _ Hmx E1) as (He1 & Hm1 & _).
  destruct (shr_fexp_value _ _ _ _ _ Hmx E1) as (Hn1 & Hv1 & Hx1).
  pose proof (Hdig mx ex Hex (conj Hmx Hle)) as Hd0.
  assert (He1' : e1 <= 0) by (unfold fexp, emin, prec, emax in He1; lia).
  set (m2 := round_nearest_even (shr_m mrs1) (loc_of_shr_record mrs1)) in *.
  pose proof (Z.pow_pos_nonneg 2 (- e1) ltac:(lia) ltac:(lia)) as HP1.
  pose proof (Z.pow_pos_nonneg 2 (e1 - ex) ltac:(lia) ltac:(lia)) as HN1.
  assert (Hsplit1 : 2 ^ (- ex) = 2 ^ (- e1) * 2 ^ (e1 - ex)).
  { rewrite <- Z.pow_add_r by lia. f_equal. lia. }
  destruct (round_nearest_even_bounds (shr_m mrs1)
              (loc_of_shr_record mrs1) Hm1) as [Hm2 Hm2'].
  fold m2 in Hm2, Hm2'.
  assert (Hm2le : m2 <= K * 2 ^ (- e1)).
  { destruct (Z.eq_dec (mx mod 2 ^ (e1 - ex)) 0) as [Hmod|Hmod].
    - destruct lx as [|c].
      + subst m2. rewrite (Hx1 eq_refl Hmod). cbn [round_nearest_even].
        rewrite Hv1. apply Z.div_le_upper_bound; [lia|].
        rewrite Hsplit1 in Hle. nia.
      + assert (shr_m mrs1 < K * 2 ^ (- e1)); [|lia].
        rewrite Hv1. apply Z.div_lt_upper_bound; [lia|].
        specialize (Hlt ltac:(done)). rewrite Hsplit1 in Hlt. nia.
    - assert (shr_m mrs1 < K * 2 ^ (- e1)); [|lia].
      rewrite Hv1. apply Z.div_lt_upper_bound; [lia|].
      rewrite Hsplit1 in Hle.
      destruct (Z.eq_dec mx (K * 2 ^ (- e1) * 2 ^ (e1 - ex))) as [->|Hne];
        [|nia].
      rewrite Z.mod_mul in Hmod by lia. done. }
  destruct (shr_fexp prec emax m2 e1 loc_Exact) as [mrs3 e3] eqn:E3.
  destruct (shr_fexp_spec _ _ _ _ _ Hm2 E3) as (He3 & Hm3 & _).
  destruct (shr_fexp_value _ _ _ _ _ Hm2 E3) as (Hn3 & Hv3 & _).
  pose proof (Hdig m2 e1 He1' (conj Hm2 Hm2le)) as Hd2.
  assert (He3' : e3 <= 0) by (unfold fexp, emin, prec, emax in He3; lia).
  pose proof (Z.pow_pos_nonneg 2 (- e3) ltac:(lia) ltac:(lia)) as HP3.
  pose proof (Z.pow_pos_nonneg 2 (e3 - e1) ltac:(lia) ltac:(lia)) as HN3.
  assert (Hsplit3 : 2 ^ (- e1) = 2 ^ (- e3) * 2 ^ (e3 - e1)).
  { rewrite <- Z.pow_add_r by lia. f_equal. lia. }
  assert (Hm3le : shr_m mrs3 <= K * 2 ^ (- e3)).
  { rewrite Hv3. apply Z.div_le_upper_bound; [lia|].
    rewrite Hsplit3 in Hm2le. nia. }
  destruct (shr_m mrs3) as [|m|m] eqn:Em3; [done| |lia].
  unfold emax, prec. rewrite (proj2 (Z.leb_le e3 (1024 - 53))) by lia.
  simpl. done.
Qed.


Lemma new_location_exact m r : r = 0 -> new_location m r = loc_Exact.
Proof.
  intros ->. unfold new_location, new_location_even, new_location_odd.
  by destruct (Z.even m).
Qed.

(** The quotient of two ints [d <= t] is at most 1. *)
Lemma true_div_le_one d t :
  0 <= d <= t -> 0 < t < 2 ^ 53 ->
  exists q, true_div d t = Ok q /\ le_int 1 q
            /\ (d = 0 -> q = S754_zero false).
Proof.
  intros Hd Ht. unfold true_div. rewrite (proj2 (Z.eqb_neq t 0)) by lia.
  eexists. split; [reflexivity|].
  destruct (of_int_exact t ltac:(lia)) as (m2 & e2 & -> & He2 & Hm2 & Hd2).
  destruct (Z.eq_dec d 0) as [->|Hd0]; [by split|].
  split; [|done].
  destruct (of_int_exact d ltac:(lia)) as (m1 & e1 & -> & He1 & Hm1 & Hd1).
  unfold div, SFdiv, SFdiv_core_binary. cbn [xorb].
  set (e' := Z.min _ _).
  assert (Hdig : Zdigits2 d <= Zdigits2 t) by (apply Zdigits2_le; lia).
  assert (He' : e' <= e1 - e2 /\ e' <= 0).
  { subst e'. cbn [Zdigits2]. unfold fexp, emin, prec, emax. lia. }
  set (m' := match e1 - e2 - e' with
             | 0 => Z.pos m1
             | Z.pos _ => Z.shiftl (Z.pos m1) (e1 - e2 - e')
             | Z.neg _ => 0
             end).
  assert (Hm' : m' = Z.pos m1 * 2 ^ (e1 - e2 - e')).
  { subst m'. destruct (e1 - e2 - e') as [|s|s] eqn:Es; try lia.
    by rewrite Z.shiftl_mul_pow2. }
  pose proof (Z_div_mod m' (Z.pos m2) ltac:(lia)) as Hqr.
  destruct (Z.div_eucl m' (Z.pos m2)) as [q r]. destruct Hqr as [Hq Hr].
  pose proof (Z.pow_pos_nonneg 2 (- e') ltac:(lia) ltac:(lia)) as HP.
  pose proof (Z.pow_pos_nonneg 2 (- e1) ltac:(lia) ltac:(lia)) as HP1.
  pose proof (Z.pow_pos_nonneg 2 (- e2) ltac:(lia) ltac:(lia)) as HP2.
  pose proof (Z.pow_pos_nonneg 2 (e1 - e2 - e') ltac:(lia) ltac:(lia)) as HPs.
  assert (Hscale : 2 ^ (- e1) * 2 ^ (e1 - e2 - e') = 2 ^ (- e2) * 2 ^ (- e')).
  { rewrite <- !Z.pow_add_r by lia. f_equal. lia. }
  assert (Hbound : m' <= Z.pos m2 * 2 ^ (- e')).
  { rewrite Hm', Hm1, Hm2.
    replace (d * 2 ^ (- e1) * 2 ^ (e1 - e2 - e'))
      with (d * (2 ^ (- e2) * 2 ^ (- e'))) by (rewrite <- Hscale; lia).
    nia. }
  assert (Hq0 : 0 <= q) by nia.
  apply binary_round_aux_le_int; [done | lia | lia | nia |].
  intros Hloc.
  assert (r <> 0) by (intros ->; by rewrite new_location_exact in Hloc).
  nia.
Qed.

Lemma mul_le_int a r :
  1 <= a < 2 ^ 53 -> le_int 1 r -> le_int a (mul (of_int a) r).
Proof.
  intros Ha Hr.
  destruct (of_int_exact a Ha) as (ma & ea & -> & Hea & Hma & _).
  destruct r as [sr|sr| |[|] mr er]; try done.
  destruct Hr as [Her Hmr].
  unfold mul, SFmul. cbn [xorb].
  pose proof (Z.pow_pos_nonneg 2 (- ea) ltac:(lia) ltac:(lia)) as HPa.
  pose proof (Z.pow_pos_nonneg 2 (- er) ltac:(lia) ltac:(lia)) as HPr.
  apply binary_round_aux_le_int; [lia | lia | lia | | done].
  replace (- (ea + er)) with (- ea + - er) by lia.
  rewrite Z.pow_add_r, Pos2Z.inj_mul, Hma by lia. nia.
Qed.

Lemma truncate_le_int k x :
  0 <= k -> le_int k x -> exists v, truncate x = Ok v /\ 0 <= v <= k.
Proof.
  intros Hk. destruct x as [s|s| |[|] m e]; try done.
  - intros _. exists 0. split; [done | lia].
  - intros [He Hm]. unfold truncate.
    pose proof (Z.pow_pos_nonneg 2 (- e) ltac:(lia) ltac:(lia)) as HP.
    eexists. split; [reflexivity|].
    destruct (Z.leb_spec 0 e).
    + replace e with 0 in * by lia. simpl in *. lia.
    + split; [apply Z.div_pos; lia|].
      apply Z.div_le_upper_bound; [lia|]. lia.
Qed.

(** The alpha expression is between 0 and [a], and 0 at distance 0,
    whenever [pow_half] maps 0 to 0 and [0, 1] into [0, 1]. *)
Theorem alpha_expr_bounds (pow_half : float -> float) (a d t : Z) :
  pow_half (S754_zero false) = S754_zero false ->
  (forall x, le_int 1 x -> le_int 1 (pow_half x)) ->
  0 < a <= 255 -> 0 <= d <= t -> 0 < t < 2 ^ 53 ->
  exists v, alpha_expr pow_half a d t = Ok v
            /\ 0 <= v <= a /\ (d = 0 -> v = 0).
Proof.
  intros Hzero Hpow Ha Hd Ht. unfold alpha_expr.
  destruct (true_div_le_one d t Hd Ht) as (q & -> & Hq & Hq0).
  cbn [bind].
  pose proof (mul_le_int a (pow_half q) ltac:(lia) (Hpow q Hq)) as Hmul.
  destruct (truncate_le_int a _ ltac:(lia) Hmul) as (v & Hv & Hrange).
  exists v. split; [done|]. split; [done|].
  intros ->. rewrite (Hq0 eq_refl), Hzero in Hv.
  destruct (of_int_exact a ltac:(lia)) as (ma & ea & Ea & _).
  rewrite Ea in Hv. cbn in Hv. congruence.
Qed.

End AlphaFacts.

(** X23: with the alpha expression computed in binary64 arithmetic around a
    [pow_half] that maps 0 to 0 and [0, 1] into [0, 1], and a tolerance
    whose square times 3 is below [2^53], keying returns an image, keeps
    every RGB value, raises no alpha, and makes a pixel of exactly the
    background color fully transparent. *)
Lemma make_bg_transparent_binary64
  (convert_rgba : Image -> Image) (pow_half : F64.float -> F64.float)
  (scaled_alpha : Z -> Z -> Z -> Z)
  (im : Image) (bg : RGB) (tolerance : Z) :
  let px := convert_rgba im in
  pow_half (S754_zero false) = S754_zero false ->
  (forall x, F64.le_int 1 x -> F64.le_int 1 (pow_half x)) ->
  (forall a d t v, alpha_expr pow_half a d t = Ok v ->
                   scaled_alpha a d t = v) ->
  wf_image px -> 0 < tolerance -> tolerance * tolerance * 3 < 2 ^ 53 ->
  exists out,
    make_bg_transparent convert_rgba scaled_alpha im bg tolerance = Ok out
    /\ forall i p, im_data px !! i = Some p ->
         exists p', im_data out !! i = Some p'
           /\ rgb_of p' = rgb_of p
           /\ alpha_of p' <= alpha_of p
           /\ (rgb_of p = bg -> alpha_of p' = 0).
Proof.
  intros px Hzero Hpow Hagree Hwf Htol Hrange.
  pose proof (tol_sq_pos tolerance Htol) as Ht.
  assert (Hexpr : forall a d, 0 < a <= 255 ->
            0 <= d <= tolerance * tolerance * 3 ->
            0 <= scaled_alpha a d (tolerance * tolerance * 3) <= a
            /\ (d = 0 -> scaled_alpha a d (tolerance * tolerance * 3) = 0)).
  { intros a d Ha Hd.
    destruct (AlphaFacts.alpha_expr_bounds pow_half a d
                (tolerance * tolerance * 3) Hzero Hpow Ha Hd ltac:(lia))
      as (v & Hv & Hle & Hz).
    rewrite (Hagree _ _ _ _ Hv). done. }
  destruct (make_bg_transparent_pixels convert_rgba scaled_alpha im bg
              tolerance Hwf Htol) as (out & Hout & _ & _ & _ & Hpix).
  exists out. split; [done|]. intros i p Hp.
  destruct (Hpix i p Hp) as (p' & Hp' & Hkey). exists p'.
  assert (Hbyte : byte_pixel p).
  { destruct Hwf as (_ & _ & _ & Hbytes). rewrite Forall_forall in Hbytes.
    apply Hbytes. by eapply list_elem_of_lookup_2. }
  split; [done|]. split; [by eapply keyed_rgb|]. split.
  - eapply keyed_alpha_le; [|exact Ht|exact Hbyte|exact Hkey].
    intros a d Ha Hd. by apply Hexpr.
  - intros Hbg. eapply keyed_exact; [|exact Ht|exact Hbyte|exact Hbg|exact Hkey].
    intros a Ha. apply Hexpr; [done|lia|done].
Qed.

(** ** The layout in binary64 arithmetic *)

Module RoundFacts.
Import F64 F64Facts AlphaFacts.

Lemma Zdigits2_range m k :
  1 <= k -> 2 ^ (k - 1) <= m < 2 ^ k -> Zdigits2 m = k.
Proof.
  intros Hk [Hlo Hhi].
  pose proof (Z.pow_pos_nonneg 2 (k - 1) ltac:(lia) ltac:(lia)) as Hp.
  rewrite Zdigits2_log2 by lia.
  rewrite (Z.log2_unique m (k - 1)); [lia | lia |].
  replace (Z.succ (k - 1)) with k by lia. done.
Qed.

Lemma Zdigits2_spec m :
  0 < m -> 2 ^ (Zdigits2 m - 1) <= m < 2 ^ Zdigits2 m.
Proof.
  intros Hm. rewrite Zdigits2_log2 by lia.
  replace (Z.log2 m + 1 - 1) with (Z.log2 m) by lia.
  pose proof (Z.log2_spec m Hm). by rewrite <- Z.add_1_r in *.
Qed.

Lemma round_nearest_even_near m l :
  m <= round_nearest_even m l <= m + 1.
Proof.
  unfold round_nearest_even.
  destruct l as [|[]]; try destruct (Z.even m); lia.
Qed.

(** Rounding a mantissa of at least 53 bits, away from the subnormal
    range and from overflow: the result is a normal number within one
    unit in the last place of the value rounded. *)
Lemma binary_round_aux_normal mx ex lx :
  0 < mx -> 53 <= Zdigits2 mx -> -1074 <= ex -> Zdigits2 mx + ex <= 1023 ->
  exists m e,
    binary_round_aux prec emax false mx ex lx = S754_finite false m e
    /\ ex <= e <= Zdigits2 mx + ex - 52
    /\ 2 ^ 52 <= Z.pos m < 2 ^ 53
    /\ (Z.pos m - 1) * 2 ^ (e - ex) <= mx < (Z.pos m + 1) * 2 ^ (e - ex).
Proof.
  intros Hmx Hdig Hex Hmax.
  unfold binary_round_aux.
  destruct (shr_fexp prec emax mx ex lx) as [mrs1 e1] eqn:E1.
  assert (Hmx0 : 0 <= mx) by lia.
  destruct (shr_fexp_spec _ _ _ _ _ Hmx0 E1) as (He1 & Hm1 & Hd1).
  destruct (shr_fexp_value _ _ _ _ _ Hmx0 E1) as (Hn1 & Hv1 & _).
  assert (He1' : e1 = Zdigits2 mx + ex - 53)
    by (unfold fexp, emin, prec, emax in He1; lia).
  assert (Hd1' : Zdigits2 (shr_m mrs1) = 53) by lia.
  set (m1 := shr_m mrs1) in *.
  assert (Hm1pos : 0 < m1).
  { destruct (Z.eq_dec m1 0) as [H0|H0]; [|lia].
    rewrite H0 in Hd1'. simpl in Hd1'. lia. }
  pose proof (Zdigits2_spec m1 Hm1pos) as Hr1. rewrite Hd1' in Hr1.
  change (53 - 1) with 52 in Hr1.
  set (m2 := round_nearest_even m1 (loc_of_shr_record mrs1)).
  pose proof (round_nearest_even_near m1 (loc_of_shr_record mrs1)) as Hm2.
  fold m2 in Hm2.
  destruct (shr_fexp prec emax m2 e1 loc_Exact) as [mrs3 e3] eqn:E3.
  assert (Hm20 : 0 <= m2) by lia.
  destruct (shr_fexp_spec _ _ _ _ _ Hm20 E3) as (He3 & Hm3 & Hd3).
  destruct (shr_fexp_value _ _ _ _ _ Hm20 E3) as (Hn3 & Hv3 & _).
  pose proof (Z.pow_pos_nonneg 2 (e1 - ex) ltac:(lia) ltac:(lia)) as HP1.
  assert (Hdiv1 : m1 * 2 ^ (e1 - ex) <= mx < (m1 + 1) * 2 ^ (e1 - ex)).
  { subst m1. rewrite Hv1.
    pose proof (Z.mul_div_le mx (2 ^ (e1 - ex)) HP1).
    pose proof (Z.mul_succ_div_gt mx (2 ^ (e1 - ex)) HP1).
    lia. }
  assert (Hcases : (e3 = e1 /\ shr_m mrs3 = m2 /\ m2 < 2 ^ 53)
                   \/ (e3 = e1 + 1 /\ shr_m mrs3 = 2 ^ 52 /\ m2 = 2 ^ 53)).
  { destruct (Z.eq_dec m2 (2 ^ 53)) as [Heq|Hne].
    - right.
      assert (Hd2 : Zdigits2 m2 = 54) by (rewrite Heq; reflexivity).
      rewrite Hd2 in He3.
      assert (He3' : e3 = e1 + 1)
        by (unfold fexp, emin, prec, emax in He3; lia).
      split; [done|]. split; [|done]. rewrite Hv3, He3', Heq.
      replace (e1 + 1 - e1) with 1 by lia. reflexivity.
    - left. assert (Hd2 : Zdigits2 m2 = 53)
        by (apply Zdigits2_range; lia).
      rewrite Hd2 in He3.
      assert (He3' : e3 = e1)
        by (unfold fexp, emin, prec, emax in He3; lia).
      split; [done|]. split; [|lia].
      rewrite Hv3, He3', Z.sub_diag. apply Z.div_1_r. }
  destruct Hcases as [(-> & Hm3' & Hlt) | (-> & Hm3' & Heq)].
  - rewrite Hm3'. destruct m2 as [|p|p] eqn:Ep; try lia.
    unfold emax, prec. rewrite (proj2 (Z.leb_le e1 (1024 - 53))) by lia.
    exists p, e1. split; [done|]. split; [lia|]. split; [lia|]. nia.
  - rewrite Hm3'. change (2 ^ 52) with (Z.pos (2 ^ 52)%positive).
    cbv iota. unfold emax, prec.
    rewrite (proj2 (Z.leb_le (e1 + 1) (1024 - 53))) by lia.
    exists (2 ^ 52)%positive, (e1 + 1). split; [done|]. split; [lia|].
    split; [lia|].
    replace (e1 + 1 - ex) with (1 + (e1 - ex)) by lia.
    rewrite Z.pow_add_r by lia. change (2 ^ 1) with 2.
    change (Z.pos (2 ^ 52)%positive) with (2 ^ 52).
    rewrite Heq in Hm2. nia.
Qed.


Lemma quotient_lower a b q r L B :
  a = b * q + r -> 0 <= r < b -> b <= B -> L * B <= a -> 0 <= L -> L <= q.
Proof.
  intros -> Hr Hb Ha HL.
  destruct (Z.lt_ge_cases q L) as [Hlt|]; [|done].
  assert (b * (q + 1) <= b * L) by (apply Z.mul_le_mono_nonneg_l; lia).
  assert (b * L <= B * L) by (apply Z.mul_le_mono_nonneg_r; lia).
  lia.
Qed.

Lemma quotient_upper a b q r U B :
  a = b * q + r -> 0 <= r < b -> 0 < B <= b -> a < U * B -> 0 <= U ->
  q < U.
Proof.
  intros -> Hr Hb Ha HU.
  destruct (Z.lt_ge_cases q U) as [|Hge]; [done|].
  assert (b * U <= b * q) by (apply Z.mul_le_mono_nonneg_l; lia).
  assert (B * U <= b * U) by (apply Z.mul_le_mono_nonneg_r; lia).
  lia.
Qed.

Lemma of_int_31 n :
  1 <= n < 2 ^ 31 ->
  exists m e,
    of_int n = S754_finite false m e
    /\ -52 <= e <= 0
    /\ Z.pos m = n * 2 ^ (- e)
    /\ 1 <= Z.pos (digits2_pos m) + e <= 31.
Proof.
  intros Hn.
  destruct (of_int_exact n ltac:(lia)) as (m & e & E & He & Hm & Hd).
  destruct (of_int_size n Hn) as (m' & e' & E' & He' & Hd').
  rewrite E in E'. injection E' as <- <-.
  exists m, e. split; [done|]. split; [lia|]. split; [done|].
  pose proof (Zdigits2_pos n ltac:(lia)). lia.
Qed.

(** [a / b] is a normal number within one unit in the last place of the
    quotient. *)
Lemma true_div_near T W :
  1 <= T < 2 ^ 31 -> 1 <= W < 2 ^ 31 ->
  exists mq eq,
    true_div T W = Ok (S754_finite false mq eq)
    /\ -83 <= eq <= -21
    /\ 2 ^ 52 <= Z.pos mq < 2 ^ 53
    /\ W * (Z.pos mq - 1) <= T * 2 ^ (- eq) < W * (Z.pos mq + 1).
Proof.
  intros HT HW. unfold true_div. rewrite (proj2 (Z.eqb_neq W 0)) by lia.
  destruct (of_int_31 T HT) as (m1 & e1 & -> & He1 & Hm1 & Hd1).
  destruct (of_int_31 W HW) as (m2 & e2 & -> & He2 & Hm2 & Hd2).
  unfold div, SFdiv, SFdiv_core_binary. cbn [xorb Zdigits2].
  set (d1 := Z.pos (digits2_pos m1)) in *.
  set (d2 := Z.pos (digits2_pos m2)) in *.
  set (e' := Z.min _ _).
  assert (He' : e' <= e1 - e2 /\ e' <= d1 + e1 - (d2 + e2) - 53
                /\ -83 <= e').
  { subst e'. unfold fexp, emin, prec, emax. lia. }
  set (s := e1 - e2 - e').
  set (m' := match s with
             | 0 => Z.pos m1
             | Z.pos _ => Z.shiftl (Z.pos m1) s
             | Z.neg _ => 0
             end).
  assert (Hm' : m' = Z.pos m1 * 2 ^ s).
  { subst m'. destruct s as [|p|p] eqn:Es; try lia.
    by rewrite Z.shiftl_mul_pow2. }
  pose proof (Z_div_mod m' (Z.pos m2) ltac:(lia)) as Hqr.
  destruct (Z.div_eucl m' (Z.pos m2)) as [qt r]. destruct Hqr as [Hq Hr].
  pose proof (Z.pow_pos_nonneg 2 s ltac:(lia) ltac:(lia)) as HPs.
  (* the digits of the truncated quotient *)
  pose proof (Zdigits2_spec (Z.pos m1) ltac:(lia)) as Hr1.
  pose proof (Zdigits2_spec (Z.pos m2) ltac:(lia)) as Hr2.
  cbn [Zdigits2] in Hr1, Hr2. fold d1 in Hr1. fold d2 in Hr2.
  assert (Hd1pos : 1 <= d1) by (subst d1; lia).
  assert (Hd2pos : 1 <= d2) by (subst d2; lia).
  set (j := d1 + s - d2) in *.
  assert (Hj : 53 <= j) by (subst j s; lia).
  assert (Hlow : 2 ^ (j - 1) * 2 ^ d2 <= m').
  { rewrite Hm', <- Z.pow_add_r by lia.
    replace (j - 1 + d2) with (d1 - 1 + s) by (subst j; lia).
    rewrite Z.pow_add_r by lia.
    apply Z.mul_le_mono_nonneg_r; lia. }
  assert (Hhigh : m' < 2 ^ (j + 1) * 2 ^ (d2 - 1)).
  { rewrite Hm', <- Z.pow_add_r by lia.
    replace (j + 1 + (d2 - 1)) with (d1 + s) by (subst j; lia).
    rewrite Z.pow_add_r by lia.
    apply Z.mul_lt_mono_pos_r; lia. }
  pose proof (Z.pow_pos_nonneg 2 (j - 1) ltac:(lia) ltac:(lia)) as HPj.
  pose proof (Z.pow_pos_nonneg 2 (j + 1) ltac:(lia) ltac:(lia)) as HPj1.
  pose proof (Z.pow_pos_nonneg 2 d2 ltac:(lia) ltac:(lia)) as HPd2.
  pose proof (Z.pow_pos_nonneg 2 (d2 - 1) ltac:(lia) ltac:(lia)) as HPd2'.
  assert (Hqt : 2 ^ (j - 1) <= qt < 2 ^ (j + 1)).
  { split.
    - apply (quotient_lower m' (Z.pos m2) qt r _ (2 ^ d2)); [done|lia|lia|done|lia].
    - apply (quotient_upper m' (Z.pos m2) qt r _ (2 ^ (d2 - 1)));
        [done|lia|lia|done|lia]. }
  assert (Hqt0 : 0 < qt) by lia.
  assert (Hdq : j <= Zdigits2 qt <= j + 1).
  { pose proof (Zdigits2_spec qt Hqt0) as Hs.
    pose proof (Zdigits2_pos qt Hqt0) as Hp.
    split.
    - destruct (Z.lt_ge_cases (Zdigits2 qt) j) as [Hlt|]; [|done].
      assert (2 ^ Zdigits2 qt <= 2 ^ (j - 1))
        by (apply Z.pow_le_mono_r; lia). lia.
    - destruct (Z.lt_ge_cases (j + 1) (Zdigits2 qt)) as [Hlt|]; [|lia].
      assert (2 ^ (j + 1) <= 2 ^ (Zdigits2 qt - 1))
        by (apply Z.pow_le_mono_r; lia). lia. }
  destruct (binary_round_aux_normal qt e' (new_location (Z.pos m2) r))
    as (mq & eq & -> & Heq & Hnorm & Hval); [lia | lia | lia | subst j s; lia |].
  exists mq, eq. split; [done|].
  assert (Heqr : -83 <= eq <= -21) by (subst j s; lia).
  split; [done|]. split; [done|].
  (* the value *)
  set (u := eq - e') in *.
  pose proof (Z.pow_pos_nonneg 2 u ltac:(lia) ltac:(lia)) as HPu.
  pose proof (Z.pow_pos_nonneg 2 (- e2) ltac:(lia) ltac:(lia)) as HP2.
  pose proof (Z.pow_pos_nonneg 2 (- eq) ltac:(lia) ltac:(lia)) as HPq.
  assert (Hscale : 2 ^ (- e1) * 2 ^ s = 2 ^ (- e2) * (2 ^ u * 2 ^ (- eq))).
  { rewrite <- !Z.pow_add_r by lia. f_equal. subst s u. lia. }
  assert (Hm'' : m' = T * (2 ^ (- e2) * (2 ^ u * 2 ^ (- eq)))).
  { rewrite Hm', Hm1, <- Hscale. lia. }
  set (P2 := 2 ^ (- e2)) in *. set (Pu := 2 ^ u) in *.
  set (Pq := 2 ^ (- eq)) in *.
  assert (HPP : 0 < P2 * Pu) by (apply Z.mul_pos_pos; lia).
  assert (Hb : Z.pos m2 = W * P2) by exact Hm2.
  destruct Hval as [Hval1 Hval2].
  assert (H1 : (Z.pos mq - 1) * Pu * (W * P2) <= qt * (W * P2))
    by (apply Z.mul_le_mono_nonneg_r; lia).
  assert (H2 : (qt + 1) * (W * P2) <= (Z.pos mq + 1) * Pu * (W * P2))
    by (apply Z.mul_le_mono_nonneg_r; lia).
  rewrite Hb in Hq, Hr.
  split.
  - apply (Z.mul_le_mono_pos_r _ _ (P2 * Pu) HPP). lia.
  - apply (Z.mul_lt_mono_pos_r (P2 * Pu) _ _ HPP). lia.
Qed.

(** [min] on two normal numbers picks the one of smaller value. *)
Lemma min_normal ma ea mb eb :
  2 ^ 52 <= Z.pos ma < 2 ^ 53 -> 2 ^ 52 <= Z.pos mb < 2 ^ 53 ->
  ea <= 0 -> eb <= 0 ->
  let a := S754_finite false ma ea in
  let b := S754_finite false mb eb in
  (min a b = a /\ Z.pos ma * 2 ^ (- eb) <= Z.pos mb * 2 ^ (- ea))
  \/ (min a b = b /\ Z.pos mb * 2 ^ (- ea) < Z.pos ma * 2 ^ (- eb)).
Proof.
  intros Ha Hb Hea Heb a b. unfold min, ltb, SFltb, a, b. cbn [SFcompare].
  pose proof (Z.pow_pos_nonneg 2 (- ea) ltac:(lia) ltac:(lia)) as HPa.
  pose proof (Z.pow_pos_nonneg 2 (- eb) ltac:(lia) ltac:(lia)) as HPb.
  destruct (Z.compare_spec eb ea) as [Heq|Hlt|Hgt].
  - subst eb. change (PosDef.Pos.compare_cont Eq mb ma) with (mb ?= ma)%positive.
    destruct (Pos.compare_spec mb ma) as [Hm|Hm|Hm].
    + left. split; [done|]. subst. lia.
    + right. split; [done|]. apply Z.mul_lt_mono_pos_r; lia.
    + left. split; [done|]. apply Z.mul_le_mono_nonneg_r; lia.
  - right. split; [done|].
    replace (- eb) with (- ea + (ea - eb)) by lia.
    rewrite Z.pow_add_r by lia.
    assert (2 ^ 1 <= 2 ^ (ea - eb)) by (apply Z.pow_le_mono_r; lia).
    change (2 ^ 1) with 2 in *.
    apply Z.lt_le_trans with (2 ^ 53 * 2 ^ (- ea));
      [apply Z.mul_lt_mono_pos_r; lia|].
    rewrite Z.mul_assoc, (Z.mul_comm (Z.pos ma)), <- Z.mul_assoc.
    transitivity (2 ^ (- ea) * (2 ^ 52 * 2)); [lia|].
    apply Z.mul_le_mono_nonneg_l; [lia|].
    apply Z.mul_le_mono_nonneg; lia.
  - left. split; [done|].
    replace (- ea) with (- eb + (eb - ea)) by lia.
    rewrite Z.pow_add_r by lia.
    assert (2 ^ 1 <= 2 ^ (eb - ea)) by (apply Z.pow_le_mono_r; lia).
    change (2 ^ 1) with 2 in *.
    transitivity (2 ^ 53 * 2 ^ (- eb));
      [apply Z.mul_le_mono_nonneg_r; lia|].
    rewrite Z.mul_assoc, (Z.mul_comm (Z.pos mb)), <- Z.mul_assoc.
    transitivity (2 ^ (- eb) * (2 ^ 52 * 2)); [lia|].
    apply Z.mul_le_mono_nonneg_l; [lia|].
    apply Z.mul_le_mono_nonneg; lia.
Qed.

(** [round_shift] is at most [T] below [T + 1/2] and at least [T] above
    [T - 1/2]. *)
Lemma round_shift_le m k T :
  0 <= k -> 2 * Z.pos m < (2 * T + 1) * 2 ^ k -> round_shift m k <= T.
Proof.
  intros Hk Hlt. unfold round_shift.
  pose proof (Z.pow_pos_nonneg 2 k ltac:(lia) Hk) as HP.
  pose proof (Z.div_mod (Z.pos m) (2 ^ k) ltac:(lia)) as Hdm.
  pose proof (Z.mod_pos_bound (Z.pos m) (2 ^ k) HP) as Hr.
  set (d := 2 ^ k) in *. set (q := Z.pos m / d) in *.
  set (r := Z.pos m mod d) in *.
  destruct (Z.lt_ge_cases q T) as [Hq|Hq].
  - destruct (2 * r ?= d); try destruct (Z.even q); lia.
  - assert (d * T <= d * q) by (apply Z.mul_le_mono_nonneg_l; lia).
    assert (q = T).
    { destruct (Z.eq_dec q T) as [|Hne]; [done|].
      assert (d * (T + 1) <= d * q) by (apply Z.mul_le_mono_nonneg_l; lia).
      lia. }
    subst q. rewrite (proj2 (Z.compare_lt_iff (2 * r) d)); lia.
Qed.

Lemma round_shift_ge m k T :
  0 <= k -> (2 * T - 1) * 2 ^ k < 2 * Z.pos m -> T <= round_shift m k.
Proof.
  intros Hk Hlt. unfold round_shift.
  pose proof (Z.pow_pos_nonneg 2 k ltac:(lia) Hk) as HP.
  pose proof (Z.div_mod (Z.pos m) (2 ^ k) ltac:(lia)) as Hdm.
  pose proof (Z.mod_pos_bound (Z.pos m) (2 ^ k) HP) as Hr.
  set (d := 2 ^ k) in *. set (q := Z.pos m / d) in *.
  set (r := Z.pos m mod d) in *.
  destruct (Z.lt_ge_cases q T) as [Hq|Hq].
  - assert (q = T - 1).
    { destruct (Z.eq_dec q (T - 1)) as [|Hne]; [done|].
      assert (d * q <= d * (T - 2)) by (apply Z.mul_le_mono_nonneg_l; lia).
      lia. }
    assert (Hq' : d * q = d * T - d) by (subst q; lia).
    rewrite (proj2 (Z.compare_gt_iff (2 * r) d)); lia.
  - destruct (2 * r ?= d); try destruct (Z.even q); lia.
Qed.

(** *** The arithmetic of one axis *)

Lemma chain_upper W T mp mq ms Ps Pq A :
  0 < Ps -> 0 < Pq -> 0 <= A -> 0 < W -> 1 <= mq -> 0 <= ms ->
  (mp - 1) * Ps <= W * ms * A ->
  ms * Pq <= mq * Ps ->
  W * (mq - 1) <= T * Pq ->
  (mp - 1) * (mq - 1) <= T * A * mq.
Proof.
  intros HPs HPq HA HW Hmq Hms H1 H2 H3.
  assert (S1 : (mp - 1) * Ps * (Pq * (mq - 1))
               <= W * ms * A * (Pq * (mq - 1))).
  { apply Z.mul_le_mono_nonneg_r; [|done].
    apply Z.mul_nonneg_nonneg; lia. }
  assert (S2 : W * A * (mq - 1) * (ms * Pq) <= W * A * (mq - 1) * (mq * Ps)).
  { apply Z.mul_le_mono_nonneg_l; [|done].
    repeat apply Z.mul_nonneg_nonneg; lia. }
  assert (S3 : A * mq * Ps * (W * (mq - 1)) <= A * mq * Ps * (T * Pq)).
  { apply Z.mul_le_mono_nonneg_l; [|done].
    repeat apply Z.mul_nonneg_nonneg; lia. }
  assert (HPP : 0 < Ps * Pq) by (apply Z.mul_pos_pos; lia).
  apply (Z.mul_le_mono_pos_r _ _ (Ps * Pq) HPP). lia.
Qed.

Lemma chain_lower W T mp mq Pq A :
  0 < Pq -> 0 < A -> 0 < W -> 1 <= mq ->
  W * mq * A < (mp + 1) * Pq ->
  T * Pq < W * (mq + 1) ->
  T * A * mq < (mq + 1) * (mp + 1).
Proof.
  intros HPq HA HW Hmq H1 H2.
  assert (HmA : 0 < mq * A) by (apply Z.mul_pos_pos; lia).
  assert (S1 : T * Pq * (mq * A) < W * (mq + 1) * (mq * A))
    by (apply Z.mul_lt_mono_pos_r; done).
  assert (S2 : (mq + 1) * (W * mq * A) < (mq + 1) * ((mp + 1) * Pq))
    by (apply Z.mul_lt_mono_pos_l; [lia | done]).
  apply (Z.mul_lt_mono_pos_r Pq _ _ HPq). lia.
Qed.

(** A product within [2^-51] of [T] is not at or above [2^-2]. *)
Lemma chain_not_small T mp mq A :
  1 <= T < 2 ^ 31 -> 2 ^ 52 <= mp -> 2 ^ 52 <= mq -> 0 <= A <= 4 ->
  (mp - 1) * (mq - 1) <= T * A * mq -> False.
Proof.
  intros HT Hmp Hmq HA H.
  assert (T * A <= 2 ^ 31 * 4) by (apply Z.mul_le_mono_nonneg; lia).
  assert (T * A * mq <= 2 ^ 31 * 4 * mq)
    by (apply Z.mul_le_mono_nonneg_r; lia).
  assert ((2 ^ 52 - 1) * (mq - 1) <= (mp - 1) * (mq - 1))
    by (apply Z.mul_le_mono_nonneg_r; lia).
  lia.
Qed.

Lemma half_upper T mp mq A :
  2 ^ 52 <= mp < 2 ^ 53 -> 2 ^ 52 <= mq < 2 ^ 53 -> 8 <= A ->
  (mp - 1) * (mq - 1) <= T * A * mq ->
  2 * mp < (2 * T + 1) * A.
Proof.
  intros Hmp Hmq HA H.
  destruct (Z.lt_ge_cases (2 * mp) ((2 * T + 1) * A)) as [|Hge]; [done|].
  assert ((2 * T + 1) * A * mq <= 2 * mp * mq)
    by (apply Z.mul_le_mono_nonneg_r; lia).
  assert (8 * mq <= A * mq) by (apply Z.mul_le_mono_nonneg_r; lia).
  lia.
Qed.

Lemma half_lower T mp mq A :
  2 ^ 52 <= mp < 2 ^ 53 -> 2 ^ 52 <= mq < 2 ^ 53 -> 8 <= A ->
  T * A * mq < (mq + 1) * (mp + 1) ->
  (2 * T - 1) * A < 2 * mp.
Proof.
  intros Hmp Hmq HA H.
  destruct (Z.lt_ge_cases ((2 * T - 1) * A) (2 * mp)) as [|Hge]; [done|].
  assert (2 * mp * mq <= (2 * T - 1) * A * mq)
    by (apply Z.mul_le_mono_nonneg_r; lia).
  assert (8 * mq <= A * mq) by (apply Z.mul_le_mono_nonneg_r; lia).
  lia.
Qed.

(** One axis: the side [W] times a scale that is at most the rounded
    [T / W] rounds to at most [T], and to [T] when the scale is the
    rounded [T / W] itself. *)
Lemma axis_round T W mq eq ms es :
  1 <= T < 2 ^ 31 -> 1 <= W < 2 ^ 31 ->
  eq <= 0 -> 2 ^ 52 <= Z.pos mq < 2 ^ 53 ->
  W * (Z.pos mq - 1) <= T * 2 ^ (- eq) < W * (Z.pos mq + 1) ->
  -83 <= es <= 0 -> 2 ^ 52 <= Z.pos ms < 2 ^ 53 ->
  Z.pos ms * 2 ^ (- eq) <= Z.pos mq * 2 ^ (- es) ->
  exists r,
    round (mul (of_int W) (S754_finite false ms es)) = Ok r
    /\ 0 <= r <= T
    /\ (ms = mq -> es = eq -> r = T).
Proof.
  intros HT HW Heq Hmq [Hq1 Hq2] Hes Hms Hle.
  destruct (of_int_31 W HW) as (mW & eW & -> & HeW & HmW & HdW).
  unfold mul, SFmul. cbn [xorb].
  assert (Hdig : 53 <= Zdigits2 (Z.pos (mW * ms)) <= 84 - eW).
  { split.
    - rewrite <- (Zdigits2_range (Z.pos ms) 53) by lia.
      apply Zdigits2_le. nia.
    - etransitivity; [rewrite Pos2Z.inj_mul; apply Zdigits2_mul; lia|].
      rewrite (Zdigits2_range (Z.pos ms) 53) by lia.
      cbn [Zdigits2]. lia. }
  destruct (binary_round_aux_normal (Z.pos (mW * ms)) (eW + es) loc_Exact)
    as (mp & ep & -> & Hep & Hmp & Hv1 & Hv2); [lia | lia | lia | lia |].
  rewrite Pos2Z.inj_mul, HmW in Hv1, Hv2.
  pose proof (Z.pow_pos_nonneg 2 (- eW) ltac:(lia) ltac:(lia)) as HPW.
  pose proof (Z.pow_pos_nonneg 2 (- es) ltac:(lia) ltac:(lia)) as HPs.
  pose proof (Z.pow_pos_nonneg 2 (- eq) ltac:(lia) ltac:(lia)) as HPq.
  pose proof (Z.pow_pos_nonneg 2 (ep - (eW + es)) ltac:(lia) ltac:(lia))
    as HPA.
  set (PW := 2 ^ (- eW)) in *. set (Ps := 2 ^ (- es)) in *.
  set (Pq := 2 ^ (- eq)) in *. set (PA := 2 ^ (ep - (eW + es))) in *.
  cbn [round].
  destruct (Z.leb_spec 0 ep) as [Hpos|Hneg].
  - (* the product would be at least [2^52] *)
    exfalso.
    pose proof (Z.pow_pos_nonneg 2 ep ltac:(lia) Hpos) as HE.
    assert (HPAeq : PA = 2 ^ ep * (PW * Ps)).
    { subst PA PW Ps. rewrite <- !Z.pow_add_r by lia. f_equal. lia. }
    set (E := 2 ^ ep) in *.
    assert (HI : (Z.pos mp - 1) * Ps <= W * Z.pos ms * 1).
    { assert ((Z.pos mp - 1) * Ps * PW * 1 <= (Z.pos mp - 1) * Ps * PW * E)
        by (apply Z.mul_le_mono_nonneg_l;
            [repeat apply Z.mul_nonneg_nonneg|]; lia).
      apply (Z.mul_le_mono_pos_r _ _ PW HPW).
      rewrite HPAeq in Hv1. lia. }
    apply (chain_not_small T (Z.pos mp) (Z.pos mq) 1); [done|lia|lia|lia|].
    apply (chain_upper W T (Z.pos mp) (Z.pos mq) (Z.pos ms) Ps Pq 1);
      [lia|lia|lia|lia|lia|lia|done|done|done].
  - pose proof (Z.pow_pos_nonneg 2 (- ep) ltac:(lia) ltac:(lia)) as HA.
    assert (HWs : PW * Ps = PA * 2 ^ (- ep)).
    { subst PA PW Ps. rewrite <- !Z.pow_add_r by lia. f_equal. lia. }
    set (A := 2 ^ (- ep)) in *.
    assert (HI : (Z.pos mp - 1) * Ps <= W * Z.pos ms * A).
    { apply (Z.mul_le_mono_pos_r _ _ PA HPA).
      assert ((Z.pos mp - 1) * PA * Ps <= W * PW * Z.pos ms * Ps)
        by (apply Z.mul_le_mono_nonneg_r; lia).
      replace (W * Z.pos ms * A * PA) with (W * Z.pos ms * (PA * A)) by lia.
      rewrite <- HWs. lia. }
    assert (HI' : W * Z.pos ms * A < (Z.pos mp + 1) * Ps).
    { apply (Z.mul_lt_mono_pos_r PA _ _ HPA).
      assert (W * PW * Z.pos ms * Ps < (Z.pos mp + 1) * PA * Ps)
        by (apply Z.mul_lt_mono_pos_r; lia).
      replace (W * Z.pos ms * A * PA) with (W * Z.pos ms * (PA * A)) by lia.
      rewrite <- HWs. lia. }
    assert (HII : (Z.pos mp - 1) * (Z.pos mq - 1) <= T * A * Z.pos mq).
    { apply (chain_upper W T (Z.pos mp) (Z.pos mq) (Z.pos ms) Ps Pq A);
        [lia|lia|lia|lia|lia|lia|done|done|done]. }
    assert (HA8 : 8 <= A).
    { destruct (Z.lt_ge_cases (- ep) 3) as [Hsmall|Hbig].
      - exfalso.
        apply (chain_not_small T (Z.pos mp) (Z.pos mq) A);
          [done|lia|lia| |done].
        split; [lia|]. change 4 with (2 ^ 2). subst A.
        apply Z.pow_le_mono_r; lia.
      - change 8 with (2 ^ 3). subst A. apply Z.pow_le_mono_r; lia. }
    eexists. split; [reflexivity|].
    assert (Hup : round_shift mp (- ep) <= T).
    { apply round_shift_le; [lia|]. fold A.
      apply (half_upper T (Z.pos mp) (Z.pos mq) A); done. }
    assert (Hlow : 0 <= round_shift mp (- ep)).
    { apply (round_shift_ge mp (- ep) 0); [lia|]. fold A. lia. }
    split; [lia|].
    intros -> ->. apply Z.le_antisymm; [done|].
    apply round_shift_ge; [lia|]. fold A.
    apply (half_lower T (Z.pos mp) (Z.pos mq) A); [done|done|done|].
    apply (chain_lower W T (Z.pos mp) (Z.pos mq) Pq A);
      [lia|lia|lia|lia|done|done].
Qed.

(** [min] returns one of its arguments, and neither argument is less
    than it. *)
Lemma ltb_irrefl (x : float) : ltb x x = false.
Proof.
  unfold ltb, SFltb. destruct x as [s|s| |s m e]; cbn [SFcompare];
    [done | by destruct s | done |].
  rewrite Z.compare_refl.
  change (PosDef.Pos.compare_cont Eq m m) with (m ?= m)%positive.
  rewrite Pos.compare_refl. by destruct s.
Qed.

Lemma ltb_asym_finite ma ea mb eb :
  ltb (S754_finite false mb eb) (S754_finite false ma ea) = true ->
  ltb (S754_finite false ma ea) (S754_finite false mb eb) = false.
Proof.
  unfold ltb, SFltb. cbn [SFcompare].
  change (PosDef.Pos.compare_cont Eq mb ma) with (mb ?= ma)%positive.
  change (PosDef.Pos.compare_cont Eq ma mb) with (ma ?= mb)%positive.
  rewrite (Z.compare_antisym eb ea), (Pos.compare_antisym mb ma).
  destruct (eb ?= ea); cbn [CompOpp]; [|done|done].
  destruct (mb ?= ma)%positive; cbn [CompOpp]; done.
Qed.

Lemma min_least ma ea mb eb :
  let a := S754_finite false ma ea in
  let b := S754_finite false mb eb in
  (min a b = a \/ min a b = b)
  /\ ltb a (min a b) = false /\ ltb b (min a b) = false.
Proof.
  intros a b. unfold min. destruct (ltb b a) eqn:E.
  - split; [by right|]. split; [by apply ltb_asym_finite | apply ltb_irrefl].
  - split; [by left|]. split; [apply ltb_irrefl | done].
Qed.

End RoundFacts.

(** The scale is the smaller of the two quotients, and the two sides
    times the scale round to at most the target sides, one of them to
    the target side itself. *)
Lemma layout_scale (target_w target_h w h : Z) :
  1 <= target_w < 2 ^ 31 -> 1 <= target_h < 2 ^ 31 ->
  1 <= w < 2 ^ 31 -> 1 <= h < 2 ^ 31 ->
  exists sw sh rw rh,
    F64.true_div target_w w = Ok sw
    /\ F64.true_div target_h h = Ok sh
    /\ (F64.min sw sh = sw \/ F64.min sw sh = sh)
    /\ F64.ltb sw (F64.min sw sh) = false
    /\ F64.ltb sh (F64.min sw sh) = false
    /\ F64.round (F64.mul (F64.of_int w) (F64.min sw sh)) = Ok rw
    /\ F64.round (F64.mul (F64.of_int h) (F64.min sw sh)) = Ok rh
    /\ 0 <= rw <= target_w /\ 0 <= rh <= target_h
    /\ (rw = target_w \/ rh = target_h).
Proof.
  intros Htw Hth Hw Hh.
  destruct (RoundFacts.true_div_near target_w w Htw Hw)
    as (mw & ew & Ew & Hew & Hmw & Hvw).
  destruct (RoundFacts.true_div_near target_h h Hth Hh)
    as (mh & eh & Eh & Heh & Hmh & Hvh).
  exists (S754_finite false mw ew), (S754_finite false mh eh).
  destruct (RoundFacts.min_least mw ew mh eh) as (Hone & Hl1 & Hl2).
  destruct (RoundFacts.min_normal mw ew mh eh Hmw Hmh ltac:(lia) ltac:(lia))
    as [[Hmin Hle] | [Hmin Hlt]].
  - destruct (RoundFacts.axis_round target_w w mw ew mw ew)
      as (rw & Erw & Hrw & Hfw); [done|done|lia|done|done|lia|done|lia|].
    destruct (RoundFacts.axis_round target_h h mh eh mw ew)
      as (rh & Erh & Hrh & _); [done|done|lia|done|done|lia|done|done|].
    exists rw, rh. rewrite Hmin in *.
    specialize (Hfw eq_refl eq_refl).
    repeat (split; [done|]). by left.
  - destruct (RoundFacts.axis_round target_w w mw ew mh eh)
      as (rw & Erw & Hrw & _); [done|done|lia|done|done|lia|done|lia|].
    destruct (RoundFacts.axis_round target_h h mh eh mh eh)
      as (rh & Erh & Hrh & Hfh); [done|done|lia|done|done|lia|done|lia|].
    exists rw, rh. rewrite Hmin in *.
    specialize (Hfh eq_refl eq_refl).
    repeat (split; [done|]). by right.
Qed.

(** The content always fits the canvas, and it spans the canvas along
    at least one axis. *)
Lemma layout_axes (target_w target_h w h : Z) :
  1 <= target_w < 2 ^ 31 -> 1 <= target_h < 2 ^ 31 ->
  1 <= w < 2 ^ 31 -> 1 <= h < 2 ^ 31 ->
  exists new_w new_h,
    layout target_w target_h w h =
    Ok ((new_w, new_h),
        ((target_w - new_w) / 2, (target_h - new_h) / 2))
    /\ 1 <= new_w <= target_w
    /\ 1 <= new_h <= target_h
    /\ (new_w = target_w \/ new_h = target_h).
Proof.
  intros Htw Hth Hw Hh.
  destruct (layout_scale target_w target_h w h Htw Hth Hw Hh)
    as (sw & sh & rw & rh & Ew & Eh & _ & _ & _ & Erw & Erh & Hrw & Hrh & Hf).
  exists (Z.max 1 rw), (Z.max 1 rh). unfold layout.
  rewrite Ew, Eh. cbn [bind]. rewrite Erw, Erh. cbn [bind].
  split; [done|]. lia.
Qed.
(** ** [resize_and_pad] *)

Lemma paste_frame (dst src mask : Image) (xy : Z * Z) :
  im_mode (paste dst src xy mask) = im_mode dst
  /\ im_size (paste dst src xy mask) = im_size dst
  /\ length (im_data (paste dst src xy mask)) = length (im_data dst).
Proof.
  unfold paste. destruct xy as [x0 y0], (im_size dst) as [dw dh] eqn:Ed,
    (im_size src) as [sw sh].
  cbn. by rewrite length_imap.
Qed.

Lemma blank_image_frame (m : mode) (w h : Z) (color : Pixel) :
  im_mode (blank_image m (w, h) color) = m
  /\ im_size (blank_image m (w, h) color) = (w, h)
  /\ length (im_data (blank_image m (w, h) color)) = Z.to_nat (w * h).
Proof. cbn. by rewrite length_replicate. Qed.

Lemma new_image_ok (m : mode) (w h : Z) (color : Pixel) :
  0 <= w -> 0 <= h ->
  new_image m (w, h) color = Ok (blank_image m (w, h) color).
Proof.
  intros Hw Hh. unfold new_image.
  by rewrite (proj2 (Z.ltb_ge w 0)), (proj2 (Z.ltb_ge h 0)) by lia.
Qed.

Lemma new_image_inv (m : mode) (size : Z * Z) (color : Pixel) (c : Image) :
  new_image m size color = Ok c ->
  c = blank_image m size color /\ 0 <= size.1 /\ 0 <= size.2.
Proof.
  unfold new_image. destruct size as [w h]. cbn [fst snd].
  destruct (Z.ltb_spec w 0); [done|]. destruct (Z.ltb_spec h 0); [done|].
  cbn [orb]. by intros [= <-].
Qed.

(** The result of [resize_and_pad], step by step, for an image with at
    least one pixel. *)
Lemma resize_and_pad_steps
  (convert_rgba : Image -> Image) (resize : Image -> Z * Z -> Image)
  (im : Image) (target_w target_h : Z) :
  let px := convert_rgba im in
  1 <= target_w < 2 ^ 31 -> 1 <= target_h < 2 ^ 31 ->
  1 <= width px < 2 ^ 31 -> 1 <= height px < 2 ^ 31 ->
  exists sw sh rw rh,
    F64.true_div target_w (width px) = Ok sw
    /\ F64.true_div target_h (height px) = Ok sh
    /\ F64.round (F64.mul (F64.of_int (width px)) (F64.min sw sh)) = Ok rw
    /\ F64.round (F64.mul (F64.of_int (height px)) (F64.min sw sh)) = Ok rh
    /\ layout target_w target_h (width px) (height px) =
       Ok ((Z.max 1 rw, Z.max 1 rh),
           ((target_w - Z.max 1 rw) / 2, (target_h - Z.max 1 rh) / 2))
    /\ resize_and_pad convert_rgba resize im target_w target_h =
       Ok (paste (blank_image ModeRGBA (target_w, target_h) (0, 0, 0, 0))
                 (resize px (Z.max 1 rw, Z.max 1 rh))
                 ((target_w - Z.max 1 rw) / 2, (target_h - Z.max 1 rh) / 2)
                 (resize px (Z.max 1 rw, Z.max 1 rh))).
Proof.
  intros px Htw Hth Hw Hh.
  destruct (layout_size target_w target_h (width px) (height px)
              Htw Hth Hw Hh) as (sw & sh & rw & rh & E1 & E2 & E3 & E4 & El).
  exists sw, sh, rw, rh. repeat (split; [done|]).
  unfold resize_and_pad. fold px. unfold width, height in *.
  destruct (im_size px) as [w h]. cbn [fst snd] in *.
  rewrite (proj2 (Z.eqb_neq w 0)), (proj2 (Z.eqb_neq h 0)) by lia.
  cbn [orb]. rewrite El. cbn [bind].
  rewrite new_image_ok by lia. reflexivity.
Qed.

Lemma resize_and_pad_zero_size
  (convert_rgba : Image -> Image) (resize : Image -> Z * Z -> Image)
  (im : Image) (target_w target_h : Z) :
  let px := convert_rgba im in
  width px = 0 \/ height px = 0 ->
  resize_and_pad convert_rgba resize im target_w target_h = Raise ValueError.
Proof.
  intros px H. unfold resize_and_pad. fold px. unfold width, height in *.
  destruct (im_size px) as [w h]. simpl in *.
  destruct H as [-> | ->]; [done|]. by rewrite orb_true_r.
Qed.

(** C1: for an image of positive width and height (sizes are below 2^31
    in Pillow) the result is an RGBA image 370 wide and 320 tall, with one
    pixel per position; an image of width or height 0 raises
    [ValueError]. *)
Theorem resize_and_pad_canvas
  (convert_rgba : Image -> Image) (resize : Image -> Z * Z -> Image)
  (im : Image) :
  let px := convert_rgba im in
  (0 < width px < 2 ^ 31 -> 0 < height px < 2 ^ 31 ->
   exists out,
     resize_and_pad convert_rgba resize im TARGET_W TARGET_H = Ok out
     /\ width out = 370 /\ height out = 320
     /\ im_mode out = ModeRGBA
     /\ length (im_data out) = Z.to_nat (370 * 320))
  /\ (width px = 0 \/ height px = 0 ->
      resize_and_pad convert_rgba resize im TARGET_W TARGET_H
      = Raise ValueError).
Proof.
  intros px. split; [|apply resize_and_pad_zero_size].
  intros Hw Hh.
  destruct (resize_and_pad_steps convert_rgba resize im TARGET_W TARGET_H)
    as (sw & sh & rw & rh & _ & _ & _ & _ & _ & Hres);
    [unfold TARGET_W; lia | unfold TARGET_H; lia | fold px; lia
    | fold px; lia |].
  eexists. split; [exact Hres|].
  destruct (paste_frame
              (blank_image ModeRGBA (TARGET_W, TARGET_H) (0, 0, 0, 0))
              (resize (convert_rgba im) (Z.max 1 rw, Z.max 1 rh))
              (resize (convert_rgba im) (Z.max 1 rw, Z.max 1 rh))
              ((TARGET_W - Z.max 1 rw) / 2, (TARGET_H - Z.max 1 rh) / 2))
    as (Hm & Hs & Hl).
  unfold width, height. rewrite Hs, Hm, Hl.
  destruct (blank_image_frame ModeRGBA TARGET_W TARGET_H (0, 0, 0, 0))
    as (Hm' & Hs' & Hl').
  rewrite Hs', Hl'. cbn [fst snd]. unfold TARGET_W, TARGET_H.
  repeat split; reflexivity.
Qed.

Lemma resize_and_pad_canvas_witness :
  (0 < width (Sample.convert_rgba Sample.patch) < 2 ^ 31 ->
   0 < height (Sample.convert_rgba Sample.patch) < 2 ^ 31 ->
   exists out,
     resize_and_pad Sample.convert_rgba Sample.resize Sample.patch
       TARGET_W TARGET_H = Ok out
     /\ width out = 370 /\ height out = 320
     /\ im_mode out = ModeRGBA
     /\ length (im_data out) = Z.to_nat (370 * 320))
  /\ 0 < width (Sample.convert_rgba Sample.patch) < 2 ^ 31
  /\ 0 < height (Sample.convert_rgba Sample.patch) < 2 ^ 31.
Proof.
  split; [|cbn; lia].
  exact (proj1 (resize_and_pad_canvas
                  Sample.convert_rgba Sample.resize Sample.patch)).
Defined.

(** *** The pixels of the canvas *)

Lemma byte_forall (P : Z -> bool) :
  forallb P (seqZ 0 256) = true -> forall x, byte x -> P x = true.
Proof.
  intros H x Hx. rewrite forallb_forall in H. apply H.
  apply list_elem_of_In, elem_of_seqZ. unfold byte in Hx. lia.
Qed.

Lemma div255_opaque x : byte x -> div255 (x * 255) = x.
Proof.
  intros Hx. apply Z.eqb_eq. revert x Hx.
  apply byte_forall. vm_compute. reflexivity.
Qed.

Lemma self_masked_opaque p :
  byte_pixel p -> alpha_of p = 255 -> self_masked p = p.
Proof.
  destruct p as [[[r g] b] a]. simpl. intros (Hr & Hg & Hb & Ha) ->.
  by rewrite !div255_opaque.
Qed.

Lemma self_masked_transparent p :
  alpha_of p = 0 -> self_masked p = (0, 0, 0, 0).
Proof.
  destruct p as [[[r g] b] a]. simpl. intros ->.
  by rewrite !Z.mul_0_r.
Qed.

Lemma blend_onto_transparent p : blend_pixel p (0, 0, 0, 0) p = self_masked p.
Proof.
  destruct p as [[[r g] b] a]. unfold blend_pixel, self_masked, blend8.
  simpl alpha_of. by rewrite !Z.mul_0_l, !Z.add_0_l.
Qed.


Lemma offset_coordinates (w x y : Z) :
  0 <= x < w -> 0 <= y ->
  Z.of_nat (offset w x y) mod w = x /\ Z.of_nat (offset w x y) / w = y.
Proof.
  intros Hx Hy. unfold offset. rewrite Z2Nat.id by nia. split.
  - rewrite Z.add_comm, Z.mod_add by lia. apply Z.mod_small. lia.
  - rewrite Z.add_comm, Z.div_add by lia. rewrite Z.div_small by lia. lia.
Qed.

Lemma offset_lt (w h x y : Z) :
  0 <= x < w -> 0 <= y < h -> (offset w x y < Z.to_nat (w * h))%nat.
Proof. intros Hx Hy. unfold offset. apply Z2Nat.inj_lt; nia. Qed.

(** The pixel of a fresh transparent canvas after a paste of [src]
    through itself at [(x0, y0)]. *)
Lemma paste_canvas_pixel (m : mode) (tw th : Z) (src : Image)
    (x0 y0 cx cy : Z) :
  0 <= cx < tw -> 0 <= cy < th ->
  im_data (paste (blank_image m (tw, th) (0, 0, 0, 0)) src (x0, y0) src)
    !! offset tw cx cy
  = Some
      (if (0 <=? cx - x0) && (cx - x0 <? width src)
          && (0 <=? cy - y0) && (cy - y0 <? height src)
       then match im_data src !! offset (width src) (cx - x0) (cy - y0) with
            | Some p => self_masked p
            | None => (0, 0, 0, 0)
            end
       else (0, 0, 0, 0)).
Proof.
  intros Hx Hy. unfold paste, blank_image, width, height.
  cbn [im_size im_mode im_data].
  destruct (im_size src) as [sw sh]. cbn [im_data fst snd].
  rewrite list_lookup_imap.
  rewrite lookup_replicate_2 by (by apply offset_lt).
  cbn [fmap option_fmap option_map].
  destruct (offset_coordinates tw cx cy Hx ltac:(lia)) as [-> ->].
  destruct ((0 <=? cx - x0) && (cx - x0 <? sw)
            && (0 <=? cy - y0) && (cy - y0 <? sh)); [|done].
  destruct (im_data src !! offset sw (cx - x0) (cy - y0)) as [p|]; [|done].
  by rewrite blend_onto_transparent.
Qed.

(** The canvas that [resize_and_pad] returns, pixel by pixel: the
    content has the size that [layout] computes, it lies inside the
    canvas, and a canvas pixel is the pixel of the resized image at that
    place, blended by its own alpha, or transparent outside the
    content. *)
Lemma resize_and_pad_pixels
  (convert_rgba : Image -> Image) (resize : Image -> Z * Z -> Image)
  (im : Image) (target_w target_h : Z) :
  let px := convert_rgba im in
  1 <= target_w < 2 ^ 31 -> 1 <= target_h < 2 ^ 31 ->
  1 <= width px < 2 ^ 31 -> 1 <= height px < 2 ^ 31 ->
  exists new_w new_h out,
    let x := (target_w - new_w) / 2 in
    let y := (target_h - new_h) / 2 in
    let resized := resize px (new_w, new_h) in
    layout target_w target_h (width px) (height px)
    = Ok ((new_w, new_h), (x, y))
    /\ 1 <= new_w <= target_w /\ 1 <= new_h <= target_h
    /\ 0 <= x /\ x + new_w <= target_w /\ 0 <= y /\ y + new_h <= target_h
    /\ resize_and_pad convert_rgba resize im target_w target_h = Ok out
    /\ (im_size resized = (new_w, new_h) ->
        forall cx cy, 0 <= cx < target_w -> 0 <= cy < target_h ->
          im_data out !! offset target_w cx cy
          = Some
              (if (x <=? cx) && (cx <? x + new_w)
                  && (y <=? cy) && (cy <? y + new_h)
               then match im_data resized
                            !! offset new_w (cx - x) (cy - y) with
                    | Some p => self_masked p
                    | None => (0, 0, 0, 0)
                    end
               else (0, 0, 0, 0))).
Proof.
  intros px Htw Hth Hw Hh.
  destruct (layout_axes target_w target_h (width px) (height px)
              Htw Hth Hw Hh) as (new_w & new_h & Hlay & Hnw & Hnh & _).
  exists new_w, new_h. eexists. intros x y resized.
  split; [exact Hlay|]. split; [done|]. split; [done|].
  assert (Hx : 0 <= x /\ x + new_w <= target_w).
  { pose proof (Z.div_mod (target_w - new_w) 2 ltac:(lia)).
    pose proof (Z.mod_pos_bound (target_w - new_w) 2 ltac:(lia)).
    subst x. lia. }
  assert (Hy : 0 <= y /\ y + new_h <= target_h).
  { pose proof (Z.div_mod (target_h - new_h) 2 ltac:(lia)).
    pose proof (Z.mod_pos_bound (target_h - new_h) 2 ltac:(lia)).
    subst y. lia. }
  split; [lia|]. split; [lia|]. split; [lia|]. split; [lia|].
  split.
  - unfold resize_and_pad. fold px. unfold width, height in *.
    destruct (im_size px) as [w h]. cbn [fst snd] in *.
    rewrite (proj2 (Z.eqb_neq w 0)), (proj2 (Z.eqb_neq h 0)) by lia.
    cbn [orb]. rewrite Hlay. cbn [bind].
    rewrite new_image_ok by lia. cbn [bind]. reflexivity.
  - intros Hsize cx cy Hcx Hcy. fold resized. fold x. fold y.
    rewrite paste_canvas_pixel by done.
    unfold width, height. rewrite Hsize. cbn [fst snd]. f_equal.
    destruct (Z.leb_spec 0 (cx - x)), (Z.leb_spec x cx); try lia;
      destruct (Z.ltb_spec (cx - x) new_w), (Z.ltb_spec cx (x + new_w));
      try lia;
      destruct (Z.leb_spec 0 (cy - y)), (Z.leb_spec y cy); try lia;
      destruct (Z.ltb_spec (cy - y) new_h), (Z.ltb_spec cy (y + new_h));
      try lia; reflexivity.
Qed.

Lemma sample_convert_rgba_id (im : Image) :
  im_mode im = ModeRGBA -> Sample.convert_rgba im = im.
Proof. destruct im as [m sz d]. simpl. by intros ->. Qed.

Lemma sample_resize_id (im : Image) : Sample.resize im (im_size im) = im.
Proof. unfold Sample.resize. by rewrite decide_True. Qed.

(** [Sample.resize] returns an image of the requested size. *)
Lemma sample_resize_size (im : Image) (size : Z * Z) :
  length (im_data im) = Z.to_nat ((im_size im).1 * (im_size im).2) ->
  im_size (Sample.resize im size) = size
  /\ length (im_data (Sample.resize im size)) = Z.to_nat (size.1 * size.2).
Proof.
  intros Hlen. unfold Sample.resize.
  destruct (decide (size = im_size im)) as [->|_]; [done|].
  destruct size as [w h]. cbn [blank_image im_size im_data fst snd].
  split; [done|]. apply length_replicate.
Qed.

(** C5: the two quotients [370 / w] and [320 / h] are computed in
    binary64 arithmetic and the scale is the smaller of them: it is one
    of them and neither is less.  The content is [round(w * scale)] by
    [round(h * scale)], each at least 1; it fits the canvas and spans it
    along one axis.  It is centered: the canvas pixel [(cx, cy)] inside
    the box at [((370 - new_w) // 2, (320 - new_h) // 2)] is the pixel
    of the resized image at [(cx - x, cy - y)] blended by its own alpha
    (the pixel itself when it is opaque), and every pixel outside the
    box is transparent.  For a 100 by 200 image the box is 160 by 320
    at (105, 0).  Pillow's [resize] returns an image of the requested
    size. *)
Theorem resize_and_pad_layout
  (convert_rgba : Image -> Image) (resize : Image -> Z * Z -> Image)
  (im : Image) :
  let px := convert_rgba im in
  (forall size,
     im_size (resize px size) = size
     /\ length (im_data (resize px size)) = Z.to_nat (size.1 * size.2)) ->
  0 < width px < 2 ^ 31 -> 0 < height px < 2 ^ 31 ->
  exists sw sh rw rh out,
    F64.true_div 370 (width px) = Ok sw
    /\ F64.true_div 320 (height px) = Ok sh
    /\ let scale := F64.min sw sh in
       (scale = sw \/ scale = sh)
       /\ F64.ltb sw scale = false /\ F64.ltb sh scale = false
       /\ F64.round (F64.mul (F64.of_int (width px)) scale) = Ok rw
       /\ F64.round (F64.mul (F64.of_int (height px)) scale) = Ok rh
       /\ let new_w := Z.max 1 rw in
          let new_h := Z.max 1 rh in
          let x := (370 - new_w) / 2 in
          let y := (320 - new_h) / 2 in
          let resized := resize px (new_w, new_h) in
          new_w <= 370 /\ new_h <= 320 /\ (new_w = 370 \/ new_h = 320)
          /\ resize_and_pad convert_rgba resize im TARGET_W TARGET_H = Ok out
          /\ (forall cx cy, 0 <= cx < 370 -> 0 <= cy < 320 ->
                (x <= cx < x + new_w -> y <= cy < y + new_h ->
                 exists p,
                   im_data resized !! offset new_w (cx - x) (cy - y) = Some p
                   /\ im_data out !! offset 370 cx cy = Some (self_masked p)
                   /\ (byte_pixel p -> alpha_of p = 255 ->
                       im_data out !! offset 370 cx cy = Some p))
                /\ (cx < x \/ x + new_w <= cx \/ cy < y \/ y + new_h <= cy ->
                    im_data out !! offset 370 cx cy
                    = @Some Pixel (0, 0, 0, 0)))
          /\ (width px = 100 -> height px = 200 ->
              new_w = 160 /\ new_h = 320 /\ x = 105 /\ y = 0).
Proof.
  intros px Hresize Hw Hh.
  destruct (layout_scale 370 320 (width px) (height px))
    as (sw & sh & rw & rh & Ew & Eh & Hone & Hl1 & Hl2 & Erw & Erh
        & Hrw & Hrh & Hfill); [lia | lia | lia | lia |].
  destruct (resize_and_pad_pixels convert_rgba resize im TARGET_W TARGET_H)
    as (new_w & new_h & out & Hlay & Hnw & Hnh & _ & _ & _ & _ & Hres & Hpix);
    [unfold TARGET_W; lia | unfold TARGET_H; lia | fold px; lia
    | fold px; lia |].
  fold px in Hlay, Hpix.
  assert (Hlay' : layout 370 320 (width px) (height px)
                  = Ok ((Z.max 1 rw, Z.max 1 rh),
                        ((370 - Z.max 1 rw) / 2, (370 - 50 - Z.max 1 rh) / 2))).
  { unfold layout. rewrite Ew, Eh. cbn [bind]. rewrite Erw, Erh. reflexivity. }
  change (370 - 50) with 320 in Hlay'.
  change TARGET_W with 370 in Hlay, Hpix. change TARGET_H with 320 in Hlay, Hpix.
  rewrite Hlay' in Hlay. injection Hlay as <- <-.
  exists sw, sh, rw, rh, out. split; [done|]. split; [done|].
  intros scale. split; [done|]. split; [done|]. split; [done|].
  split; [done|]. split; [done|].
  intros new_w new_h x y resized.
  split; [lia|]. split; [lia|]. split; [subst new_w new_h; lia|].
  split; [exact Hres|]. split.
  - intros cx cy Hcx Hcy.
    specialize (Hpix (proj1 (Hresize (new_w, new_h))) cx cy Hcx Hcy).
    fold new_w new_h x y resized in Hpix. split.
    + intros Hbx Hby.
      rewrite (proj2 (Z.leb_le x cx)), (proj2 (Z.ltb_lt cx (x + new_w))),
        (proj2 (Z.leb_le y cy)), (proj2 (Z.ltb_lt cy (y + new_h)))
        in Hpix by lia.
      cbn [andb] in Hpix.
      destruct (lookup_lt_is_Some_2 (im_data resized)
                  (offset new_w (cx - x) (cy - y))) as [p Hp].
      { unfold resized. rewrite (proj2 (Hresize (new_w, new_h))).
        cbn [fst snd]. apply offset_lt; lia. }
      exists p. rewrite Hp in Hpix. split; [done|]. split; [done|].
      intros Hbyte Ha. by rewrite Hpix, self_masked_opaque.
    + intros Hout. rewrite Hpix. f_equal.
      destruct (Z.leb_spec x cx), (Z.ltb_spec cx (x + new_w)),
        (Z.leb_spec y cy), (Z.ltb_spec cy (y + new_h));
        cbn [andb]; try done; lia.
  - intros Hw100 Hh200. rewrite Hw100, Hh200 in Hlay'.
    assert (Hc : layout 370 320 100 200 = Ok ((160, 320), (105, 0)))
      by (vm_compute; reflexivity).
    rewrite Hc in Hlay'. injection Hlay' as E1 E2 E3 E4.
    subst new_w new_h x y. lia.
Qed.

Lemma tall_resize (size : Z * Z) :
  im_size (Sample.resize (Sample.convert_rgba SampleImages.tall) size) = size
  /\ length (im_data (Sample.resize (Sample.convert_rgba SampleImages.tall)
                                    size))
     = Z.to_nat (size.1 * size.2).
Proof.
  apply sample_resize_size.
  rewrite (sample_convert_rgba_id SampleImages.tall eq_refl).
  apply length_replicate.
Qed.

Lemma resize_and_pad_layout_witness :
  let px := Sample.convert_rgba SampleImages.tall in
  exists sw sh rw rh out,
    F64.true_div 370 (width px) = Ok sw
    /\ F64.true_div 320 (height px) = Ok sh
    /\ let scale := F64.min sw sh in
       (scale = sw \/ scale = sh)
       /\ F64.ltb sw scale = false /\ F64.ltb sh scale = false
       /\ F64.round (F64.mul (F64.of_int (width px)) scale) = Ok rw
       /\ F64.round (F64.mul (F64.of_int (height px)) scale) = Ok rh
       /\ let new_w := Z.max 1 rw in
          let new_h := Z.max 1 rh in
          let x := (370 - new_w) / 2 in
          let y := (320 - new_h) / 2 in
          let resized := Sample.resize px (new_w, new_h) in
          new_w <= 370 /\ new_h <= 320 /\ (new_w = 370 \/ new_h = 320)
          /\ resize_and_pad Sample.convert_rgba Sample.resize
               SampleImages.tall TARGET_W TARGET_H = Ok out
          /\ (forall cx cy, 0 <= cx < 370 -> 0 <= cy < 320 ->
                (x <= cx < x + new_w -> y <= cy < y + new_h ->
                 exists p,
                   im_data resized !! offset new_w (cx - x) (cy - y) = Some p
                   /\ im_data out !! offset 370 cx cy = Some (self_masked p)
                   /\ (byte_pixel p -> alpha_of p = 255 ->
                       im_data out !! offset 370 cx cy = Some p))
                /\ (cx < x \/ x + new_w <= cx \/ cy < y \/ y + new_h <= cy ->
                    im_data out !! offset 370 cx cy
                    = @Some Pixel (0, 0, 0, 0)))
          /\ (width px = 100 -> height px = 200 ->
              new_w = 160 /\ new_h = 320 /\ x = 105 /\ y = 0).
Proof.
  apply (resize_and_pad_layout Sample.convert_rgba Sample.resize
           SampleImages.tall).
  - exact tall_resize.
  - unfold width. cbn [Sample.convert_rgba SampleImages.tall im_size fst].
    lia.
  - unfold height. cbn [Sample.convert_rgba SampleImages.tall im_size snd].
    lia.
Defined.

(** *** An image of the size of the canvas *)

(** Pasting an image through itself onto a transparent canvas of its own
    size blends every pixel by its own alpha. *)
Lemma paste_self_masked (m : mode) (src : Image) (w h : Z) :
  0 < w -> 0 < h -> im_size src = (w, h) ->
  length (im_data src) = Z.to_nat (w * h) ->
  paste (blank_image m (w, h) (0, 0, 0, 0)) src (0, 0) src
  = mkImage m (w, h) (map self_masked (im_data src)).
Proof.
  intros Hw Hh Hsize Hlen. unfold paste, blank_image. cbn [im_size im_mode im_data].
  rewrite Hsize. f_equal. apply list_eq. intros i.
  rewrite list_lookup_imap, list_lookup_fmap.
  destruct (decide (i < Z.to_nat (w * h))%nat) as [Hi|Hi].
  - rewrite lookup_replicate_2 by done.
    destruct (lookup_lt_is_Some_2 (im_data src) i) as [p Hp]; [lia|].
    rewrite Hp. cbn [fmap option_fmap option_map].
    assert (Hmod : 0 <= Z.of_nat i mod w < w) by (apply Z.mod_pos_bound; lia).
    assert (Hdiv : 0 <= Z.of_nat i / w < h).
    { split; [apply Z.div_pos; lia|]. apply Z.div_lt_upper_bound; nia. }
    rewrite !Z.sub_0_r.
    rewrite (proj2 (Z.leb_le 0 _) (proj1 Hmod)), (proj2 (Z.ltb_lt _ _) (proj2 Hmod)).
    rewrite (proj2 (Z.leb_le 0 _) (proj1 Hdiv)), (proj2 (Z.ltb_lt _ _) (proj2 Hdiv)).
    cbn [andb].
    assert (Hoff : offset w (Z.of_nat i mod w) (Z.of_nat i / w) = i).
    { unfold offset. rewrite (Z.mul_comm _ w), <- Z.div_mod by lia. lia. }
    rewrite Hoff, Hp. by rewrite blend_onto_transparent.
  - assert (Hge : (Z.to_nat (w * h) <= i)%nat) by lia.
    rewrite (proj1 (lookup_replicate_None (Z.to_nat (w * h))
                    ((0, 0, 0, 0) : Pixel) i) Hge).
    rewrite (lookup_ge_None_2 (im_data src) i) by lia. done.
Qed.

Lemma layout_canvas_size :
  layout TARGET_W TARGET_H TARGET_W TARGET_H
  = Ok ((TARGET_W, TARGET_H), (0, 0)).
Proof. vm_compute. reflexivity. Qed.

Lemma resize_and_pad_same_size
  (convert_rgba : Image -> Image) (resize : Image -> Z * Z -> Image)
  (im : Image) :
  convert_rgba im = im -> resize im (im_size im) = im ->
  im_size im = (TARGET_W, TARGET_H) ->
  length (im_data im) = Z.to_nat (TARGET_W * TARGET_H) ->
  resize_and_pad convert_rgba resize im TARGET_W TARGET_H
  = Ok (mkImage ModeRGBA (TARGET_W, TARGET_H) (map self_masked (im_data im))).
Proof.
  intros Hconv Hres Hsize Hlen. unfold resize_and_pad.
  rewrite Hconv, Hsize.
  change ((TARGET_W =? 0) || (TARGET_H =? 0)) with false. cbv iota.
  rewrite layout_canvas_size. cbn [bind].
  assert (Hres' : resize im (TARGET_W, TARGET_H) = im)
    by (rewrite <- Hsize; exact Hres).
  rewrite Hres'.
  rewrite new_image_ok by (unfold TARGET_W, TARGET_H; lia).
  cbn [bind]. f_equal.
  apply paste_self_masked; [done | done | done | done].
Qed.

Lemma translucent_wf : wf_image Sample.translucent.
Proof.
  unfold wf_image, Sample.translucent, width, height.
  cbn [im_size im_data fst snd]. unfold TARGET_W, TARGET_H.
  split; [lia|]. split; [lia|]. split; [apply length_replicate|].
  apply Forall_replicate. unfold byte_pixel, byte. lia.
Qed.

(** What an RGBA image of the size of the canvas comes back as: every
    pixel is the source pixel blended by its own alpha onto the
    transparent canvas, so that an opaque pixel keeps its value.
    Pillow's [convert] copies an RGBA image and its [resize] copies an
    image that has the requested size. *)
Lemma resize_and_pad_canvas_sized
  (convert_rgba : Image -> Image) (resize : Image -> Z * Z -> Image)
  (im : Image) :
  (forall i, im_mode i = ModeRGBA -> convert_rgba i = i) ->
  (forall i, resize i (im_size i) = i) ->
  wf_image im -> im_mode im = ModeRGBA ->
  im_size im = (TARGET_W, TARGET_H) ->
  exists out,
    resize_and_pad convert_rgba resize im TARGET_W TARGET_H = Ok out
    /\ im_mode out = ModeRGBA
    /\ im_size out = im_size im
    /\ forall i p, im_data im !! i = Some p ->
         im_data out !! i = Some (self_masked p)
         /\ (alpha_of p = 255 -> self_masked p = p)
         /\ (alpha_of p = 0 -> self_masked p = (0, 0, 0, 0)).
Proof.
  intros Hconv Hres Hwf Hmode Hsize.
  pose proof Hwf as (_ & _ & Hlen & Hbytes).
  unfold width, height in Hlen. rewrite Hsize in Hlen. cbn [fst snd] in Hlen.
  eexists. split.
  { apply resize_and_pad_same_size; [by apply Hconv | apply Hres | done..]. }
  cbn [im_mode im_size im_data]. split; [done|]. split; [done|].
  intros i p Hp. split; [by rewrite list_lookup_fmap, Hp|]. split.
  - apply self_masked_opaque. rewrite Forall_forall in Hbytes.
    apply Hbytes. by eapply list_elem_of_lookup_2.
  - apply self_masked_transparent.
Qed.

Lemma soft_edge_wf : wf_image SampleImages.soft_edge.
Proof.
  unfold wf_image, SampleImages.soft_edge, width, height.
  cbn [im_size im_data fst snd]. unfold TARGET_W, TARGET_H.
  split; [lia|]. split; [lia|]. split; [apply length_replicate|].
  apply Forall_replicate. unfold byte_pixel, byte. lia.
Qed.

(** C6: an RGBA image that is already 370 by 320 and holds the soft edge
    (250, 250, 250, 100) at every position does not come back
    pixel-identical: the paste through the image's own alpha multiplies
    every band by the alpha once more, and every pixel comes back as
    (98, 98, 98, 39). *)
Theorem resize_and_pad_loses_partial_alpha :
  wf_image SampleImages.soft_edge
  /\ im_mode SampleImages.soft_edge = ModeRGBA
  /\ im_size SampleImages.soft_edge = (370, 320)
  /\ exists out,
       resize_and_pad Sample.convert_rgba Sample.resize SampleImages.soft_edge
         TARGET_W TARGET_H = Ok out
       /\ im_size out = (370, 320)
       /\ (forall i p, im_data SampleImages.soft_edge !! i = Some p ->
             p = (250, 250, 250, 100)
             /\ im_data out !! i = @Some Pixel (98, 98, 98, 39))
       /\ im_data SampleImages.soft_edge !! 0%nat
          = @Some Pixel (250, 250, 250, 100)
       /\ out <> SampleImages.soft_edge.
Proof.
  split; [apply soft_edge_wf|]. split; [done|]. split; [done|].
  eexists. split.
  { apply resize_and_pad_same_size.
    - by apply sample_convert_rgba_id.
    - apply sample_resize_id.
    - done.
    - apply length_replicate. }
  cbn [im_size im_data]. split; [done|].
  assert (Hpos : (0 < Z.to_nat (TARGET_W * TARGET_H))%nat)
    by (unfold TARGET_W, TARGET_H; lia).
  assert (Hin : im_data SampleImages.soft_edge !! 0%nat
                = @Some Pixel (250, 250, 250, 100))
    by (unfold SampleImages.soft_edge; cbn [im_data];
        by apply lookup_replicate_2).
  assert (Hall : forall i p, im_data SampleImages.soft_edge !! i = Some p ->
            p = (250, 250, 250, 100)
            /\ map self_masked (im_data SampleImages.soft_edge) !! i
               = @Some Pixel (98, 98, 98, 39)).
  { intros i p Hp.
    unfold SampleImages.soft_edge in Hp. cbn [im_data] in Hp.
    apply lookup_replicate in Hp as [-> Hi]. split; [done|].
    rewrite list_lookup_fmap. unfold SampleImages.soft_edge.
    cbn [im_data]. by rewrite lookup_replicate_2. }
  split; [exact Hall|]. split; [exact Hin|].
  intros Heq.
  assert (Hd : map self_masked (im_data SampleImages.soft_edge)
               = im_data SampleImages.soft_edge)
    by (by rewrite <- Heq at 2).
  destruct (Hall 0%nat _ Hin) as [_ Hout]. rewrite Hd, Hin in Hout.
  discriminate Hout.
Qed.

(** ** Examples *)

Example parse_f0a : parse_hex_color "f0a" = Ok (255, 0, 170).
Proof. reflexivity. Qed.

Example parse_hash_upper : parse_hex_color "  #FFaa00 " = Ok (255, 170, 0).
Proof. reflexivity. Qed.

Example parse_len5 : parse_hex_color "12345" = Raise ValueError.
Proof. reflexivity. Qed.

Example parse_signs : parse_hex_color "-1-2-3" = Ok (-1, -2, -3).
Proof. reflexivity. Qed.

Example parse_zz : parse_hex_color "zzz" = Raise ValueError.
Proof. reflexivity. Qed.

(** * Further properties *)

(** ** Color utilities *)

Lemma color_distance_sq_zero (a b : RGB) :
  color_distance_sq a b = 0 -> a = b.
Proof.
  destruct a as [[a0 a1] a2], b as [[b0 b1] b2]. unfold color_distance_sq.
  rewrite !Z.pow_2_r. intros H.
  pose proof (Z.square_nonneg (a0 - b0)) as N0.
  pose proof (Z.square_nonneg (a1 - b1)) as N1.
  pose proof (Z.square_nonneg (a2 - b2)) as N2.
  assert (E0 : (a0 - b0) * (a0 - b0) = 0) by lia.
  assert (E1 : (a1 - b1) * (a1 - b1) = 0) by lia.
  assert (E2 : (a2 - b2) * (a2 - b2) = 0) by lia.
  apply Z.mul_eq_0 in E0, E1, E2.
  repeat f_equal; lia.
Qed.

(** X1: the squared distance is symmetric, never negative, and 0 exactly
    for equal colors. *)
Theorem color_distance_sq_metric (a b : RGB) :
  color_distance_sq a b = color_distance_sq b a
  /\ 0 <= color_distance_sq a b
  /\ (color_distance_sq a b = 0 <-> a = b).
Proof.
  split; [|split; [apply color_distance_sq_nonneg|]].
  - destruct a as [[a0 a1] a2], b as [[b0 b1] b2]. unfold color_distance_sq.
    rewrite !Z.pow_2_r. lia.
  - split; [apply color_distance_sq_zero|].
    intros ->. apply color_distance_sq_same.
Qed.

Module HexFacts2.
Import Str ColorString HexFacts.

Lemma hex_pair_byte c d v : hex_pair c d = Some v -> byte v.
Proof.
  pose (chk := fun c d =>
    match hex_pair c d with
    | Some v => (0 <=? v) && (v <=? 255)
    | None => true
    end).
  assert (G : forall c d, chk c d = true) by all_char_pairs.
  intros H. specialize (G c d). unfold chk in G. rewrite H in G.
  apply andb_true_iff in G as [G1 G2]. unfold byte. lia.
Qed.

Lemma expected_bytes body r g b :
  expected body = Some (r, g, b) -> byte r /\ byte g /\ byte b.
Proof.
  destruct body as [|c1 [|c2 [|c3 [|c4 [|c5 [|c6 [|c7 t]]]]]]]; try done;
    simpl.
  - destruct (hex_pair c1 c1) eqn:E1, (hex_pair c2 c2) eqn:E2,
      (hex_pair c3 c3) eqn:E3; try done.
    intros [= <- <- <-].
    repeat split; eapply hex_pair_byte; eassumption.
  - destruct (hex_pair c1 c2) eqn:E1, (hex_pair c3 c4) eqn:E2,
      (hex_pair c5 c6) eqn:E3; try done.
    intros [= <- <- <-].
    repeat split; eapply hex_pair_byte; eassumption.
Qed.

Lemma byte_hex_pair v :
  byte v ->
  forallb is_hex (HexFormat.byte_hex v) = true
  /\ hex_pair (HexFormat.digit (v / 16)) (HexFormat.digit (v mod 16)) = Some v.
Proof.
  intros Hv.
  pose (chk := fun v =>
    forallb is_hex (HexFormat.byte_hex v)
    && match hex_pair (HexFormat.digit (v / 16)) (HexFormat.digit (v mod 16)) with
       | Some v' => v' =? v
       | None => false
       end).
  assert (G : chk v = true).
  { revert v Hv. apply byte_forall. vm_compute. reflexivity. }
  unfold chk in G. apply andb_true_iff in G as [G1 G2]. split; [done|].
  destruct (hex_pair _ _); [|done]. apply Z.eqb_eq in G2. by subst.
Qed.

End HexFacts2.

(** X2: a valid color string parses to a triple of bytes. *)
Theorem parse_hex_color_valid_bytes (s : string) :
  ColorString.valid (list_ascii_of_string s) = true ->
  exists r g b,
    parse_hex_color s = Ok (r, g, b) /\ byte r /\ byte g /\ byte b.
Proof.
  intros Hs. unfold parse_hex_color.
  destruct (HexFacts.parse_valid _ Hs) as ([[r g] b] & Hexp & Hparse).
  exists r, g, b. split; [done|]. by eapply HexFacts2.expected_bytes.
Qed.

Lemma parse_hex_color_valid_bytes_witness :
  exists r g b,
    parse_hex_color "#1e90ff" = Ok (r, g, b) /\ byte r /\ byte g /\ byte b.
Proof. apply (parse_hex_color_valid_bytes "#1e90ff"). reflexivity. Defined.

(** X3: the three-digit form is the six-digit form with every digit
    doubled: both parse, to the same triple. *)
Theorem parse_hex_color_short_form (h : bool) (c1 c2 c3 : ascii) :
  forallb Str.is_hex [c1; c2; c3] = true ->
  exists rgb,
    parse_hex_color
      (string_of_list_ascii (ColorString.hash h ++ [c1; c2; c3])) = Ok rgb
    /\ parse_hex_color
         (string_of_list_ascii
            (ColorString.hash h ++ [c1; c1; c2; c2; c3; c3])) = Ok rgb.
Proof.
  intros Hhex. unfold parse_hex_color.
  rewrite !list_ascii_of_string_of_list_ascii.
  destruct (HexFacts.parse_body3 h c1 c2 c3 Hhex) as (v & Hexp & Hparse).
  assert (Hhex6 : forallb Str.is_hex [c1; c1; c2; c2; c3; c3] = true).
  { simpl in *. rewrite !andb_true_iff in *. tauto. }
  destruct (HexFacts.parse_body6 h c1 c1 c2 c2 c3 c3 Hhex6)
    as (v' & Hexp' & Hparse').
  exists v. split; [done|]. rewrite Hparse'. f_equal.
  simpl in Hexp, Hexp'. congruence.
Qed.

Lemma parse_hex_color_short_form_witness :
  exists rgb,
    parse_hex_color
      (string_of_list_ascii
         (ColorString.hash true ++ ["f"; "0"; "a"]%char)) = Ok rgb
    /\ parse_hex_color
         (string_of_list_ascii
            (ColorString.hash true ++ ["f"; "f"; "0"; "0"; "a"; "a"]%char))
       = Ok rgb.
Proof. apply (parse_hex_color_short_form true "f" "0" "a"). reflexivity. Defined.

(** X4: a string that, stripped of whitespace and of one leading [#], has
    neither 3 nor 6 characters raises [ValueError]; so do the empty
    string, a lone [#] and a doubled [#] before six digits. *)
Theorem parse_hex_color_bad_length (s : string) :
  let body := ColorString.body_of (Str.strip (list_ascii_of_string s)) in
  length body <> 3%nat -> length body <> 6%nat ->
  parse_hex_color s = Raise ValueError.
Proof. intros body H3 H6. by apply HexFacts.parse_bad_length. Qed.

Lemma parse_hex_color_bad_length_witness :
  parse_hex_color EmptyString = Raise ValueError
  /\ parse_hex_color " # " = Raise ValueError
  /\ parse_hex_color "##ffffff" = Raise ValueError.
Proof.
  split; [|split].
  - apply (parse_hex_color_bad_length EmptyString); vm_compute; lia.
  - apply (parse_hex_color_bad_length " # "); vm_compute; lia.
  - apply (parse_hex_color_bad_length "##ffffff"); vm_compute; lia.
Defined.

(** X5: every triple of bytes is read back from its six lowercase hex
    digits: all colors can be given on the command line. *)
Theorem parse_hex_color_format (r g b : Z) :
  byte r -> byte g -> byte b ->
  parse_hex_color (HexFormat.format (r, g, b)) = Ok (r, g, b).
Proof.
  intros Hr Hg Hb. unfold parse_hex_color, HexFormat.format.
  rewrite list_ascii_of_string_of_list_ascii.
  destruct (HexFacts2.byte_hex_pair r Hr) as [Xr Er].
  destruct (HexFacts2.byte_hex_pair g Hg) as [Xg Eg].
  destruct (HexFacts2.byte_hex_pair b Hb) as [Xb Eb].
  unfold HexFormat.byte_hex in *. cbn [app].
  destruct (HexFacts.parse_body6 true
              (HexFormat.digit (r / 16)) (HexFormat.digit (r mod 16))
              (HexFormat.digit (g / 16)) (HexFormat.digit (g mod 16))
              (HexFormat.digit (b / 16)) (HexFormat.digit (b mod 16)))
    as (v & Hexp & Hparse).
  { cbn [forallb] in *. rewrite !andb_true_iff in *. tauto. }
  cbn [ColorString.hash app] in Hparse. rewrite Hparse. f_equal.
  cbn [ColorString.expected] in Hexp. rewrite Er, Eg, Eb in Hexp. congruence.
Qed.

Lemma parse_hex_color_format_witness :
  parse_hex_color (HexFormat.format (30, 144, 255)) = Ok (30, 144, 255).
Proof.
  apply parse_hex_color_format; unfold byte; lia.
Defined.

(** ** Background detector *)

Module DetectFacts2.
Import Counter Sampled CounterFacts DetectFacts.

Lemma modes_Permutation colors colors' :
  colors ≡ₚ colors' -> modes colors ≡ₚ modes colors'.
Proof.
  intros H. apply NoDup_Permutation; [apply NoDup_modes..|].
  intros c. rewrite !elem_of_modes. split.
  - intros [Hc Hall]. split; [by rewrite <- H|].
    intros d Hd. rewrite <- !(occ_Permutation _ _ _ H).
    apply Hall. by rewrite H.
  - intros [Hc Hall]. split; [by rewrite H|].
    intros d Hd. rewrite !(occ_Permutation _ _ _ H).
    apply Hall. by rewrite <- H.
Qed.

Lemma sum_average_byte (xs : list Z) :
  Forall byte xs -> byte (sumZ xs / Z.of_nat (length xs)).
Proof.
  intros H. unfold byte.
  assert (Hs : 0 <= sumZ xs <= 255 * Z.of_nat (length xs)).
  { rewrite sumZ_foldr. induction H as [|x xs Hx _ IH]; simpl; [lia|].
    unfold byte in Hx. lia. }
  destruct (Z.eq_dec (Z.of_nat (length xs)) 0) as [->|Hn];
    [rewrite Z.div_0_r; lia|].
  split.
  - apply Z.div_pos; lia.
  - apply Z.div_le_upper_bound; lia.
Qed.

Lemma pick_color_byte colors :
  colors <> [] -> Forall byte_rgb colors -> byte_rgb (pick_color colors).
Proof.
  intros Hne Hall.
  destruct (pick_color_modes colors Hne) as (cands & Hc & ->).
  assert (Hcands : Forall byte_rgb cands).
  { apply Forall_forall. intros c Hin. rewrite Hc in Hin.
    apply elem_of_modes in Hin as [Hin _].
    rewrite Forall_forall in Hall. by apply Hall. }
  assert (Havg : byte_rgb (channel_average cands)).
  { assert (Hchan : forall f : RGB -> Z,
              (forall c, byte_rgb c -> byte (f c)) ->
              byte (sumZ (map f cands) / Z.of_nat (length cands))).
    { intros f Hf. rewrite <- (length_map f cands).
      apply sum_average_byte, Forall_fmap.
      eapply Forall_impl; [exact Hcands|]. exact Hf. }
    unfold channel_average, byte_rgb.
    repeat split; apply Hchan; intros [[r g] b] (Hr & Hg & Hb); done. }
  destruct cands as [|c1 [|c2 cands]]; [done| |done].
  by apply Forall_inv in Hcands.
Qed.

End DetectFacts2.

(** On an image with at least one pixel the detector returns
    [pick_color] of the RGB values of the four corner pixels. *)
Lemma detect_bg_color_sampled
  (convert_rgba : Image -> Image) (im : Image) :
  let px := convert_rgba im in
  wf_image px -> 1 <= width px -> 1 <= height px ->
  exists p00 p10 p01 p11,
    p00 ∈ im_data px /\ p10 ∈ im_data px
    /\ p01 ∈ im_data px /\ p11 ∈ im_data px
    /\ detect_bg_color convert_rgba im
       = Ok (pick_color [rgb_of p00; rgb_of p10; rgb_of p01; rgb_of p11]).
Proof.
  intros px Hwf Hw Hh.
  destruct (getpixel_in_range px 0 0) as (p00 & L00 & G00); [done|lia|lia|].
  destruct (getpixel_in_range px (width px - 1) 0) as (p10 & L10 & G10);
    [done|lia|lia|].
  destruct (getpixel_in_range px 0 (height px - 1)) as (p01 & L01 & G01);
    [done|lia|lia|].
  destruct (getpixel_in_range px (width px - 1) (height px - 1))
    as (p11 & L11 & G11); [done|lia|lia|].
  exists p00, p10, p01, p11.
  repeat (split; [by eapply list_elem_of_lookup_2|]).
  unfold detect_bg_color. fold px.
  assert (Hsz : im_size px = (width px, height px))
    by (unfold width, height; by destruct (im_size px)).
  rewrite Hsz. unfold corners. cbn [mapM].
  rewrite G00, G10, G01, G11. reflexivity.
Qed.

(** X6: the detected color does not depend on the order of the four
    samples: mirroring or turning the image leaves it unchanged. *)
Theorem pick_color_order (colors colors' : list RGB) :
  colors ≡ₚ colors' -> pick_color colors = pick_color colors'.
Proof.
  intros H. destruct colors as [|c0 colors].
  { apply Permutation_nil_l in H. by subst. }
  destruct (DetectFacts.pick_color_modes (c0 :: colors))
    as (cands & Hc & ->); [done|].
  destruct (DetectFacts.pick_color_modes colors') as (cands' & Hc' & ->).
  { intros ->. by apply Permutation_nil_r in H. }
  assert (Hcc : cands ≡ₚ cands').
  { rewrite Hc, Hc'. by apply DetectFacts2.modes_Permutation. }
  destruct cands as [|c1 [|c2 cands]].
  - apply Permutation_nil_l in Hcc. by subst.
  - symmetry in Hcc. apply Permutation_singleton_r in Hcc. by subst.
  - pose proof (Permutation_length Hcc) as Hlen.
    destruct cands' as [|d1 [|d2 cands']]; simpl in Hlen; try lia.
    by apply DetectFacts.channel_average_Permutation.
Qed.

Lemma pick_color_order_witness :
  pick_color [(1, 2, 3); (9, 9, 9); (1, 2, 3); (7, 7, 7)]
  = pick_color [(7, 7, 7); (1, 2, 3); (9, 9, 9); (1, 2, 3)].
Proof.
  apply pick_color_order.
  change ([(1, 2, 3); (9, 9, 9); (1, 2, 3); (7, 7, 7)]
          ≡ₚ [(7, 7, 7)] ++ [(1, 2, 3); (9, 9, 9); (1, 2, 3)]).
  rewrite Permutation_app_comm. reflexivity.
Defined.

(** X7: on a well-formed image with at least one pixel the detector
    returns a color whose channels are bytes, also when it averages. *)
Theorem detect_bg_color_byte (convert_rgba : Image -> Image) (im : Image) :
  let px := convert_rgba im in
  wf_image px -> 1 <= width px -> 1 <= height px ->
  exists c, detect_bg_color convert_rgba im = Ok c /\ byte_rgb c.
Proof.
  intros px Hwf Hw Hh.
  destruct (detect_bg_color_sampled convert_rgba im Hwf Hw Hh)
    as (p00 & p10 & p01 & p11 & H00 & H10 & H01 & H11 & Hdet).
  eexists. split; [exact Hdet|].
  apply DetectFacts2.pick_color_byte; [done|].
  destruct Hwf as (_ & _ & _ & Hbytes). rewrite Forall_forall in Hbytes.
  assert (Hrgb : forall p, p ∈ im_data px -> byte_rgb (rgb_of p)).
  { intros p Hp. specialize (Hbytes p Hp).
    destruct p as [[[r g] b] a]. destruct Hbytes as (Hr & Hg & Hb & _).
    simpl. done. }
  repeat constructor; by apply Hrgb.
Qed.

Lemma detect_bg_color_byte_witness :
  exists c, detect_bg_color Sample.convert_rgba Sample.two_pairs = Ok c
            /\ byte_rgb c.
Proof.
  apply (detect_bg_color_byte Sample.convert_rgba Sample.two_pairs).
  - exact two_pairs_wf.
  - cbn. lia.
  - cbn. lia.
Defined.

(** X8: on an image of width or height 0 the detector raises
    [IndexError]: there is no corner to read. *)
Theorem detect_bg_color_empty (convert_rgba : Image -> Image) (im : Image) :
  let px := convert_rgba im in
  0 <= width px -> 0 <= height px ->
  width px = 0 \/ height px = 0 ->
  detect_bg_color convert_rgba im = Raise IndexError.
Proof.
  intros px Hw Hh Hzero.
  assert (Hget : getpixel px (0, 0) = Raise IndexError).
  { unfold getpixel, width, height in *.
    destruct (im_size px) as [w h]. simpl in *.
    destruct Hzero as [-> | ->]; [reflexivity|].
    by destruct (0 <? w). }
  unfold detect_bg_color. fold px.
  destruct (im_size px) as [w h]. unfold corners. cbn [mapM].
  by rewrite Hget.
Qed.

Lemma detect_bg_color_empty_witness :
  detect_bg_color Sample.convert_rgba (mkImage ModeRGBA (0, 5) [])
  = Raise IndexError.
Proof.
  apply (detect_bg_color_empty Sample.convert_rgba
           (mkImage ModeRGBA (0, 5) [])); cbn; lia.
Defined.

(** ** Background keyer *)

Module LoopFacts2.

Lemma mapM_id {A} (f : A -> result A) l :
  Forall (fun a => f a = Ok a) l -> mapM f l = Ok l.
Proof.
  induction 1 as [|a l Ha _ IH]; simpl; [done|]. by rewrite Ha, IH.
Qed.

Lemma mapM_first_raise {A B} (f : A -> result B) l e :
  (forall a e', f a = Raise e' -> e' = e) ->
  Exists (fun a => f a = Raise e) l -> mapM f l = Raise e.
Proof.
  intros Honly Hex. destruct (mapM f l) as [l'|e'] eqn:E.
  - apply Exists_exists in Hex as (a & Ha & Hfa).
    apply list_elem_of_lookup in Ha as [i Hi].
    destruct (LoopFacts.mapM_lookup f l l' i a E Hi) as (b & _ & Hb).
    congruence.
  - apply LoopFacts.mapM_raise in E as (a & _ & Hfa).
    by rewrite (Honly a e' Hfa).
Qed.

End LoopFacts2.

Lemma image_eta (im : Image) :
  mkImage (im_mode im) (im_size im) (im_data im) = im.
Proof. by destruct im. Qed.

(** A pixel that is not fully transparent and has the background color. *)
Lemma keyed_pixel_zero_tolerance scaled_alpha bg p :
  keyed_pixel scaled_alpha bg 0 p =
  if decide (alpha_of p <> 0 /\ rgb_of p = bg)
  then Raise ZeroDivisionError else Ok p.
Proof.
  destruct p as [[[r g] b] a]. unfold keyed_pixel. simpl alpha_of.
  simpl rgb_of.
  pose proof (color_distance_sq_nonneg (r, g, b) bg) as Hn.
  destruct (Z.eqb_spec a 0) as [->|Ha].
  - rewrite decide_False; [done|]. intros [? _]. done.
  - destruct (Z.leb_spec (color_distance_sq (r, g, b) bg) 0) as [Hle|Hgt].
    + assert (Hz : color_distance_sq (r, g, b) bg = 0) by lia.
      apply color_distance_sq_zero in Hz.
      rewrite decide_True; done.
    + rewrite decide_False; [done|]. intros [_ <-].
      rewrite color_distance_sq_same in Hgt. lia.
Qed.

(** X9: with tolerance 0 the keyer raises [ZeroDivisionError] exactly
    when some pixel is not fully transparent and has exactly the
    background color; otherwise it returns the RGBA copy unchanged. *)
Theorem make_bg_transparent_tolerance_zero
  (convert_rgba : Image -> Image) (scaled_alpha : Z -> Z -> Z -> Z)
  (im : Image) (bg : RGB) :
  let px := convert_rgba im in
  let hit (p : Pixel) := alpha_of p <> 0 /\ rgb_of p = bg in
  wf_image px ->
  (Exists hit (im_data px) ->
   make_bg_transparent convert_rgba scaled_alpha im bg 0
   = Raise ZeroDivisionError)
  /\ (~ Exists hit (im_data px) ->
      make_bg_transparent convert_rgba scaled_alpha im bg 0 = Ok px).
Proof.
  intros px hit Hwf.
  rewrite make_bg_transparent_keyed by done. fold px.
  change (0 * 0 * 3) with 0. split.
  - intros Hex.
    rewrite (LoopFacts2.mapM_first_raise _ _ ZeroDivisionError); [done| |].
    + intros p e'. rewrite keyed_pixel_zero_tolerance.
      destruct (decide _); congruence.
    + eapply Exists_impl; [exact Hex|]. intros p Hp.
      rewrite keyed_pixel_zero_tolerance. by rewrite decide_True.
  - intros Hno. rewrite LoopFacts2.mapM_id.
    + cbn [bind]. by rewrite image_eta.
    + apply Forall_forall. intros p Hp.
      rewrite keyed_pixel_zero_tolerance. rewrite decide_False; [done|].
      intros Hhit. apply Hno, Exists_exists. eauto.
Qed.

Lemma make_bg_transparent_tolerance_zero_witness :
  make_bg_transparent Sample.convert_rgba Sample.scaled_alpha
    Sample.patch Sample.white 0 = Raise ZeroDivisionError.
Proof.
  apply (make_bg_transparent_tolerance_zero
           Sample.convert_rgba Sample.scaled_alpha Sample.patch Sample.white).
  - exact SampleFacts.patch_wf.
  - apply Exists_cons_hd. split; [cbn; lia | reflexivity].
Defined.

(** X10: an image in which every pixel is fully transparent or farther
    from the background than the tolerance passes through the keyer
    unchanged, whatever the tolerance. *)
Theorem make_bg_transparent_foreground_only
  (convert_rgba : Image -> Image) (scaled_alpha : Z -> Z -> Z -> Z)
  (im : Image) (bg : RGB) (tolerance : Z) :
  let px := convert_rgba im in
  wf_image px ->
  Forall (fun p => alpha_of p = 0
                   \/ tolerance * tolerance * 3
                      < color_distance_sq (rgb_of p) bg) (im_data px) ->
  make_bg_transparent convert_rgba scaled_alpha im bg tolerance = Ok px.
Proof.
  intros px Hwf Hfar.
  rewrite make_bg_transparent_keyed by done. fold px.
  rewrite LoopFacts2.mapM_id.
  - cbn [bind]. by rewrite image_eta.
  - eapply Forall_impl; [exact Hfar|]. intros p [Ha|Hd].
    + by apply keyed_transparent.
    + by apply keyed_far.
Qed.

Lemma make_bg_transparent_foreground_only_witness :
  make_bg_transparent Sample.convert_rgba Sample.scaled_alpha
    Sample.red_dot Sample.white 18 = Ok (Sample.convert_rgba Sample.red_dot).
Proof.
  apply (make_bg_transparent_foreground_only
           Sample.convert_rgba Sample.scaled_alpha Sample.red_dot
           Sample.white 18).
  - unfold wf_image. cbn. repeat split; try lia.
    repeat constructor; unfold byte; lia.
  - constructor; [|constructor].
    right. vm_compute. reflexivity.
Defined.

(** X11: when the float expression stays between 0 and the alpha it
    scales, the keyed image is again well formed: same size, one pixel
    per position, every channel a byte. *)
Theorem make_bg_transparent_wf
  (convert_rgba : Image -> Image) (scaled_alpha : Z -> Z -> Z -> Z)
  (im : Image) (bg : RGB) (tolerance : Z) :
  let px := convert_rgba im in
  (forall a d, 0 < a <= 255 -> 0 <= d <= tolerance * tolerance * 3 ->
               0 <= scaled_alpha a d (tolerance * tolerance * 3) <= a) ->
  wf_image px -> 0 < tolerance ->
  exists out,
    make_bg_transparent convert_rgba scaled_alpha im bg tolerance = Ok out
    /\ im_size out = im_size px
    /\ wf_image out.
Proof.
  intros px Hrange Hwf Htol.
  destruct (make_bg_transparent_pixels convert_rgba scaled_alpha im bg
              tolerance Hwf Htol) as (out & Hout & _ & Hsize & Hlen & Hpix).
  exists out. split; [done|]. split; [done|].
  destruct Hwf as (Hw & Hh & Hl & Hbytes).
  unfold wf_image, width, height in *. rewrite Hsize.
  split; [done|]. split; [done|]. split; [etransitivity; [exact Hlen | exact Hl]|].
  apply Forall_forall. intros p' Hp'.
  apply list_elem_of_lookup in Hp' as [i Hi].
  destruct (lookup_lt_is_Some_2 (im_data px) i) as [p Hp].
  { apply lookup_lt_Some in Hi. unfold px. rewrite <- Hlen. exact Hi. }
  destruct (Hpix i p Hp) as (q & Hq & Hkey).
  assert (q = p') by congruence. subst q.
  rewrite Forall_forall in Hbytes.
  assert (Hb : byte_pixel p) by (apply Hbytes; by eapply list_elem_of_lookup_2).
  destruct p as [[[r g] b] a]. destruct Hb as (Hr & Hg & Hbb & Ha).
  unfold keyed_pixel in Hkey. revert Hkey.
  destruct (a =? 0) eqn:Ea;
    [intros Hkey; injection Hkey as Hkey; subst p'; done|].
  destruct (_ <=? _) eqn:Ed;
    [|intros Hkey; injection Hkey as Hkey; subst p'; done].
  destruct (tolerance * tolerance * 3 =? 0); [done|].
  intros Hkey; injection Hkey as Hkey; subst p'.
  apply Z.eqb_neq in Ea. apply Z.leb_le in Ed. unfold byte in *.
  pose proof (color_distance_sq_nonneg (r, g, b) bg).
  specialize (Hrange a (color_distance_sq (r, g, b) bg) ltac:(lia) ltac:(lia)).
  simpl. unfold byte. lia.
Qed.

Lemma make_bg_transparent_wf_witness :
  exists out,
    make_bg_transparent Sample.convert_rgba Sample.scaled_alpha
      Sample.patch Sample.white 10 = Ok out
    /\ im_size out = im_size (Sample.convert_rgba Sample.patch)
    /\ wf_image out.
Proof.
  apply (make_bg_transparent_wf
           Sample.convert_rgba Sample.scaled_alpha Sample.patch Sample.white 10).
  - intros a d Ha Hd. split.
    + apply Z.sqrt_nonneg.
    + apply SampleFacts.scaled_alpha_le; lia.
  - exact SampleFacts.patch_wf.
  - lia.
Defined.
(** ** Resize and pad *)

Lemma div255_byte x a : byte x -> byte a -> byte (div255 (x * a)).
Proof.
  intros Hx Ha.
  pose (chk := fun x => forallb (fun a =>
     (0 <=? div255 (x * a)) && (div255 (x * a) <=? 255)) (seqZ 0 256)).
  assert (G : chk x = true).
  { revert x Hx. apply byte_forall. vm_compute. reflexivity. }
  unfold chk in G.
  pose proof (byte_forall _ G a Ha) as Hb. cbv beta in Hb.
  apply andb_true_iff in Hb as [H1 H2]. unfold byte. lia.
Qed.

Lemma self_masked_byte p : byte_pixel p -> byte_pixel (self_masked p).
Proof.
  destruct p as [[[r g] b] a]. intros (Hr & Hg & Hb & Ha). simpl.
  repeat split; apply div255_byte; done.
Qed.

(** Whenever [resize_and_pad] returns, it returns a canvas of the target
    size in RGBA mode. *)
Lemma resize_and_pad_frame
  (convert_rgba : Image -> Image) (resize : Image -> Z * Z -> Image)
  (im out : Image) (target_w target_h : Z) :
  resize_and_pad convert_rgba resize im target_w target_h = Ok out ->
  im_mode out = ModeRGBA
  /\ im_size out = (target_w, target_h)
  /\ length (im_data out) = Z.to_nat (target_w * target_h).
Proof.
  unfold resize_and_pad. destruct (im_size (convert_rgba im)) as [w h].
  destruct ((w =? 0) || (h =? 0)); [done|].
  destruct (layout target_w target_h w h) as [[sz xy]|]; [|done].
  cbn [bind].
  destruct (new_image ModeRGBA (target_w, target_h) (0, 0, 0, 0))
    as [canvas|] eqn:Ecanvas; [|done].
  apply new_image_inv in Ecanvas as [-> _].
  cbn [bind]. intros [= <-].
  match goal with
  | |- context [paste ?d ?s ?p ?k] =>
      destruct (paste_frame d s k p) as (Hm & Hs & Hl)
  end.
  rewrite Hm, Hs, Hl. cbn [blank_image im_mode im_size im_data].
  by rewrite length_replicate.
Qed.

(** What [resize_and_pad] returns: the paste of the resized image. *)
Lemma resize_and_pad_paste
  (convert_rgba : Image -> Image) (resize : Image -> Z * Z -> Image)
  (im out : Image) (target_w target_h : Z) :
  resize_and_pad convert_rgba resize im target_w target_h = Ok out ->
  exists new_w new_h x y,
    layout target_w target_h (width (convert_rgba im))
           (height (convert_rgba im)) = Ok ((new_w, new_h), (x, y))
    /\ x = (target_w - new_w) / 2 /\ y = (target_h - new_h) / 2
    /\ out = paste (blank_image ModeRGBA (target_w, target_h) (0, 0, 0, 0))
                   (resize (convert_rgba im) (new_w, new_h)) (x, y)
                   (resize (convert_rgba im) (new_w, new_h)).
Proof.
  unfold resize_and_pad, width, height.
  destruct (im_size (convert_rgba im)) as [w h]. cbn [fst snd].
  destruct ((w =? 0) || (h =? 0)); [done|].
  destruct (layout target_w target_h w h) as [[[nw nh] [x y]]|] eqn:El;
    [|done].
  cbn [bind].
  destruct (new_image ModeRGBA (target_w, target_h) (0, 0, 0, 0))
    as [canvas|] eqn:Ecanvas; [|done].
  apply new_image_inv in Ecanvas as [-> _].
  cbn [bind]. intros [= <-]. exists nw, nh, x, y.
  split; [done|]. split; [|split; [|done]].
  - unfold layout in El.
    destruct (F64.true_div target_w w); [|done].
    destruct (F64.true_div target_h h); [|done]. cbn [bind] in El.
    destruct (F64.round _); [|done].
    destruct (F64.round _); [|done]. cbn [bind] in El.
    by injection El as <- <- <- <-.
  - unfold layout in El.
    destruct (F64.true_div target_w w); [|done].
    destruct (F64.true_div target_h h); [|done]. cbn [bind] in El.
    destruct (F64.round _); [|done].
    destruct (F64.round _); [|done]. cbn [bind] in El.
    by injection El as <- <- <- <-.
Qed.

Lemma translucent_resize (size : Z * Z) :
  im_size (Sample.resize (Sample.convert_rgba Sample.translucent) size) = size
  /\ length (im_data (Sample.resize (Sample.convert_rgba Sample.translucent)
                                    size))
     = Z.to_nat (size.1 * size.2).
Proof.
  apply sample_resize_size.
  rewrite (sample_convert_rgba_id Sample.translucent eq_refl).
  apply length_replicate.
Qed.

Lemma translucent_width :
  1 <= width (Sample.convert_rgba Sample.translucent) < 2 ^ 31.
Proof.
  unfold width. cbn [Sample.convert_rgba Sample.translucent im_size fst].
  unfold TARGET_W. lia.
Qed.

Lemma translucent_height :
  1 <= height (Sample.convert_rgba Sample.translucent) < 2 ^ 31.
Proof.
  unfold height. cbn [Sample.convert_rgba Sample.translucent im_size snd].
  unfold TARGET_H. lia.
Qed.

(** X12: the padding is fully transparent: with the content box that
    [layout] computes for the image and the target, every canvas pixel
    outside the box is (0, 0, 0, 0).  Sizes are from 1 to [2^31 - 1] and
    Pillow's [resize] returns an image of the requested size. *)
Theorem resize_and_pad_padding
  (convert_rgba : Image -> Image) (resize : Image -> Z * Z -> Image)
  (im : Image) (target_w target_h : Z) :
  let px := convert_rgba im in
  (forall size, im_size (resize px size) = size) ->
  1 <= target_w < 2 ^ 31 -> 1 <= target_h < 2 ^ 31 ->
  1 <= width px < 2 ^ 31 -> 1 <= height px < 2 ^ 31 ->
  exists new_w new_h x y out,
    layout target_w target_h (width px) (height px)
    = Ok ((new_w, new_h), (x, y))
    /\ resize_and_pad convert_rgba resize im target_w target_h = Ok out
    /\ forall cx cy,
         0 <= cx < target_w -> 0 <= cy < target_h ->
         cx < x \/ x + new_w <= cx \/ cy < y \/ y + new_h <= cy ->
         im_data out !! offset target_w cx cy = @Some Pixel (0, 0, 0, 0).
Proof.
  intros px Hsize Htw Hth Hw Hh.
  destruct (resize_and_pad_pixels convert_rgba resize im target_w target_h
              Htw Hth Hw Hh)
    as (new_w & new_h & out & Hlay & _ & _ & _ & _ & _ & _ & Hres & Hpix).
  exists new_w, new_h, ((target_w - new_w) / 2), ((target_h - new_h) / 2), out.
  split; [exact Hlay|]. split; [exact Hres|].
  intros cx cy Hcx Hcy Hout.
  rewrite (Hpix (Hsize _) cx cy Hcx Hcy). f_equal.
  set (x := (target_w - new_w) / 2) in *.
  set (y := (target_h - new_h) / 2) in *.
  destruct (Z.leb_spec x cx), (Z.ltb_spec cx (x + new_w)),
    (Z.leb_spec y cy), (Z.ltb_spec cy (y + new_h));
    cbn [andb]; try done; lia.
Qed.

Lemma resize_and_pad_padding_witness :
  let px := Sample.convert_rgba Sample.translucent in
  exists new_w new_h x y out,
    layout 400 320 (width px) (height px) = Ok ((new_w, new_h), (x, y))
    /\ resize_and_pad Sample.convert_rgba Sample.resize Sample.translucent
         400 320 = Ok out
    /\ forall cx cy,
         0 <= cx < 400 -> 0 <= cy < 320 ->
         cx < x \/ x + new_w <= cx \/ cy < y \/ y + new_h <= cy ->
         im_data out !! offset 400 cx cy = @Some Pixel (0, 0, 0, 0).
Proof.
  apply (resize_and_pad_padding Sample.convert_rgba Sample.resize
           Sample.translucent 400 320).
  - intros size. apply translucent_resize.
  - lia.
  - lia.
  - exact translucent_width.
  - exact translucent_height.
Defined.

(** X13: the content is the resized image: with the content box that
    [layout] computes, every canvas pixel inside the box is the pixel of
    the resized image at that place of the box, blended by its own alpha
    onto transparency; an opaque pixel is copied and a pixel of alpha 0
    leaves (0, 0, 0, 0).  Sizes are from 1 to [2^31 - 1] and Pillow's
    [resize] returns an image of the requested size. *)
Theorem resize_and_pad_content
  (convert_rgba : Image -> Image) (resize : Image -> Z * Z -> Image)
  (im : Image) (target_w target_h : Z) :
  let px := convert_rgba im in
  (forall size,
     im_size (resize px size) = size
     /\ length (im_data (resize px size)) = Z.to_nat (size.1 * size.2)) ->
  1 <= target_w < 2 ^ 31 -> 1 <= target_h < 2 ^ 31 ->
  1 <= width px < 2 ^ 31 -> 1 <= height px < 2 ^ 31 ->
  exists new_w new_h x y out,
    layout target_w target_h (width px) (height px)
    = Ok ((new_w, new_h), (x, y))
    /\ resize_and_pad convert_rgba resize im target_w target_h = Ok out
    /\ forall cx cy,
         x <= cx < x + new_w -> y <= cy < y + new_h ->
         0 <= cx < target_w /\ 0 <= cy < target_h
         /\ exists p,
              im_data (resize px (new_w, new_h))
                !! offset new_w (cx - x) (cy - y) = Some p
              /\ im_data out !! offset target_w cx cy = Some (self_masked p)
              /\ (byte_pixel p -> alpha_of p = 255 ->
                  im_data out !! offset target_w cx cy = Some p)
              /\ (alpha_of p = 0 ->
                  im_data out !! offset target_w cx cy
                  = @Some Pixel (0, 0, 0, 0)).
Proof.
  intros px Hresize Htw Hth Hw Hh.
  destruct (resize_and_pad_pixels convert_rgba resize im target_w target_h
              Htw Hth Hw Hh)
    as (new_w & new_h & out & Hlay & _ & _ & Hx0 & Hx1 & Hy0 & Hy1 & Hres
        & Hpix).
  exists new_w, new_h, ((target_w - new_w) / 2), ((target_h - new_h) / 2), out.
  split; [exact Hlay|]. split; [exact Hres|].
  fold px in Hpix.
  set (x := (target_w - new_w) / 2) in *.
  set (y := (target_h - new_h) / 2) in *.
  intros cx cy Hbx Hby.
  assert (Hcx : 0 <= cx < target_w) by lia.
  assert (Hcy : 0 <= cy < target_h) by lia.
  split; [done|]. split; [done|].
  specialize (Hpix (proj1 (Hresize (new_w, new_h))) cx cy Hcx Hcy).
  rewrite (proj2 (Z.leb_le x cx)), (proj2 (Z.ltb_lt cx (x + new_w))),
    (proj2 (Z.leb_le y cy)), (proj2 (Z.ltb_lt cy (y + new_h)))
    in Hpix by lia.
  cbn [andb] in Hpix.
  destruct (lookup_lt_is_Some_2 (im_data (resize px (new_w, new_h)))
              (offset new_w (cx - x) (cy - y))) as [p Hp].
  { rewrite (proj2 (Hresize (new_w, new_h))). cbn [fst snd].
    apply offset_lt; lia. }
  exists p. rewrite Hp in Hpix. split; [done|]. split; [done|]. split.
  - intros Hbyte Ha. by rewrite Hpix, self_masked_opaque.
  - intros Ha. by rewrite Hpix, self_masked_transparent.
Qed.

Lemma resize_and_pad_content_witness :
  let px := Sample.convert_rgba Sample.translucent in
  exists new_w new_h x y out,
    layout 400 320 (width px) (height px) = Ok ((new_w, new_h), (x, y))
    /\ resize_and_pad Sample.convert_rgba Sample.resize Sample.translucent
         400 320 = Ok out
    /\ forall cx cy,
         x <= cx < x + new_w -> y <= cy < y + new_h ->
         0 <= cx < 400 /\ 0 <= cy < 320
         /\ exists p,
              im_data (Sample.resize px (new_w, new_h))
                !! offset new_w (cx - x) (cy - y) = Some p
              /\ im_data out !! offset 400 cx cy = Some (self_masked p)
              /\ (byte_pixel p -> alpha_of p = 255 ->
                  im_data out !! offset 400 cx cy = Some p)
              /\ (alpha_of p = 0 ->
                  im_data out !! offset 400 cx cy
                  = @Some Pixel (0, 0, 0, 0)).
Proof.
  apply (resize_and_pad_content Sample.convert_rgba Sample.resize
           Sample.translucent 400 320).
  - exact translucent_resize.
  - lia.
  - lia.
  - exact translucent_width.
  - exact translucent_height.
Defined.

Lemma resize_and_pad_wide_canvas :
  resize_and_pad Sample.convert_rgba Sample.resize Sample.translucent 400 320
  = Ok (paste (blank_image ModeRGBA (400, 320) (0, 0, 0, 0))
              Sample.translucent (15, 0) Sample.translucent).
Proof.
  unfold resize_and_pad.
  change (im_size (Sample.convert_rgba Sample.translucent)) with (370, 320).
  change ((370 =? 0) || (320 =? 0)) with false. cbv iota.
  change (layout 400 320 370 320)
    with (Ok (370, 320, (15, 0)) : result (Z * Z * (Z * Z))).
  cbn [bind]. cbv zeta.
  rewrite (sample_convert_rgba_id Sample.translucent eq_refl).
  change (370, 320) with (im_size Sample.translucent).
  rewrite sample_resize_id.
  by rewrite new_image_ok by lia.
Qed.

(** X14: when the resized image holds bytes, so does the canvas: the
    result is a well-formed image of the target size. *)
Theorem resize_and_pad_wf
  (convert_rgba : Image -> Image) (resize : Image -> Z * Z -> Image)
  (im out : Image) (target_w target_h : Z) :
  (forall size, Forall byte_pixel (im_data (resize (convert_rgba im) size))) ->
  0 <= target_w -> 0 <= target_h ->
  resize_and_pad convert_rgba resize im target_w target_h = Ok out ->
  wf_image out /\ im_size out = (target_w, target_h).
Proof.
  intros Hbytes Htw Hth Hres.
  destruct (resize_and_pad_frame _ _ _ _ _ _ Hres) as (Hm & Hs & Hl).
  split; [|done]. unfold wf_image, width, height. rewrite Hs. cbn [fst snd].
  repeat (split; [done|]).
  destruct (resize_and_pad_paste _ _ _ _ _ _ Hres)
    as (nw & nh & x & y & _ & _ & _ & Hout).
  apply Forall_forall. intros q Hq.
  apply list_elem_of_lookup in Hq as [i Hi].
  assert (Hlt : (i < Z.to_nat (target_w * target_h))%nat).
  { rewrite <- Hl. by eapply lookup_lt_Some. }
  assert (Htw' : 0 < target_w) by nia.
  set (cx := Z.of_nat i mod target_w).
  set (cy := Z.of_nat i / target_w).
  assert (Hcx : 0 <= cx < target_w) by (apply Z.mod_pos_bound; lia).
  assert (Hcy : 0 <= cy < target_h).
  { split; [apply Z.div_pos; lia|]. apply Z.div_lt_upper_bound; nia. }
  assert (Hoff : offset target_w cx cy = i).
  { unfold offset, cx, cy.
    rewrite (Z.mul_comm _ target_w), <- Z.div_mod by lia. lia. }
  rewrite Hout, <- Hoff, paste_canvas_pixel in Hi by done.
  injection Hi as <-.
  set (resized := resize (convert_rgba im) (nw, nh)) in *.
  assert (Hzero : byte_pixel (0, 0, 0, 0))
    by (unfold byte_pixel, byte; lia).
  destruct (_ && _); [|done].
  destruct (im_data resized !! _) as [p|] eqn:Hp; [|done].
  apply self_masked_byte.
  specialize (Hbytes (nw, nh)). rewrite Forall_forall in Hbytes.
  apply Hbytes. by eapply list_elem_of_lookup_2.
Qed.

Lemma sample_resize_bytes (im : Image) (size : Z * Z) :
  Forall byte_pixel (im_data im) ->
  Forall byte_pixel (im_data (Sample.resize im size)).
Proof.
  intros H. unfold Sample.resize. destruct (decide _); [done|].
  unfold blank_image. destruct size as [w h]. cbn [im_data].
  apply Forall_replicate.
  destruct (im_data im) as [|p l]; cbn.
  - unfold byte; lia.
  - by apply Forall_inv in H.
Qed.

Lemma resize_and_pad_wf_witness :
  wf_image (paste (blank_image ModeRGBA (400, 320) (0, 0, 0, 0))
                  Sample.translucent (15, 0) Sample.translucent)
  /\ im_size (paste (blank_image ModeRGBA (400, 320) (0, 0, 0, 0))
                    Sample.translucent (15, 0) Sample.translucent)
     = (400, 320).
Proof.
  apply (resize_and_pad_wf Sample.convert_rgba Sample.resize
           Sample.translucent _ 400 320).
  - intros size. apply sample_resize_bytes.
    rewrite (sample_convert_rgba_id Sample.translucent eq_refl).
    apply translucent_wf.
  - lia.
  - lia.
  - exact resize_and_pad_wide_canvas.
Defined.

(** ** Output names *)

Module PathFacts.
Import PathLib.

Lemma rfind_from_absent c s i last :
  contains c s = false -> rfind_from c s i last = last.
Proof.
  revert i last. induction s as [|d s IH]; intros i last; simpl; [done|].
  intros [Hd Hs]%orb_false_iff.
  rewrite Ascii.eqb_sym, Hd. by apply IH.
Qed.

Lemma rfind_from_last c a b i last :
  contains c b = false ->
  rfind_from c (a ++ c :: b) i last = i + Z.of_nat (length a).
Proof.
  intros Hb. revert i last.
  induction a as [|d a IH]; intros i last; simpl.
  - rewrite Ascii.eqb_refl, rfind_from_absent by done. lia.
  - rewrite IH. lia.
Qed.

Lemma rfind_last c a b :
  contains c b = false -> rfind c (a ++ c :: b) = Z.of_nat (length a).
Proof. intros Hb. unfold rfind. by rewrite rfind_from_last. Qed.

(** The suffix of a stem followed by a dot and an extension. *)
Lemma suffix_stem_ext stem ext :
  stem <> [] -> ext <> [] -> contains "." ext = false ->
  suffix (stem ++ "."%char :: ext) = "."%char :: ext.
Proof.
  intros Hstem Hext Hdot. unfold suffix. rewrite rfind_last by done.
  rewrite length_app. cbn [length].
  assert (0 < length stem)%nat by (destruct stem; [done | simpl; lia]).
  assert (0 < length ext)%nat by (destruct ext; [done | simpl; lia]).
  rewrite (proj2 (Z.ltb_lt 0 _)), (proj2 (Z.ltb_lt _ _)) by lia.
  cbn [andb]. rewrite Nat2Z.id. by rewrite drop_app_length.
Qed.

(** A name splits into what [with_suffix] keeps and its suffix. *)
Lemma suffix_split n :
  n <> [] ->
  exists stem, stem <> []
    /\ n = stem ++ suffix n
    /\ take (length n - length (suffix n)) n = stem.
Proof.
  intros Hn. unfold suffix.
  destruct ((0 <? rfind "." n) && (rfind "." n <? Z.of_nat (length n) - 1))
    eqn:E.
  - apply andb_true_iff in E as [E1%Z.ltb_lt E2%Z.ltb_lt].
    exists (take (Z.to_nat (rfind "." n)) n).
    rewrite length_drop.
    replace (length n - (length n - Z.to_nat (rfind "." n)))%nat
      with (Z.to_nat (rfind "." n)) by lia.
    split; [|split; [by rewrite take_drop | done]].
    intros Hnil. apply (f_equal length) in Hnil.
    rewrite length_take in Hnil. simpl in Hnil. lia.
  - exists n. rewrite app_nil_r. cbn [length]. rewrite Nat.sub_0_r.
    split; [done|]. split; [done|]. apply firstn_all.
Qed.

Lemma with_suffix_name_png n :
  n <> [] ->
  exists stem, stem <> []
    /\ n = stem ++ suffix n
    /\ with_suffix_name n png = Ok (stem ++ png).
Proof.
  intros Hn. destruct (suffix_split n Hn) as (stem & Hstem & Hsplit & Htake).
  exists stem. split; [done|]. split; [done|].
  unfold with_suffix_name.
  change (contains "/" png) with false.
  change ((negb (length png =? 0)%nat && negb (Str.startswith "." png))
          || (if decide (png = ["."%char]) then true else false)) with false.
  cbv iota.
  destruct (Nat.eqb_spec (length n) 0) as [H0|_].
  { destruct n; [done | simpl in H0; lia]. }
  destruct (Nat.eqb_spec (length (suffix n)) 0) as [H0|_].
  - apply nil_length_inv in H0. rewrite H0, app_nil_r in Hsplit.
    by rewrite <- Hsplit.
  - by rewrite Htake.
Qed.

End PathFacts.

(** X15: for a path with a name, [with_suffix('.png')] keeps the
    directory and returns a name that ends in the suffix [.png];
    applying it again changes nothing.  A path without a name raises
    [ValueError]. *)
Theorem with_suffix_png (p : PathLib.path) :
  (PathLib.name p <> [] ->
   exists q,
     PathLib.with_suffix p PathLib.png = Ok q
     /\ PathLib.parent q = PathLib.parent p
     /\ PathLib.suffix (PathLib.name q) = PathLib.png
     /\ PathLib.with_suffix q PathLib.png = Ok q)
  /\ (PathLib.name p = [] ->
      PathLib.with_suffix p PathLib.png = Raise ValueError).
Proof.
  split.
  - intros Hn.
    destruct (PathFacts.with_suffix_name_png _ Hn)
      as (stem & Hstem & _ & Hws).
    exists (PathLib.mkPath (PathLib.parent p) (stem ++ PathLib.png)).
    assert (Hsfx : PathLib.suffix (stem ++ PathLib.png) = PathLib.png).
    { apply (PathFacts.suffix_stem_ext stem
               (list_ascii_of_string "png")); done. }
    unfold PathLib.with_suffix. rewrite Hws. cbn [bind PathLib.name
      PathLib.parent].
    split; [done|]. split; [done|]. split; [done|].
    destruct (PathFacts.with_suffix_name_png (stem ++ PathLib.png))
      as (stem' & _ & Hsplit & ->).
    { by destruct stem. }
    rewrite Hsfx in Hsplit. apply app_inv_tail in Hsplit. by subst.
  - intros Hn. unfold PathLib.with_suffix, PathLib.with_suffix_name.
    rewrite Hn. reflexivity.
Qed.

Lemma with_suffix_png_witness :
  exists q,
    PathLib.with_suffix
      (PathLib.mkPath "in" (list_ascii_of_string "cat.tar.JPG")) PathLib.png
    = Ok q
    /\ PathLib.parent q = "in"%string
    /\ PathLib.suffix (PathLib.name q) = PathLib.png
    /\ PathLib.with_suffix q PathLib.png = Ok q.
Proof.
  apply (proj1 (with_suffix_png
                  (PathLib.mkPath "in" (list_ascii_of_string "cat.tar.JPG")))).
  discriminate.
Defined.

(** X16: the output name depends on the stem only: two names that
    differ in their extension get the same [.png] name, so their
    outputs collide. *)
Theorem with_suffix_collision (stem ext1 ext2 : list ascii) :
  stem <> [] ->
  ext1 <> [] -> PathLib.contains "." ext1 = false ->
  ext2 <> [] -> PathLib.contains "." ext2 = false ->
  PathLib.with_suffix_name (stem ++ "."%char :: ext1) PathLib.png
  = Ok (stem ++ PathLib.png)
  /\ PathLib.with_suffix_name (stem ++ "."%char :: ext2) PathLib.png
     = Ok (stem ++ PathLib.png).
Proof.
  assert (Hone : forall ext, stem <> [] -> ext <> [] ->
            PathLib.contains "." ext = false ->
            PathLib.with_suffix_name (stem ++ "."%char :: ext) PathLib.png
            = Ok (stem ++ PathLib.png)).
  { intros ext Hstem Hext Hdot.
    destruct (PathFacts.with_suffix_name_png (stem ++ "."%char :: ext))
      as (stem' & _ & Hsplit & ->).
    { by destruct stem. }
    rewrite PathFacts.suffix_stem_ext in Hsplit by done.
    apply app_inv_tail in Hsplit. by subst. }
  intros Hstem H1 D1 H2 D2. split; by apply Hone.
Qed.

Lemma with_suffix_collision_witness :
  PathLib.with_suffix_name (list_ascii_of_string "cat.jpg") PathLib.png
  = Ok (list_ascii_of_string "cat.png")
  /\ PathLib.with_suffix_name (list_ascii_of_string "cat.webp") PathLib.png
     = Ok (list_ascii_of_string "cat.png").
Proof.
  apply (with_suffix_collision (list_ascii_of_string "cat")
           (list_ascii_of_string "jpg") (list_ascii_of_string "webp"));
    done.
Defined.

(** ** Orchestrator *)

Lemma with_suffix_ok (p q : PathLib.path) :
  PathLib.with_suffix p PathLib.png = Ok q ->
  PathLib.parent q = PathLib.parent p
  /\ PathLib.suffix (PathLib.name q) = PathLib.png.
Proof.
  unfold PathLib.with_suffix.
  destruct (PathLib.name p) as [|c n] eqn:Hn; [done|].
  destruct (PathFacts.with_suffix_name_png (c :: n)) as (stem & Hstem & _ & ->);
    [done|].
  cbn [bind]. intros [= <-]. cbn [PathLib.parent PathLib.name].
  split; [done|].
  by apply (PathFacts.suffix_stem_ext stem (list_ascii_of_string "png")).
Qed.

Section PipelineFacts.

Variable convert_rgba : Image -> Image.
Variable resize : Image -> Z * Z -> Image.
Variable scaled_alpha : Z -> Z -> Z -> Z.

(** A successful [process_image] writes one canvas, at the destination
    with the suffix [.png], and nothing else. *)
Lemma process_image_done fs fs' src dst make_transparent bg tolerance :
  process_image convert_rgba resize scaled_alpha fs src dst
                make_transparent bg tolerance = Done fs' ->
  exists q out,
    PathLib.with_suffix dst PathLib.png = Ok q
    /\ fs' = <[q := ImageFile out]> fs
    /\ im_mode out = ModeRGBA
    /\ im_size out = (TARGET_W, TARGET_H)
    /\ length (im_data out) = Z.to_nat (TARGET_W * TARGET_H).
Proof.
  unfold process_image.
  destruct (open_image fs src) as [im|]; [|done]. cbn [and_then].
  match goal with
  | |- and_then ?m _ = _ -> _ => destruct m as [im'|]; [|done]
  end.
  cbn [and_then].
  destruct (resize_and_pad convert_rgba resize im' TARGET_W TARGET_H)
    as [out|] eqn:Hres; [|done].
  cbn [lift and_then].
  destruct (PathLib.with_suffix dst PathLib.png) as [q|] eqn:Hq; [|done].
  cbn [lift and_then]. intros [= <-].
  exists q, out. split; [done|]. split; [done|].
  by apply (resize_and_pad_frame convert_rgba resize im').
Qed.

Lemma convert_one_writes out_dir mt bg tol (fs0 fs : FS) count f fs' count' :
  (forall p, fs !! p = fs0 !! p \/ canvas_entry out_dir fs p) ->
  convert_one convert_rgba resize scaled_alpha out_dir mt bg tol
              (fs, count) f = (fs', count') ->
  (forall p, fs' !! p = fs0 !! p \/ canvas_entry out_dir fs' p)
  /\ count <= count' <= count + 1.
Proof.
  intros Hinv. unfold convert_one.
  destruct (process_image convert_rgba resize scaled_alpha fs f
              (PathLib.mkPath out_dir (PathLib.name f)) mt bg tol)
    as [fs1|] eqn:Hproc.
  - intros [= <- <-]. split; [|lia].
    apply process_image_done in Hproc
      as (q & out & Hq & -> & Hm & Hs & Hl).
    apply with_suffix_ok in Hq as [Hpar Hsfx].
    cbn [PathLib.parent] in Hpar.
    intros p. destruct (decide (q = p)) as [<-|Hne].
    + right. repeat (split; [done|]). exists out.
      by rewrite lookup_insert_eq.
    + rewrite lookup_insert_ne by done.
      destruct (Hinv p) as [Hp|(Hp1 & Hp2 & out' & Hp3 & Hrest)];
        [by left|].
      right. repeat (split; [done|]). exists out'.
      by rewrite lookup_insert_ne.
  - intros [= <- <-]. split; [done | lia].
Qed.

Lemma batch_writes out_dir mt bg tol (fs0 : FS) files :
  forall (fs : FS) count fs' count',
  (forall p, fs !! p = fs0 !! p \/ canvas_entry out_dir fs p) ->
  fold_left (convert_one convert_rgba resize scaled_alpha out_dir mt bg tol)
            files (fs, count) = (fs', count') ->
  (forall p, fs' !! p = fs0 !! p \/ canvas_entry out_dir fs' p)
  /\ count <= count' <= count + Z.of_nat (length files).
Proof.
  induction files as [|f files IH]; intros fs count fs' count' Hinv;
    cbn [fold_left length].
  - intros [= <- <-]. split; [done | lia].
  - destruct (convert_one convert_rgba resize scaled_alpha out_dir mt bg tol
                (fs, count) f) as [fs1 count1] eqn:Hstep.
    destruct (convert_one_writes _ _ _ _ _ _ _ _ _ _ Hinv Hstep)
      as [Hinv1 Hc1].
    intros Hrest. destruct (IH _ _ _ _ Hinv1 Hrest) as [Hinv' Hc'].
    split; [done | lia].
Qed.

(** The steps of [process_image] after the optional keying. *)
Lemma process_image_tail (fs : FS) dst im :
  1 <= width (convert_rgba im) < 2 ^ 31 ->
  1 <= height (convert_rgba im) < 2 ^ 31 ->
  PathLib.name dst <> [] ->
  exists q out,
    PathLib.with_suffix dst PathLib.png = Ok q
    /\ (try out_im <- lift (resize_and_pad convert_rgba resize im
                                           TARGET_W TARGET_H);
        try dst <- lift (PathLib.with_suffix dst PathLib.png);
        Done (<[dst := ImageFile out_im]> fs))
       = Done (<[q := ImageFile out]> fs).
Proof.
  intros Hw Hh Hn.
  destruct (resize_and_pad_steps convert_rgba resize im TARGET_W TARGET_H)
    as (sw & sh & rw & rh & _ & _ & _ & _ & _ & Hres);
    [unfold TARGET_W; lia | unfold TARGET_H; lia | done | done |].
  rewrite Hres. cbn [lift and_then].
  destruct (PathFacts.with_suffix_name_png (PathLib.name dst) Hn)
    as (stem & _ & _ & Hws).
  unfold PathLib.with_suffix. rewrite Hws. cbn [bind lift and_then].
  eauto.
Qed.

(** A picture with at least one pixel is converted: with keying only
    when the tolerance is positive. *)
Lemma process_image_ok (fs : FS) src dst im mt bg tol :
  (forall i, im_size (convert_rgba i) = im_size i) ->
  fs !! src = Some (ImageFile im) ->
  wf_image (convert_rgba im) ->
  1 <= width (convert_rgba im) < 2 ^ 31 ->
  1 <= height (convert_rgba im) < 2 ^ 31 ->
  PathLib.name dst <> [] ->
  (mt = true -> 0 < tol) ->
  exists q out,
    PathLib.with_suffix dst PathLib.png = Ok q
    /\ process_image convert_rgba resize scaled_alpha fs src dst mt bg tol
       = Done (<[q := ImageFile out]> fs).
Proof.
  intros Hconv Hsrc Hwf Hw Hh Hn Htol.
  unfold process_image, open_image. rewrite Hsrc. cbn [and_then].
  destruct mt; cbn [and_then]; [|by apply process_image_tail].
  specialize (Htol eq_refl).
  assert (Hbg : exists c,
             match bg with
             | Some c => Done c
             | None => lift (detect_bg_color convert_rgba im)
             end = Done c).
  { destruct bg as [c|]; [by exists c|].
    destruct (detect_bg_color_sampled convert_rgba im Hwf)
      as (p00 & p10 & p01 & p11 & _ & _ & _ & _ & Hdet); [lia | lia |].
    rewrite Hdet. cbn [lift]. eauto. }
  destruct Hbg as [c ->]. cbn [and_then].
  destruct (make_bg_transparent_pixels convert_rgba scaled_alpha im c tol
              Hwf Htol) as (keyed & -> & _ & Hsz & _).
  cbn [lift and_then].
  apply process_image_tail; [| |done]; unfold width, height in *;
    by rewrite Hconv, Hsz.
Qed.

(** [main] on a single file. *)
Lemma main_input_file src output mt bg_color tol (fs : FS) :
  main convert_rgba resize scaled_alpha (InputFile src) output mt bg_color
       tol fs =
  match parse_bg bg_color with
  | Raise e => BadColor e
  | Ok bg =>
      match process_image convert_rgba resize scaled_alpha fs src
              (PathLib.mkPath output (PathLib.name src)) mt bg tol with
      | Done fs' => Finished fs' 1
      | Failed _ => Finished fs 0
      end
  end.
Proof.
  unfold main. destruct (parse_bg bg_color) as [bg|e]; [|done].
  cbn [candidates fold_left]. unfold convert_one.
  by destruct (process_image _ _ _ _ _ _ _ _ _).
Qed.

End PipelineFacts.

Lemma sample_disk_run :
  exists out,
    main Sample.convert_rgba Sample.resize Sample.scaled_alpha
         (InputFile SampleFiles.cat_jpg) "out" false None 18 SampleFiles.disk
    = Finished (<[SampleFiles.cat_png := ImageFile out]> SampleFiles.disk) 1.
Proof.
  destruct (process_image_ok Sample.convert_rgba Sample.resize
              Sample.scaled_alpha SampleFiles.disk SampleFiles.cat_jpg
              (PathLib.mkPath "out" (PathLib.name SampleFiles.cat_jpg))
              Sample.white_dot false None 18)
    as (q & out & Hq & Hrun).
  - reflexivity.
  - vm_compute. reflexivity.
  - unfold wf_image. cbn. repeat split; try lia.
    repeat constructor; unfold byte; lia.
  - vm_compute. split; [discriminate | reflexivity].
  - vm_compute. split; [discriminate | reflexivity].
  - discriminate.
  - discriminate.
  - exists out. rewrite main_input_file. change (parse_bg None) with (Ok (@None RGB)).
    cbv iota. rewrite Hrun.
    vm_compute in Hq. injection Hq as <-. reflexivity.
Qed.

(** X17: a finished run removes and changes nothing but what it writes:
    every path holds what it held before, or it lies in the output
    directory, has the suffix [.png] and holds an RGBA canvas 370 wide
    and 320 tall. *)
Theorem main_keeps_files
  (convert_rgba : Image -> Image) (resize : Image -> Z * Z -> Image)
  (scaled_alpha : Z -> Z -> Z -> Z)
  (inp : input) (output : string) (make_transparent : bool)
  (bg_color : option string) (tolerance : Z) (fs fs' : FS) (count : Z) :
  main convert_rgba resize scaled_alpha inp output make_transparent bg_color
       tolerance fs = Finished fs' count ->
  forall p, fs' !! p = fs !! p \/ canvas_entry output fs' p.
Proof.
  unfold main. destruct (parse_bg bg_color) as [bg|e]; [|done].
  destruct (candidates inp) as [[|f files]|]; [done| |done].
  destruct (fold_left _ (f :: files) (fs, 0)) as [fs1 count1] eqn:E.
  intros [= <- <-].
  eapply batch_writes in E as [Hinv _]; [exact Hinv|]. by left.
Qed.

Lemma main_keeps_files_witness :
  exists fs' count,
    main Sample.convert_rgba Sample.resize Sample.scaled_alpha
         (InputFile SampleFiles.cat_jpg) "out" false None 18 SampleFiles.disk
    = Finished fs' count
    /\ (fs' !! SampleFiles.cat_jpg = SampleFiles.disk !! SampleFiles.cat_jpg
        \/ canvas_entry "out" fs' SampleFiles.cat_jpg)
    /\ (fs' !! SampleFiles.cat_png = SampleFiles.disk !! SampleFiles.cat_png
        \/ canvas_entry "out" fs' SampleFiles.cat_png).
Proof.
  destruct sample_disk_run as [out Hrun].
  exists (<[SampleFiles.cat_png := ImageFile out]> SampleFiles.disk), 1.
  split; [exact Hrun|].
  split; apply (main_keeps_files _ _ _ _ _ _ _ _ _ _ _ Hrun).
Defined.

(** X18: the count of a finished run lies between 0 and the number of
    candidate files, and a run only finishes when there is at least one
    candidate. *)
Theorem main_count
  (convert_rgba : Image -> Image) (resize : Image -> Z * Z -> Image)
  (scaled_alpha : Z -> Z -> Z -> Z)
  (inp : input) (output : string) (make_transparent : bool)
  (bg_color : option string) (tolerance : Z) (fs fs' : FS) (count : Z) :
  main convert_rgba resize scaled_alpha inp output make_transparent bg_color
       tolerance fs = Finished fs' count ->
  exists files,
    candidates inp = Some files
    /\ files <> []
    /\ 0 <= count <= Z.of_nat (length files).
Proof.
  unfold main. destruct (parse_bg bg_color) as [bg|e]; [|done].
  destruct (candidates inp) as [[|f files]|]; [done| |done].
  destruct (fold_left _ (f :: files) (fs, 0)) as [fs1 count1] eqn:E.
  intros [= <- <-]. exists (f :: files). split; [done|]. split; [done|].
  eapply batch_writes in E as [_ Hc]; [exact Hc|]. by left.
Qed.

Lemma main_count_witness :
  exists fs' count files,
    main Sample.convert_rgba Sample.resize Sample.scaled_alpha
         (InputFile SampleFiles.cat_jpg) "out" false None 18 SampleFiles.disk
    = Finished fs' count
    /\ candidates (InputFile SampleFiles.cat_jpg) = Some files
    /\ files <> []
    /\ 0 <= count <= Z.of_nat (length files).
Proof.
  destruct sample_disk_run as [out Hrun].
  exists (<[SampleFiles.cat_png := ImageFile out]> SampleFiles.disk), 1.
  destruct (main_count _ _ _ _ _ _ _ _ _ _ _ Hrun) as (files & H).
  exists files. split; [exact Hrun | exact H].
Defined.

(** X19: a single input file that decodes to a picture with at least one
    pixel is always converted, with keying whenever the tolerance is
    positive: the run finishes with count 1 and the disk differs from the
    old one at the output path only. *)
Theorem main_single_file
  (convert_rgba : Image -> Image) (resize : Image -> Z * Z -> Image)
  (scaled_alpha : Z -> Z -> Z -> Z)
  (src : PathLib.path) (output : string) (make_transparent : bool)
  (bg_color : option string) (bg : option RGB) (tolerance : Z)
  (fs : FS) (im : Image) :
  let px := convert_rgba im in
  (forall i, im_size (convert_rgba i) = im_size i) ->
  parse_bg bg_color = Ok bg ->
  fs !! src = Some (ImageFile im) ->
  wf_image px ->
  1 <= width px < 2 ^ 31 -> 1 <= height px < 2 ^ 31 ->
  PathLib.name src <> [] ->
  (make_transparent = true -> 0 < tolerance) ->
  exists q out,
    PathLib.with_suffix (PathLib.mkPath output (PathLib.name src)) PathLib.png
    = Ok q
    /\ main convert_rgba resize scaled_alpha (InputFile src) output
            make_transparent bg_color tolerance fs
       = Finished (<[q := ImageFile out]> fs) 1.
Proof.
  intros px Hconv Hbg Hsrc Hwf Hw Hh Hn Htol.
  destruct (process_image_ok convert_rgba resize scaled_alpha fs src
              (PathLib.mkPath output (PathLib.name src)) im
              make_transparent bg tolerance) as (q & out & Hq & Hrun);
    try done.
  exists q, out. split; [done|].
  by rewrite main_input_file, Hbg, Hrun.
Qed.

Lemma main_single_file_witness :
  exists q out,
    PathLib.with_suffix
      (PathLib.mkPath "out" (PathLib.name SampleFiles.cat_jpg)) PathLib.png
    = Ok q
    /\ main Sample.convert_rgba Sample.resize Sample.scaled_alpha
            (InputFile SampleFiles.cat_jpg) "out" true (Some "#FFFFFF"%string)
            18 SampleFiles.disk
       = Finished (<[q := ImageFile out]> SampleFiles.disk) 1.
Proof.
  apply (main_single_file Sample.convert_rgba Sample.resize
           Sample.scaled_alpha SampleFiles.cat_jpg "out" true
           (Some "#FFFFFF"%string) (Some (255, 255, 255)) 18
           SampleFiles.disk Sample.white_dot).
  - reflexivity.
  - vm_compute. reflexivity.
  - vm_compute. reflexivity.
  - unfold wf_image. cbn. repeat split; try lia.
    repeat constructor; unfold byte; lia.
  - vm_compute. split; [discriminate | reflexivity].
  - vm_compute. split; [discriminate | reflexivity].
  - discriminate.
  - intros _. lia.
Defined.

(** X20: in a directory, a name made of a stem, a dot and an extension
    without a dot is picked up exactly when it is a file and its
    extension, lowercased, is one of the valid ones; a name that starts
    with its only dot, such as [.png], is never picked up. *)
Theorem wanted_extension (d : string) (stem ext : list ascii)
  (is_file : bool) :
  ext <> [] -> PathLib.contains "." ext = false ->
  (stem <> [] ->
   wanted (PathLib.mkPath d (stem ++ "."%char :: ext), is_file)
   = if decide (PathLib.lower ("."%char :: ext) ∈ VALID_EXTS)
     then is_file else false)
  /\ wanted (PathLib.mkPath d ("."%char :: ext), is_file) = false.
Proof.
  intros Hext Hdot. split.
  - intros Hstem. unfold wanted. cbn [fst snd PathLib.name].
    rewrite PathFacts.suffix_stem_ext by done.
    by destruct (decide _).
  - unfold wanted. cbn [fst snd PathLib.name].
    assert (Hs : PathLib.suffix ("."%char :: ext) = []).
    { unfold PathLib.suffix.
      pose proof (PathFacts.rfind_last "." [] ext Hdot) as Hr.
      cbn [app length] in Hr. rewrite Hr. reflexivity. }
    rewrite Hs. reflexivity.
Qed.

Lemma wanted_extension_witness :
  wanted (PathLib.mkPath "in" (list_ascii_of_string "cat.JPG"), true) = true
  /\ wanted (PathLib.mkPath "in" (list_ascii_of_string ".png"), true) = false.
Proof.
  destruct (wanted_extension "in" (list_ascii_of_string "cat")
              (list_ascii_of_string "JPG") true) as [H1 _]; [done | done |].
  destruct (wanted_extension "in" [] (list_ascii_of_string "png") true)
    as [_ H2]; [done | done |].
  split; [|exact H2].
  change (list_ascii_of_string "cat.JPG")
    with (list_ascii_of_string "cat" ++ "."%char :: list_ascii_of_string "JPG").
  rewrite H1 by done. reflexivity.
Defined.

(** ** The layout fits the canvas *)

(** X21: for all sizes below [2^31] the content fits the canvas: its
    width and height are at least 1 and at most the target's, and the
    paste box lies inside the canvas, with margins on the two sides of
    an axis that differ by at most 1. *)
Theorem layout_fits (target_w target_h w h : Z) :
  1 <= target_w < 2 ^ 31 -> 1 <= target_h < 2 ^ 31 ->
  1 <= w < 2 ^ 31 -> 1 <= h < 2 ^ 31 ->
  exists new_w new_h x y,
    layout target_w target_h w h = Ok ((new_w, new_h), (x, y))
    /\ 1 <= new_w <= target_w /\ 1 <= new_h <= target_h
    /\ 0 <= x /\ x + new_w <= target_w
    /\ 0 <= y /\ y + new_h <= target_h
    /\ 0 <= (target_w - (x + new_w)) - x <= 1
    /\ 0 <= (target_h - (y + new_h)) - y <= 1.
Proof.
  intros Htw Hth Hw Hh.
  destruct (layout_axes target_w target_h w h Htw Hth Hw Hh)
    as (new_w & new_h & Hlay & Hnw & Hnh & _).
  exists new_w, new_h, ((target_w - new_w) / 2), ((target_h - new_h) / 2).
  split; [done|].
  pose proof (Z.div_mod (target_w - new_w) 2 ltac:(lia)) as Hx.
  pose proof (Z.mod_pos_bound (target_w - new_w) 2 ltac:(lia)) as Hx'.
  pose proof (Z.div_mod (target_h - new_h) 2 ltac:(lia)) as Hy.
  pose proof (Z.mod_pos_bound (target_h - new_h) 2 ltac:(lia)) as Hy'.
  set (x := (target_w - new_w) / 2) in *.
  set (y := (target_h - new_h) / 2) in *.
  clearbody x y. lia.
Qed.

Lemma layout_fits_witness :
  exists new_w new_h x y,
    layout 370 320 640 480 = Ok ((new_w, new_h), (x, y))
    /\ 1 <= new_w <= 370 /\ 1 <= new_h <= 320
    /\ 0 <= x /\ x + new_w <= 370
    /\ 0 <= y /\ y + new_h <= 320
    /\ 0 <= (370 - (x + new_w)) - x <= 1
    /\ 0 <= (320 - (y + new_h)) - y <= 1.
Proof. apply (layout_fits 370 320 640 480); lia. Defined.

(** X22: the content spans the canvas along at least one axis: its
    width is the target width or its height is the target height. *)
Theorem layout_fills (target_w target_h w h : Z) :
  1 <= target_w < 2 ^ 31 -> 1 <= target_h < 2 ^ 31 ->
  1 <= w < 2 ^ 31 -> 1 <= h < 2 ^ 31 ->
  exists new_w new_h xy,
    layout target_w target_h w h = Ok ((new_w, new_h), xy)
    /\ (new_w = target_w \/ new_h = target_h).
Proof.
  intros Htw Hth Hw Hh.
  destruct (layout_axes target_w target_h w h Htw Hth Hw Hh)
    as (new_w & new_h & Hlay & _ & _ & Hfill).
  by eexists _, _, _.
Qed.

Lemma layout_fills_witness :
  exists new_w new_h xy,
    layout 370 320 100 300 = Ok ((new_w, new_h), xy)
    /\ (new_w = 370 \/ new_h = 320).
Proof. apply (layout_fills 370 320 100 300); lia. Defined.

Example layout_640_480 :
  layout 370 320 640 480 = Ok ((370, 278), (0, 21)).
Proof. vm_compute. reflexivity. Qed.

(** ** The keyer in binary64 arithmetic *)

(** The square root of a number between 0 and 1 is between 0 and 1. *)
Lemma sqrt_le_one (x : F64.float) :
  F64.le_int 1 x -> F64.le_int 1 (Binary64.pow_half x).
Proof.
  destruct x as [s|s| |[|] m e]; try done.
  intros [He Hm]. unfold Binary64.pow_half, SFsqrt, SFsqrt_core_binary.
  set (e' := Z.min _ _).
  assert (He' : 2 * e' <= e /\ e' <= 0).
  { subst e'. change (IntDef.Z.div2 e) with (Z.div2 e).
    rewrite (Z.div2_div e). pose proof (Z.div_mod e 2 ltac:(lia)).
    pose proof (Z.mod_pos_bound e 2 ltac:(lia)). lia. }
  set (s := e - 2 * e').
  set (m' := match s with
             | 0 => Z.pos m
             | Z.pos _ => Z.shiftl (Z.pos m) s
             | Z.neg _ => 0
             end).
  assert (Hm' : m' = Z.pos m * 2 ^ s).
  { subst m'. destruct s as [|p|p] eqn:Es; try lia.
    by rewrite Z.shiftl_mul_pow2. }
  pose proof (Z.pow_pos_nonneg 2 s ltac:(lia) ltac:(lia)) as HPs.
  pose proof (Z.pow_pos_nonneg 2 (- e') ltac:(lia) ltac:(lia)) as HP.
  assert (Hsq : m' <= 2 ^ (- e') * 2 ^ (- e')).
  { rewrite Hm', <- Z.pow_add_r by lia.
    replace (- e' + - e') with (- e + s) by (subst s; lia).
    rewrite Z.pow_add_r by lia. rewrite Z.mul_1_l in Hm.
    apply Z.mul_le_mono_nonneg_r; lia. }
  pose proof (Z.sqrtrem_spec m' ltac:(lia)) as Hspec.
  change (Z.sqrtrem m') with (IntDef.Z.sqrtrem m') in Hspec.
  destruct (IntDef.Z.sqrtrem m') as [q r].
  destruct Hspec as [Hq Hr].
  assert (Hq0 : 0 <= q) by lia.
  set (P := 2 ^ (- e')) in *.
  assert (Hroot : forall bound, bound < q * q -> q <= P -> bound < P * P).
  { intros bound Hb Hle.
    assert (q * q <= P * P) by (apply Z.mul_le_mono_nonneg; lia). lia. }
  assert (HqP : q <= P).
  { destruct (Z.le_gt_cases q P) as [|Hgt]; [done|].
    assert ((P + 1) * (P + 1) <= q * q)
      by (apply Z.mul_le_mono_nonneg; lia). lia. }
  apply AlphaFacts.binary_round_aux_le_int; [done | lia | lia | lia |].
  intros Hloc. rewrite Z.mul_1_l.
  destruct (Z.eqb_spec r 0) as [->|Hr0]; [done|].
  destruct (Z.eq_dec q P) as [->|Hne]; [lia | lia].
Qed.

Lemma make_bg_transparent_binary64_witness :
  exists out,
    make_bg_transparent Sample.convert_rgba Binary64.scaled_alpha
      Sample.patch Sample.white 10 = Ok out
    /\ forall i p, im_data (Sample.convert_rgba Sample.patch) !! i = Some p ->
         exists p', im_data out !! i = Some p'
           /\ rgb_of p' = rgb_of p
           /\ alpha_of p' <= alpha_of p
           /\ (rgb_of p = Sample.white -> alpha_of p' = 0).
Proof.
  apply (make_bg_transparent_binary64 Sample.convert_rgba Binary64.pow_half
           Binary64.scaled_alpha Sample.patch Sample.white 10).
  - reflexivity.
  - exact sqrt_le_one.
  - intros a d t v Hv. unfold Binary64.scaled_alpha. rewrite Hv. reflexivity.
  - exact SampleFacts.patch_wf.
  - lia.
  - lia.
Defined.

(** ** Detection followed by keying *)

Lemma getpixel_lookup (im : Image) (x y : Z) (p : Pixel) :
  0 <= x < width im -> 0 <= y < height im ->
  im_data im !! offset (width im) x y = Some p ->
  getpixel im (x, y) = Ok p.
Proof.
  intros Hx Hy Hp. unfold getpixel, width, height in *.
  destruct (im_size im) as [w h]. simpl in *.
  rewrite (proj2 (Z.ltb_ge x 0)), (proj2 (Z.ltb_ge y 0)) by lia.
  rewrite (proj2 (Z.leb_le 0 x)), (proj2 (Z.leb_le 0 y)) by lia.
  rewrite (proj2 (Z.ltb_lt x w)), (proj2 (Z.ltb_lt y h)) by lia.
  simpl. by rewrite Hp.
Qed.

Lemma corners_in_range (w h : Z) (xy : Z * Z) :
  1 <= w -> 1 <= h -> xy ∈ corners w h ->
  0 <= xy.1 < w /\ 0 <= xy.2 < h.
Proof.
  intros Hw Hh Hin. unfold corners in Hin.
  repeat (apply elem_of_cons in Hin as [->|Hin]; [simpl; lia|]).
  by apply elem_of_nil in Hin.
Qed.

(** X24: automatic keying of a picture whose four corners have one
    color: the detector returns that color and, for a positive
    tolerance, the keyer makes the four corner pixels fully transparent
    (the float expression is only assumed to be 0 at distance 0). *)
Theorem auto_key_corners
  (convert_rgba : Image -> Image) (scaled_alpha : Z -> Z -> Z -> Z)
  (im : Image) (tolerance : Z) (c : RGB) :
  let px := convert_rgba im in
  let w := width px in
  let h := height px in
  (forall a, 0 < a <= 255 ->
             scaled_alpha a 0 (tolerance * tolerance * 3) = 0) ->
  wf_image px -> 1 <= w -> 1 <= h -> 0 < tolerance ->
  (forall xy p, xy ∈ corners w h -> getpixel px xy = Ok p -> rgb_of p = c) ->
  detect_bg_color convert_rgba im = Ok c
  /\ exists out,
       make_bg_transparent convert_rgba scaled_alpha im c tolerance = Ok out
       /\ forall xy, xy ∈ corners w h ->
            exists p', getpixel out xy = Ok p' /\ alpha_of p' = 0.
Proof.
  intros px w h Hzero Hwf Hw Hh Htol Hcorner.
  assert (Hget : forall xy, xy ∈ corners w h ->
            exists p, im_data px !! offset w xy.1 xy.2 = Some p
                      /\ getpixel px xy = Ok p /\ rgb_of p = c).
  { intros [x y] Hin.
    destruct (corners_in_range w h (x, y) Hw Hh Hin) as [Hx Hy].
    destruct (getpixel_in_range px x y Hwf Hx Hy) as (p & Hp & Hg).
    exists p. split; [done|]. split; [done|]. by apply (Hcorner (x, y)). }
  split.
  - unfold detect_bg_color. fold px.
    assert (Hsz : im_size px = (w, h))
      by (subst w h; unfold width, height; by destruct (im_size px)).
    rewrite Hsz. unfold corners in *. cbn [mapM].
    destruct (Hget (0, 0)) as (p00 & _ & -> & C00); [set_solver|].
    destruct (Hget (w - 1, 0)) as (p10 & _ & -> & C10); [set_solver|].
    destruct (Hget (0, h - 1)) as (p01 & _ & -> & C01); [set_solver|].
    destruct (Hget (w - 1, h - 1)) as (p11 & _ & -> & C11); [set_solver|].
    cbn [bind map]. rewrite C00, C10, C01, C11. f_equal.
    apply DetectFacts.pick_color_majority; [set_solver|].
    intros d Hd Hne. exfalso. apply Hne.
    repeat (apply elem_of_cons in Hd as [->|Hd]; [done|]).
    by apply elem_of_nil in Hd.
  - destruct (make_bg_transparent_pixels convert_rgba scaled_alpha im c
                tolerance Hwf Htol) as (out & Hout & _ & Hsize & _ & Hpix).
    exists out. split; [done|]. intros [x y] Hin.
    destruct (corners_in_range w h (x, y) Hw Hh Hin) as [Hx Hy].
    destruct (Hget (x, y) Hin) as (p & Hp & _ & Hc).
    destruct (Hpix _ p Hp) as (p' & Hp' & Hkey).
    exists p'. split.
    + apply getpixel_lookup; unfold width, height; rewrite Hsize; done.
    + eapply keyed_exact; [exact Hzero | by apply tol_sq_pos | | exact Hc
                          | exact Hkey].
      destruct Hwf as (_ & _ & _ & Hbytes). rewrite Forall_forall in Hbytes.
      apply Hbytes. by eapply list_elem_of_lookup_2.
Qed.

Lemma auto_key_corners_witness :
  detect_bg_color Sample.convert_rgba Sample.white_dot = Ok Sample.white
  /\ exists out,
       make_bg_transparent Sample.convert_rgba Sample.scaled_alpha
         Sample.white_dot Sample.white 18 = Ok out
       /\ forall xy, xy ∈ corners 1 1 ->
            exists p', getpixel out xy = Ok p' /\ alpha_of p' = 0.
Proof.
  apply (auto_key_corners Sample.convert_rgba Sample.scaled_alpha
           Sample.white_dot 18 Sample.white).
  - intros a Ha. apply SampleFacts.scaled_alpha_zero; [exact Ha | lia].
  - unfold wf_image. cbn. repeat split; try lia.
    repeat constructor; unfold byte; lia.
  - cbn. lia.
  - cbn. lia.
  - lia.
  - intros xy p Hin. cbn in Hin.
    repeat (apply elem_of_cons in Hin as [->|Hin];
            [vm_compute; by intros [= <-]|]).
    by apply elem_of_nil in Hin.
Defined.
